(** * Gateway node-invocation broker: registry, chunked transfers, exec-host client

    A shallow embedding of [src/gateway/node-registry.ts] (class
    [NodeRegistry]) and of [src/infra/exec-host.ts]
    ([requestExecHostViaSocket]), with the properties of the broker
    specification stated and settled against it.

    Conventions of the embedding:
    - a JavaScript [Map<string, V>] is a [gmap string V];
    - a JavaScript [number] holding a count or an index is a [Z]: only
      integral values are modelled, and the arithmetic of the model is that
      of the code as long as the values stay within 2^53 - 1 in absolute
      value, where a JavaScript number holds every integer exactly;
    - a [Buffer] is a [list byte];
    - the text the exec-host client splits into lines is a JavaScript
      string, a list of UTF-16 code units;
    - every method of the class is a function [State -> State * result];
    - promises and timers, which the class only holds handles to, live in
      the state: [promises] records how each promise was settled (the first
      settlement wins, as in JavaScript) and [timers] the armed timers. *)

From stdpp Require Import base gmap list strings fin_maps.
From Stdlib Require Import ssreflect ZArith Strings.Byte Strings.Ascii.

Set Warnings "-register-all,-rewrite-rw,-clear-no-such-hyp".
Local Open Scope string_scope.
Local Open Scope Z_scope.
Local Open Scope list_scope.

(** ** JavaScript values (what [JSON.parse] yields, plus [undefined]) *)

Inductive JsVal : Type :=
| JUndefined
| JNull
| JBool (b : bool)
| JNum (n : Z)
| JStr (s : string)
| JArr (items : list JsVal)
| JObj (fields : list (string * JsVal)).

(** Truthiness of a value in a condition. *)
Definition truthy (v : JsVal) : bool :=
  match v with
  | JUndefined | JNull => false
  | JBool b => b
  | JNum n => negb (Z.eqb n 0)
  | JStr s => negb (String.eqb s "")
  | JArr _ | JObj _ => true
  end.

Fixpoint assoc_get (k : string) (fs : list (string * JsVal)) : JsVal :=
  match fs with
  | [] => JUndefined
  | (k', v) :: rest => if String.eqb k k' then v else assoc_get k rest
  end.

(** [v?.k]: property read with optional chaining.  Primitives and arrays
    have none of the property names read by the modelled code. *)
Definition js_get (k : string) (v : JsVal) : JsVal :=
  match v with
  | JObj fs => assoc_get k fs
  | _ => JUndefined
  end.

(** [a ?? b] *)
Definition js_nullish (a b : JsVal) : JsVal :=
  match a with
  | JUndefined | JNull => b
  | _ => a
  end.

(** [String.prototype.toLowerCase] on the ASCII range. *)
Definition lower_ascii (c : ascii) : ascii :=
  let n := nat_of_ascii c in
  if (Nat.leb 65 n && Nat.leb n 90)%bool then ascii_of_nat (n + 32) else c.

Fixpoint toLowerCase (s : string) : string :=
  match s with
  | EmptyString => EmptyString
  | String c rest => String (lower_ascii c) (toLowerCase rest)
  end.

(** ** The node registry *)

Module NodeRegistry.

(** The part of the connect handshake that [register] reads. *)
Record ConnectParams := {
  device_id : option string;            (* connect.device?.id *)
  client_id : string;
  client_displayName : option string;
  client_platform : option string;
  client_version : option string;
  client_deviceFamily : option string;
  client_modelIdentifier : option string;
  connect_coreVersion : option string;
  connect_uiVersion : option string;
  connect_caps : option (list string);      (* None: not an array *)
  connect_commands : option (list string);  (* None: not an array *)
  (* None: typeof is not "object"; Some None: null *)
  connect_permissions : option (option (list (string * bool)));
  connect_pathEnv : option string           (* None: typeof is not "string" *)
}.

Record GatewayWsClient := {
  connId : string;
  connect : ConnectParams
}.

Record NodeSession := {
  ns_nodeId : string;
  ns_connId : string;
  ns_client : GatewayWsClient;
  ns_displayName : option string;
  ns_platform : option string;
  ns_version : option string;
  ns_coreVersion : option string;
  ns_uiVersion : option string;
  ns_deviceFamily : option string;
  ns_modelIdentifier : option string;
  ns_remoteIp : option string;
  ns_caps : list string;
  ns_commands : list string;
  ns_permissions : option (list (string * bool));
  ns_pathEnv : option string;
  ns_connectedAtMs : Z
}.

Record ErrorShape := {
  err_code : option string;
  err_message : option string
}.

Record NodeInvokeResult := {
  ok : bool;
  payload : option JsVal;
  payloadJSON : option string;
  error : option ErrorShape
}.

(** How the promise returned by [invoke] ends: [resolve(value)] or
    [reject(new Error(message))]. *)
Inductive Settlement :=
| Resolved (value : NodeInvokeResult)
| Rejected (message : string).

(** [resolve], [reject] and [timer] of the source are capabilities on the
    promise and the timeout created by one [invoke] call; [pi_call] is the
    handle of that call and names both. *)
Record PendingInvoke := {
  pi_nodeId : string;
  pi_command : string;
  pi_call : nat
}.

Record PendingInvokeTransfer := {
  tr_nodeId : string;
  tr_totalBytes : Z;
  tr_chunkBytes : Z;
  tr_chunkCount : Z;
  tr_nextIndex : Z;
  tr_bytesReceived : Z;
  tr_sha256 : string;
  tr_hash : list byte;          (* bytes fed to the incremental hash *)
  tr_chunks : list (list byte)
}.

Inductive InvokeTransferFailureReason :=
| UnknownInvokeId
| PayloadTooLarge
| ChunkOutOfOrder
| ChunkBytesMismatch
| HashMismatch.

(** What a call of the two transfer handlers comes to: one of the two
    shapes of [InvokeTransferResult], or no value at all because the call
    threw. *)
Inductive InvokeTransferResult :=
| TransferOk
| TransferFail (reason : InvokeTransferFailureReason) (message : string)
| TransferThrows.               (* a TypeError leaves the method *)

(** An armed timeout: its callback closes over [requestId]; [tm_delayMs]
    is the delay the runtime arms it with. *)
Record Timer := {
  tm_requestId : string;
  tm_delayMs : Z
}.

(** Node's [setTimeout(callback, ms)] arms the timeout with [ms] when it
    lies in 1..2^31-1 and with 1 ms otherwise. *)
Definition TIMEOUT_MAX : Z := 2147483647.

Definition setTimeout_delay (ms : Z) : Z :=
  if bool_decide (1 ≤ ms ≤ TIMEOUT_MAX) then ms else 1.

Record State := {
  nodesById : gmap string NodeSession;
  nodesByConn : gmap string string;
  pendingInvokes : gmap string PendingInvoke;
  invokeTransfers : gmap string PendingInvokeTransfer;
  inflightBytes : Z;
  (* the runtime's side *)
  timers : gmap nat Timer;
  promises : gmap nat Settlement;
  nextCall : nat
}.

Definition empty_registry : State :=
  {| nodesById := ∅; nodesByConn := ∅; pendingInvokes := ∅;
     invokeTransfers := ∅; inflightBytes := 0;
     timers := ∅; promises := ∅; nextCall := 0%nat |}.

Definition set_nodesById (f : gmap string NodeSession → gmap string NodeSession)
    (st : State) : State :=
  {| nodesById := f (nodesById st); nodesByConn := nodesByConn st;
     pendingInvokes := pendingInvokes st; invokeTransfers := invokeTransfers st;
     inflightBytes := inflightBytes st; timers := timers st;
     promises := promises st; nextCall := nextCall st |}.

Definition set_nodesByConn (f : gmap string string → gmap string string)
    (st : State) : State :=
  {| nodesById := nodesById st; nodesByConn := f (nodesByConn st);
     pendingInvokes := pendingInvokes st; invokeTransfers := invokeTransfers st;
     inflightBytes := inflightBytes st; timers := timers st;
     promises := promises st; nextCall := nextCall st |}.

Definition set_pendingInvokes
    (f : gmap string PendingInvoke → gmap string PendingInvoke)
    (st : State) : State :=
  {| nodesById := nodesById st; nodesByConn := nodesByConn st;
     pendingInvokes := f (pendingInvokes st); invokeTransfers := invokeTransfers st;
     inflightBytes := inflightBytes st; timers := timers st;
     promises := promises st; nextCall := nextCall st |}.

Definition set_invokeTransfers
    (f : gmap string PendingInvokeTransfer → gmap string PendingInvokeTransfer)
    (st : State) : State :=
  {| nodesById := nodesById st; nodesByConn := nodesByConn st;
     pendingInvokes := pendingInvokes st; invokeTransfers := f (invokeTransfers st);
     inflightBytes := inflightBytes st; timers := timers st;
     promises := promises st; nextCall := nextCall st |}.

Definition set_inflightBytes (f : Z → Z) (st : State) : State :=
  {| nodesById := nodesById st; nodesByConn := nodesByConn st;
     pendingInvokes := pendingInvokes st; invokeTransfers := invokeTransfers st;
     inflightBytes := f (inflightBytes st); timers := timers st;
     promises := promises st; nextCall := nextCall st |}.

Definition set_timers (f : gmap nat Timer → gmap nat Timer) (st : State) : State :=
  {| nodesById := nodesById st; nodesByConn := nodesByConn st;
     pendingInvokes := pendingInvokes st; invokeTransfers := invokeTransfers st;
     inflightBytes := inflightBytes st; timers := f (timers st);
     promises := promises st; nextCall := nextCall st |}.

Definition set_promises (f : gmap nat Settlement → gmap nat Settlement)
    (st : State) : State :=
  {| nodesById := nodesById st; nodesByConn := nodesByConn st;
     pendingInvokes := pendingInvokes st; invokeTransfers := invokeTransfers st;
     inflightBytes := inflightBytes st; timers := timers st;
     promises := f (promises st); nextCall := nextCall st |}.

Definition set_nextCall (f : nat → nat) (st : State) : State :=
  {| nodesById := nodesById st; nodesByConn := nodesByConn st;
     pendingInvokes := pendingInvokes st; invokeTransfers := invokeTransfers st;
     inflightBytes := inflightBytes st; timers := timers st;
     promises := promises st; nextCall := f (nextCall st) |}.

(** *** Runtime primitives *)

(** Settling a promise: only the first [resolve]/[reject] has an effect. *)
Definition settle (call : nat) (s : Settlement)
    (ps : gmap nat Settlement) : gmap nat Settlement :=
  match ps !! call with
  | Some _ => ps
  | None => <[call := s]> ps
  end.

Definition resolve (call : nat) (value : NodeInvokeResult) (st : State) : State :=
  set_promises (settle call (Resolved value)) st.

Definition reject (call : nat) (message : string) (st : State) : State :=
  set_promises (settle call (Rejected message)) st.

Definition clearTimeout (call : nat) (st : State) : State :=
  set_timers (delete call) st.

(** *** register *)

Definition register (client : GatewayWsClient) (remoteIp : option string)
    (now : Z) (st : State) : State * NodeSession :=
  let connect := connect client in
  let nodeId := default (client_id connect) (device_id connect) in
  let caps := default [] (connect_caps connect) in
  let commands := default [] (connect_commands connect) in
  let permissions := mjoin (connect_permissions connect) in
  let pathEnv := connect_pathEnv connect in
  let session :=
    {| ns_nodeId := nodeId;
       ns_connId := connId client;
       ns_client := client;
       ns_displayName := client_displayName connect;
       ns_platform := client_platform connect;
       ns_version := client_version connect;
       ns_coreVersion := connect_coreVersion connect;
       ns_uiVersion := connect_uiVersion connect;
       ns_deviceFamily := client_deviceFamily connect;
       ns_modelIdentifier := client_modelIdentifier connect;
       ns_remoteIp := remoteIp;
       ns_caps := caps;
       ns_commands := commands;
       ns_permissions := permissions;
       ns_pathEnv := pathEnv;
       ns_connectedAtMs := now |} in
  let st1 := set_nodesById (insert nodeId session) st in
  let st2 := set_nodesByConn (insert (connId client) nodeId) st1 in
  (st2, session).

(** *** clearInvokeTransfer *)

Definition clearInvokeTransfer (id : string) (st : State) : State :=
  match invokeTransfers st !! id with
  | None => st
  | Some transfer =>
      let st1 := set_invokeTransfers (delete id) st in
      set_inflightBytes (λ b, Z.max 0 (b - tr_totalBytes transfer)) st1
  end.

(** *** unregister *)

(** Body of the first loop, for one entry of [pendingInvokes]. *)
Definition disconnectPending (nodeId : string) (st : State)
    (entry : string * PendingInvoke) : State :=
  let '(id, pending) := entry in
  if bool_decide (pi_nodeId pending ≠ nodeId) then st
  else
    let st1 := clearTimeout (pi_call pending) st in
    let st2 :=
      reject (pi_call pending)
        ("node disconnected (" +:+ pi_command pending +:+ ")") st1 in
    set_pendingInvokes (delete id) st2.

(** Body of the second loop, for one entry of [invokeTransfers]. *)
Definition disconnectTransfer (nodeId : string) (st : State)
    (entry : string * PendingInvokeTransfer) : State :=
  let '(id, transfer) := entry in
  if bool_decide (tr_nodeId transfer ≠ nodeId) then st
  else clearInvokeTransfer id st.

(** Each loop deletes only the entry it is visiting, so iterating the live
    map visits exactly the entries present when the loop starts. *)
Definition unregister (conn : string) (st : State) : State * option string :=
  match nodesByConn st !! conn with
  | None => (st, None)
  | Some nodeId =>
      if bool_decide (nodeId = "") then (st, None)   (* !nodeId *)
      else
        let st1 := set_nodesByConn (delete conn) st in
        let st2 := set_nodesById (delete nodeId) st1 in
        let st3 :=
          foldl (disconnectPending nodeId) st2
                (map_to_list (pendingInvokes st2)) in
        let st4 :=
          foldl (disconnectTransfer nodeId) st3
                (map_to_list (invokeTransfers st3)) in
        (st4, Some nodeId)
  end.

Definition listConnected (st : State) : list NodeSession :=
  (map_to_list (nodesById st)).*2.

Definition get (nodeId : string) (st : State) : option NodeSession :=
  nodesById st !! nodeId.

(** *** invoke *)

(** The [params] property of the argument of [invoke], as
    [JSON.stringify] sees it. *)
Inductive InvokeArgument :=
| ArgMissing                  (* no "params" key, or [undefined] *)
| ArgValue (value : JsVal)    (* a value [JSON.stringify] serializes *)
| ArgUnserializable.          (* [JSON.stringify] throws: a cycle, a BigInt,
                                 a [toJSON] that throws *)

(** Whether [JSON.stringify] returns. *)
Definition stringifies (a : InvokeArgument) : bool :=
  match a with
  | ArgMissing | ArgValue _ => true
  | ArgUnserializable => false
  end.

Record InvokeParams := {
  iv_nodeId : string;
  iv_command : string;
  iv_params : InvokeArgument;
  iv_timeoutMs : option Z;          (* Some: typeof is "number" *)
  iv_idempotencyKey : option string
}.

(** What the [async] function hands back: a value at once, a promise
    rejected at once with what the body threw, or the promise of call
    [call], still pending. *)
Inductive InvokeReturn :=
| Returned (value : NodeInvokeResult)
| Rejects
| Awaiting (call : nat).

Definition error_result (code message : string) : NodeInvokeResult :=
  {| ok := false; payload := None; payloadJSON := None;
     error := Some {| err_code := Some code; err_message := Some message |} |}.

(** The timeout callback installed by [invoke]. *)
Definition fireTimer (call : nat) (st : State) : State :=
  match timers st !! call with
  | None => st
  | Some t =>
      let st0 := set_timers (delete call) st in          (* one-shot *)
      let st1 := set_pendingInvokes (delete (tm_requestId t)) st0 in
      let st2 := clearInvokeTransfer (tm_requestId t) st1 in
      resolve call (error_result "TIMEOUT" "node invoke timed out") st2
  end.

(** [requestId] is the value drawn by [randomUUID()]; [sendOk] tells
    whether [socket.send] returned (true) or threw (false).  The payload is
    built before it is sent, outside any [try]: when [JSON.stringify]
    throws on [params.params], nothing is sent and the promise of the
    [async] function is rejected. *)
Definition invoke (params : InvokeParams) (requestId : string) (sendOk : bool)
    (st : State) : State * InvokeReturn :=
  match nodesById st !! iv_nodeId params with
  | None => (st, Returned (error_result "NOT_CONNECTED" "node not connected"))
  | Some node =>
      if negb (stringifies (iv_params params)) then (st, Rejects)
      else if negb sendOk then
        (st, Returned (error_result "UNAVAILABLE" "failed to send invoke to node"))
      else
        let timeoutMs := default 30000 (iv_timeoutMs params) in
        let call := nextCall st in
        let st1 := set_nextCall S st in
        let st2 :=
          set_timers
            (insert call {| tm_requestId := requestId;
                            tm_delayMs := setTimeout_delay timeoutMs |})
            st1 in
        let st3 :=
          set_pendingInvokes
            (insert requestId
               {| pi_nodeId := iv_nodeId params;
                  pi_command := iv_command params;
                  pi_call := call |})
            st2 in
        (st3, Awaiting call)
  end.

(** *** handleInvokeResult *)

Record ResultParams := {
  rp_id : string;
  rp_nodeId : string;
  rp_ok : bool;
  rp_payload : option JsVal;
  rp_payloadJSON : option string;   (* None: null or undefined *)
  rp_error : option ErrorShape      (* None: null or undefined *)
}.

Definition handleInvokeResult (params : ResultParams) (st : State) : State * bool :=
  match pendingInvokes st !! rp_id params with
  | None => (st, false)
  | Some pending =>
      if bool_decide (pi_nodeId pending ≠ rp_nodeId params) then (st, false)
      else
        let st1 := clearTimeout (pi_call pending) st in
        let st2 := set_pendingInvokes (delete (rp_id params)) st1 in
        let st3 := clearInvokeTransfer (rp_id params) st2 in
        let st4 :=
          resolve (pi_call pending)
            {| ok := rp_ok params;
               payload := rp_payload params;
               payloadJSON := rp_payloadJSON params;
               error := rp_error params |}
            st3 in
        (st4, true)
  end.

Definition resolveInvokeError (id nodeId : string) (err : ErrorShape)
    (st : State) : State :=
  fst (handleInvokeResult
         {| rp_id := id; rp_nodeId := nodeId; rp_ok := false;
            rp_payload := None; rp_payloadJSON := None; rp_error := Some err |}
         st).

Definition invalid_request (message : string) : ErrorShape :=
  {| err_code := Some "INVALID_REQUEST"; err_message := Some message |}.

(** *** startInvokeResultTransfer *)

(** The numbers of a frame are modelled by [Z]: the model covers the
    frames whose numbers are integers, and its sums and differences are
    those of the code as long as they stay within -(2^53-1)..2^53-1, where
    a JavaScript number holds every integer exactly.  The method does not
    check that [sha256] is a string: [sp_sha256] is [None] for a value
    that is none, on which [.toLowerCase()] throws. *)
Record StartParams := {
  sp_id : string;
  sp_nodeId : string;
  sp_totalBytes : Z;
  sp_chunkBytes : Z;
  sp_chunkCount : Z;
  sp_sha256 : option string;
  sp_maxInvokeResultBytes : Z;
  sp_maxInflightBytes : Z
}.

Definition MAX_SAFE_INTEGER : Z := 2 ^ 53 - 1.

Definition startInvokeResultTransfer (params : StartParams) (st : State)
    : State * InvokeTransferResult :=
  let unknown := (st, TransferFail UnknownInvokeId "unknown invoke id") in
  match pendingInvokes st !! sp_id params with
  | None => unknown
  | Some pending =>
      if bool_decide (pi_nodeId pending ≠ sp_nodeId params) then unknown
      else if bool_decide (is_Some (invokeTransfers st !! sp_id params)) then
        (resolveInvokeError (sp_id params) (sp_nodeId params)
           (invalid_request "chunk out of order") st,
         TransferFail ChunkOutOfOrder "chunk out of order")
      else if bool_decide (sp_totalBytes params > sp_maxInvokeResultBytes params) then
        (resolveInvokeError (sp_id params) (sp_nodeId params)
           (invalid_request "payload too large") st,
         TransferFail PayloadTooLarge "payload too large")
      else if bool_decide
                (inflightBytes st + sp_totalBytes params > sp_maxInflightBytes params) then
        (resolveInvokeError (sp_id params) (sp_nodeId params)
           (invalid_request "payload too large") st,
         TransferFail PayloadTooLarge "payload too large")
      else
        let st1 := set_inflightBytes (λ b, b + sp_totalBytes params) st in
        match sp_sha256 params with
        | None => (st1, TransferThrows)   (* thrown while the entry is built *)
        | Some sha256 =>
        let st2 :=
          set_invokeTransfers
            (insert (sp_id params)
               {| tr_nodeId := sp_nodeId params;
                  tr_totalBytes := sp_totalBytes params;
                  tr_chunkBytes := sp_chunkBytes params;
                  tr_chunkCount := sp_chunkCount params;
                  tr_nextIndex := 0;
                  tr_bytesReceived := 0;
                  tr_sha256 := toLowerCase sha256;
                  tr_hash := [];
                  tr_chunks := [] |})
            st1 in
        (st2, TransferOk)
        end
  end.

(** *** handleInvokeResultChunk *)

(** The three library functions the chunk handler calls: base64 decoding
    ([Buffer.from(data, "base64")]), the hex SHA-256 digest of the bytes fed
    to a hash object, and UTF-8 decoding ([buf.toString("utf8")]). *)
Record NodeRuntime := {
  base64_decode : string → list byte;
  sha256_hex : list byte → string;
  utf8_decode : list byte → string
}.

(** [Buffer.concat(list, totalLength)]: the concatenation, cut or
    zero-filled to [totalLength] bytes. *)
Definition Buffer_concat (chunks : list (list byte)) (totalLength : Z) : list byte :=
  let all := concat chunks in
  let n := Z.to_nat totalLength in
  take n all ++ replicate (n - length all)%nat x00.

Record ChunkParams := {
  cp_id : string;
  cp_nodeId : string;
  cp_index : Z;
  cp_data : string;
  cp_bytes : Z
}.

Definition handleInvokeResultChunk (rt : NodeRuntime) (params : ChunkParams)
    (st : State) : State * InvokeTransferResult :=
  let id := cp_id params in
  let nodeId := cp_nodeId params in
  let unknown :=
    (match pendingInvokes st !! id with
     | Some pending =>
         if bool_decide (pi_nodeId pending = nodeId)
         then resolveInvokeError id nodeId (invalid_request "unknown invoke id") st
         else st
     | None => st
     end,
     TransferFail UnknownInvokeId "unknown invoke id") in
  let mismatch st' :=
    (resolveInvokeError id nodeId (invalid_request "chunk bytes mismatch") st',
     TransferFail ChunkBytesMismatch "chunk bytes mismatch") in
  match invokeTransfers st !! id with
  | None => unknown
  | Some transfer =>
      if bool_decide (tr_nodeId transfer ≠ nodeId) then unknown
      else if bool_decide (cp_index params ≠ tr_nextIndex transfer
                           ∨ cp_index params >= tr_chunkCount transfer) then
        (resolveInvokeError id nodeId (invalid_request "chunk out of order") st,
         TransferFail ChunkOutOfOrder "chunk out of order")
      else
        let decoded := base64_decode rt (cp_data params) in
        if bool_decide (Z.of_nat (length decoded) ≠ cp_bytes params) then mismatch st
        else
          let nextBytes := tr_bytesReceived transfer + Z.of_nat (length decoded) in
          if bool_decide (nextBytes > tr_totalBytes transfer) then mismatch st
          else
            let transfer' :=
              {| tr_nodeId := tr_nodeId transfer;
                 tr_totalBytes := tr_totalBytes transfer;
                 tr_chunkBytes := tr_chunkBytes transfer;
                 tr_chunkCount := tr_chunkCount transfer;
                 tr_nextIndex := tr_nextIndex transfer + 1;
                 tr_bytesReceived := nextBytes;
                 tr_sha256 := tr_sha256 transfer;
                 tr_hash := tr_hash transfer ++ decoded;
                 tr_chunks := tr_chunks transfer ++ [decoded] |} in
            let st1 := set_invokeTransfers (insert id transfer') st in
            if bool_decide (tr_nextIndex transfer' = tr_chunkCount transfer') then
              if bool_decide (tr_bytesReceived transfer' ≠ tr_totalBytes transfer')
              then mismatch st1
              else
                let digest := toLowerCase (sha256_hex rt (tr_hash transfer')) in
                if bool_decide (digest ≠ tr_sha256 transfer') then
                  (resolveInvokeError id nodeId (invalid_request "hash mismatch") st1,
                   TransferFail HashMismatch "hash mismatch")
                else
                  let payloadJSON :=
                    utf8_decode rt
                      (Buffer_concat (tr_chunks transfer') (tr_totalBytes transfer')) in
                  (fst (handleInvokeResult
                          {| rp_id := id; rp_nodeId := nodeId; rp_ok := true;
                             rp_payload := None; rp_payloadJSON := Some payloadJSON;
                             rp_error := None |}
                          st1),
                   TransferOk)
            else (st1, TransferOk)
  end.

(** *** abortInvokeResultTransfer *)

Record AbortParams := {
  ap_id : string;
  ap_nodeId : string;
  ap_error : option ErrorShape
}.

Definition abortInvokeResultTransfer (params : AbortParams) (st : State)
    : State * bool :=
  let orphan :=
    (match invokeTransfers st !! ap_id params with
     | Some transfer =>
         if bool_decide (tr_nodeId transfer = ap_nodeId params)
         then clearInvokeTransfer (ap_id params) st
         else st
     | None => st
     end, false) in
  match pendingInvokes st !! ap_id params with
  | None => orphan
  | Some pending =>
      if bool_decide (pi_nodeId pending ≠ ap_nodeId params) then orphan
      else
        (fst (handleInvokeResult
                {| rp_id := ap_id params; rp_nodeId := ap_nodeId params;
                   rp_ok := false; rp_payload := None; rp_payloadJSON := None;
                   rp_error :=
                     Some (default
                             {| err_code := Some "UNAVAILABLE";
                                err_message := Some "node invoke aborted" |}
                             (ap_error params)) |}
                st),
         true)
  end.

(** *** sendEvent *)

(** [socket.send] inside [try]/[catch]: [sendOk] tells whether it
    returned. *)
Definition sendEventInternal (node : NodeSession) (event : string)
    (payload : JsVal) (sendOk : bool) : bool :=
  sendOk.

Definition sendEventToSession (node : NodeSession) (event : string)
    (payload : JsVal) (sendOk : bool) : bool :=
  sendEventInternal node event payload sendOk.

Definition sendEvent (nodeId event : string) (payload : JsVal) (sendOk : bool)
    (st : State) : bool :=
  match nodesById st !! nodeId with
  | None => false
  | Some node => sendEventToSession node event payload sendOk
  end.

(** *** Runs of the registry *)

(** One entry per way the outside world drives the registry: the public
    methods, and the firing of an armed timeout. *)
Inductive Op :=
| OpRegister (client : GatewayWsClient) (remoteIp : option string) (now : Z)
| OpUnregister (conn : string)
| OpInvoke (params : InvokeParams) (requestId : string) (sendOk : bool)
| OpTimeout (call : nat)
| OpResult (params : ResultParams)
| OpStart (params : StartParams)
| OpChunk (params : ChunkParams)
| OpAbort (params : AbortParams).

Definition step (rt : NodeRuntime) (st : State) (op : Op) : State :=
  match op with
  | OpRegister client remoteIp now => fst (register client remoteIp now st)
  | OpUnregister conn => fst (unregister conn st)
  | OpInvoke params requestId sendOk => fst (invoke params requestId sendOk st)
  | OpTimeout call => fireTimer call st
  | OpResult params => fst (handleInvokeResult params st)
  | OpStart params => fst (startInvokeResultTransfer params st)
  | OpChunk params => fst (handleInvokeResultChunk rt params st)
  | OpAbort params => fst (abortInvokeResultTransfer params st)
  end.

Definition run (rt : NodeRuntime) (ops : list Op) (st : State) : State :=
  foldl (step rt) st ops.

End NodeRegistry.

(** ** The exec-host client *)

Module ExecHost.

(** A JavaScript string: its UTF-16 code units. *)
Definition code_unit : Type := N.
Definition jsstring : Type := list code_unit.

(** The code unit of ["\n"]. *)
Definition LF : code_unit := 10%N.

Inductive ExecHostResponse :=
| ExecOk (payload : JsVal)          (* { ok: true, payload } *)
| ExecError (error : JsVal)         (* { ok: false, error } *)
| ExecPending (payload : JsVal).    (* { ok: false, pending: true, payload } *)

Definition approval_timeout : ExecHostResponse :=
  ExecPending (JObj [("reason", JStr "approval-timeout")]).

(** The two callbacks handed to [setTimeout]: the one installed before
    connecting, and the one installed on [exec-pending]. *)
Inductive TimerCallback :=
| BaseTimeout
| ExtendedTimeout.

Record Timer := {
  tm_callback : TimerCallback;
  tm_delay : JsVal
}.

(** What the caller passes, as far as the reply handling reads it. *)
Record Params := {
  socketPath : string;
  token : string;
  timeoutMs : option Z;       (* None: null or undefined *)
  onPending : bool            (* whether a callback was given *)
}.

(** The variables of the promise executor ([settled], [buffer],
    [pendingReceived], [timer]) and what the runtime holds for it: the armed
    timeouts, whether the socket was destroyed, the values [resolve] was
    called with and the arguments [onPending] was called with. *)
Record State := {
  settled : bool;
  buffer : jsstring;
  pendingReceived : bool;
  timer : option nat;
  armed : gmap nat Timer;
  nextTimer : nat;
  destroyed : bool;
  resolved : list (option ExecHostResponse);
  pendingCalls : list JsVal
}.

Definition pendingTimeoutMs : Z := 5 * 60 * 1000.

Definition clearTimeout (st : State) : State :=
  {| settled := settled st; buffer := buffer st;
     pendingReceived := pendingReceived st; timer := timer st;
     armed := match timer st with
              | Some h => delete h (armed st)
              | None => armed st
              end;
     nextTimer := nextTimer st; destroyed := destroyed st;
     resolved := resolved st; pendingCalls := pendingCalls st |}.

(** [timer = setTimeout(callback, delay)] *)
Definition setTimeout (callback : TimerCallback) (delay : JsVal) (st : State) : State :=
  {| settled := settled st; buffer := buffer st;
     pendingReceived := pendingReceived st; timer := Some (nextTimer st);
     armed := <[nextTimer st := {| tm_callback := callback; tm_delay := delay |}]>
                (armed st);
     nextTimer := S (nextTimer st); destroyed := destroyed st;
     resolved := resolved st; pendingCalls := pendingCalls st |}.

Definition finish (value : option ExecHostResponse) (st : State) : State :=
  if settled st then st
  else
    let st1 := clearTimeout st in
    {| settled := true; buffer := buffer st1;
       pendingReceived := pendingReceived st1; timer := timer st1;
       armed := armed st1; nextTimer := nextTimer st1;
       destroyed := true;
       resolved := resolved st1 ++ [value];
       pendingCalls := pendingCalls st1 |}.

Definition set_pendingReceived (b : bool) (st : State) : State :=
  {| settled := settled st; buffer := buffer st;
     pendingReceived := b; timer := timer st;
     armed := armed st; nextTimer := nextTimer st; destroyed := destroyed st;
     resolved := resolved st; pendingCalls := pendingCalls st |}.

Definition set_buffer (s : jsstring) (st : State) : State :=
  {| settled := settled st; buffer := s;
     pendingReceived := pendingReceived st; timer := timer st;
     armed := armed st; nextTimer := nextTimer st; destroyed := destroyed st;
     resolved := resolved st; pendingCalls := pendingCalls st |}.

Definition call_onPending (payload : JsVal) (st : State) : State :=
  {| settled := settled st; buffer := buffer st;
     pendingReceived := pendingReceived st; timer := timer st;
     armed := armed st; nextTimer := nextTimer st; destroyed := destroyed st;
     resolved := resolved st; pendingCalls := pendingCalls st ++ [payload] |}.

(** The call up to the point where it waits for events: [None] when it
    returns [null] at once.  The request line written to the socket (JSON,
    nonce, timestamp and HMAC) plays no part in the handling of the
    replies and is left out. *)
Definition requestExecHostViaSocket (params : Params) : option State :=
  if (String.eqb (socketPath params) "" || String.eqb (token params) "")%bool
  then None
  else
    let baseTimeoutMs := default 20000 (timeoutMs params) in
    Some (setTimeout BaseTimeout (JNum baseTimeoutMs)
            {| settled := false; buffer := []; pendingReceived := false;
               timer := None; armed := ∅; nextTimer := 0%nat;
               destroyed := false; resolved := []; pendingCalls := [] |}).

(** A timeout firing. *)
Definition onTimer (h : nat) (st : State) : State :=
  match armed st !! h with
  | None => st
  | Some t =>
      let st1 :=
        {| settled := settled st; buffer := buffer st;
           pendingReceived := pendingReceived st; timer := timer st;
           armed := delete h (armed st);
           nextTimer := nextTimer st; destroyed := destroyed st;
           resolved := resolved st; pendingCalls := pendingCalls st |} in
      match tm_callback t with
      | BaseTimeout =>
          if pendingReceived st1 then finish (Some approval_timeout) st1
          else finish None st1
      | ExtendedTimeout => finish (Some approval_timeout) st1
      end
  end.

(** [client.on("error", ...)] *)
Definition onError (st : State) : State := finish None st.

Definition is_str (s : string) (v : JsVal) : bool :=
  match v with
  | JStr s' => String.eqb s' s
  | _ => false
  end.

Definition is_bool (b : bool) (v : JsVal) : bool :=
  match v with
  | JBool b' => Bool.eqb b' b
  | _ => false
  end.

(** The body of the [try] block for one parsed line.  The boolean tells
    whether the data handler returns ([true]) or goes on with the next line
    ([false]). *)
Definition onMessage (params : Params) (msg : JsVal) (st : State) : State * bool :=
  if is_str "exec-pending" (js_get "type" msg) then
    let st1 := set_pendingReceived true st in
    let pendingPayload := js_get "payload" msg in
    let st2 := clearTimeout st1 in
    let extendedTimeout :=
      js_nullish (js_get "timeoutMs" pendingPayload) (JNum pendingTimeoutMs) in
    let st3 := setTimeout ExtendedTimeout extendedTimeout st2 in
    let st4 := if onPending params then call_onPending pendingPayload st3 else st3 in
    (st4, false)
  else if is_str "exec-res" (js_get "type" msg) then
    let st1 := clearTimeout st in
    if (is_bool true (js_get "ok" msg) && truthy (js_get "payload" msg))%bool then
      (finish (Some (ExecOk (js_get "payload" msg))) st1, true)
    else if (is_bool false (js_get "ok" msg) && truthy (js_get "error" msg))%bool then
      (finish (Some (ExecError (js_get "error" msg))) st1, true)
    else (finish None st1, true)
  else (st, false).

(** The string methods of the line splitter. *)

(** [s.indexOf("\n")]: [None] for -1. *)
Fixpoint indexOf_newline (s : jsstring) : option nat :=
  match s with
  | [] => None
  | c :: rest =>
      if N.eqb c LF then Some 0%nat
      else S <$> indexOf_newline rest
  end.

(** What [String.prototype.trim] strips: the white space and the line
    terminators of ECMAScript, that is TAB, LF, VT, FF, CR, SPACE, U+00A0,
    U+1680, U+2000 to U+200A, U+2028, U+2029, U+202F, U+205F, U+3000 and
    U+FEFF. *)
Definition is_space (c : code_unit) : bool :=
  ((9 <=? c) && (c <=? 13)
   || (c =? 32) || (c =? 160) || (c =? 5760)
   || (8192 <=? c) && (c <=? 8202)
   || (c =? 8232) || (c =? 8233) || (c =? 8239) || (c =? 8287)
   || (c =? 12288) || (c =? 65279))%N%bool.

Fixpoint trimStart (s : jsstring) : jsstring :=
  match s with
  | c :: rest => if is_space c then trimStart rest else s
  | [] => []
  end.

Fixpoint trimEnd (s : jsstring) : jsstring :=
  match s with
  | [] => []
  | c :: rest =>
      match trimEnd rest with
      | [] => if is_space c then [] else [c]
      | rest' => c :: rest'
      end
  end.

Definition trim (s : jsstring) : jsstring := trimEnd (trimStart s).

Section DataHandler.

(** [data.toString("utf8")]: the decoding of the bytes of one data event,
    on their own (a character cut by the end of the event is decoded to
    U+FFFD on either side). *)
Variable utf8_decode : list byte → jsstring.

(** [JSON.parse]: [None] when it throws. *)
Variable JSON_parse : jsstring → option JsVal.

(** The [while (idx !== -1)] loop; [buffer.slice(0, idx)] is [take idx]
    and [buffer.slice(idx + 1)] is [drop (S idx)].  Every round removes at
    least one code unit from [buffer], so [fuel] above its length is never
    used up. *)
Fixpoint processLines (fuel : nat) (params : Params) (st : State) : State :=
  match fuel with
  | O => st
  | S fuel' =>
      match indexOf_newline (buffer st) with
      | None => st
      | Some idx =>
          let line := trim (take idx (buffer st)) in
          let st1 := set_buffer (drop (S idx) (buffer st)) st in
          match line with
          | [] => processLines fuel' params st1          (* !line *)
          | _ :: _ =>
              match JSON_parse line with
              | None => processLines fuel' params st1
              | Some msg =>
                  let '(st2, returns) := onMessage params msg st1 in
                  if returns then st2 else processLines fuel' params st2
              end
          end
      end
  end.

(** [client.on("data", ...)] *)
Definition onData (params : Params) (data : list byte) (st : State) : State :=
  let st1 := set_buffer (buffer st ++ utf8_decode data) st in
  processLines (S (length (buffer st1))) params st1.

End DataHandler.

End ExecHost.
(** ** Sample inputs, after the scenarios of [node-registry.test.ts] *)

Module Scenario.
Import NodeRegistry.

(** Stand-ins for the library functions, enough to run the registry on
    sample inputs: the data string is taken as its own bytes, and the
    digest of a buffer is its text read backwards. *)
Definition toy_runtime : NodeRuntime :=
  {| base64_decode := String.list_byte_of_string;
     sha256_hex := λ bs, String.string_of_list_byte (rev bs);
     utf8_decode := String.string_of_list_byte |}.

Definition node_client (conn nodeId : string) : GatewayWsClient :=
  {| connId := conn;
     connect :=
       {| device_id := None; client_id := nodeId;
          client_displayName := None; client_platform := Some "node";
          client_version := Some "1.0.0"; client_deviceFamily := None;
          client_modelIdentifier := None; connect_coreVersion := None;
          connect_uiVersion := None; connect_caps := None;
          connect_commands := None; connect_permissions := None;
          connect_pathEnv := None |} |}.

Definition register_node (conn nodeId : string) : Op :=
  OpRegister (node_client conn nodeId) (Some "127.0.0.1") 0.

Definition invoke_run (nodeId requestId : string) : Op :=
  OpInvoke
    {| iv_nodeId := nodeId; iv_command := "system.run"; iv_params := ArgMissing;
       iv_timeoutMs := Some 5000; iv_idempotencyKey := None |}
    requestId true.

Definition start_transfer (id nodeId : string) (totalBytes chunkCount : Z)
    (sha256 : string) : StartParams :=
  {| sp_id := id; sp_nodeId := nodeId; sp_totalBytes := totalBytes;
     sp_chunkBytes := 4; sp_chunkCount := chunkCount; sp_sha256 := Some sha256;
     sp_maxInvokeResultBytes := 1024 * 1024;
     sp_maxInflightBytes := 64 * 1024 * 1024 |}.

Definition chunk (id nodeId : string) (index : Z) (data : string) : ChunkParams :=
  {| cp_id := id; cp_nodeId := nodeId; cp_index := index; cp_data := data;
     cp_bytes := Z.of_nat (String.length data) |}.

(** One node, one invoke waiting for its reply. *)
Definition invoking : State :=
  run toy_runtime
    [register_node "conn-1" "node-1"; invoke_run "node-1" "req-1"]
    empty_registry.

(** The same, with a transfer of six bytes in two chunks under way. *)
Definition transferring : State :=
  run toy_runtime
    [register_node "conn-1" "node-1"; invoke_run "node-1" "req-1";
     OpStart (start_transfer "req-1" "node-1" 6 2 "FEDCBA")]
    empty_registry.

(** The transfer after its first chunk, ["abcd"]. *)
Definition receiving : State :=
  run toy_runtime
    [register_node "conn-1" "node-1"; invoke_run "node-1" "req-1";
     OpStart (start_transfer "req-1" "node-1" 6 2 "FEDCBA");
     OpChunk (chunk "req-1" "node-1" 0 "abcd")]
    empty_registry.

(** A transfer announced with no chunks at all. *)
Definition stuck : State :=
  run toy_runtime
    [register_node "conn-1" "node-1"; invoke_run "node-1" "req-1";
     OpStart (start_transfer "req-1" "node-1" 6 0 "FEDCBA")]
    empty_registry.

End Scenario.

(** ** Properties of the registry, as predicates on its states *)

Module RegistrySpec.
Import NodeRegistry.

Definition indexes (st : State) : gmap string NodeSession * gmap string string :=
  (nodesById st, nodesByConn st).

Definition nodeId_of (client : GatewayWsClient) : string :=
  default (client_id (connect client)) (device_id (connect client)).

(** Agreement of the indexes, as the specification words it. *)
Definition sessions_indexed (st : State) : Prop :=
  ∀ n S, nodesById st !! n = Some S →
    nodesById st !! ns_nodeId S = Some S
    ∧ nodesByConn st !! ns_connId S = Some (ns_nodeId S).

Definition live_conns (st : State) : gmap string string :=
  filter (λ cn, is_Some (nodesById st !! cn.2)) (nodesByConn st).

Definition sizes_agree (st : State) : Prop :=
  size (nodesById st) = size (live_conns st).

Definition indexes_agree (st : State) : Prop :=
  sessions_indexed st ∧ sizes_agree st.

(** A [register] that neither replaces a live session nor reuses a
    connection id for another node: its connection id and node id are both
    unindexed, or the connection is registered again for the same node. *)
Definition plain_register (st : State) (client : GatewayWsClient) : bool :=
  bool_decide
    ((nodesByConn st !! connId client = None
      ∧ nodesById st !! nodeId_of client = None)
     ∨ nodesByConn st !! connId client = Some (nodeId_of client)).

Definition plain_op (st : State) (op : Op) : bool :=
  match op with
  | OpRegister client _ _ => plain_register st client
  | _ => true
  end.

Fixpoint plain_run (rt : NodeRuntime) (st : State) (ops : list Op) : bool :=
  match ops with
  | [] => true
  | op :: rest => plain_op st op && plain_run rt (step rt st op) rest
  end.

(** The invariant behind the agreement: the indexes are inverse to each
    other. *)
Record paired (st : State) : Prop := {
  paired_by_id : ∀ n S, nodesById st !! n = Some S →
    ns_nodeId S = n ∧ nodesByConn st !! ns_connId S = Some n;
  paired_by_conn : ∀ c n, nodesByConn st !! c = Some n →
    ∃ S, nodesById st !! n = Some S ∧ ns_connId S = c;
  paired_size : size (nodesById st) = size (nodesByConn st)
}.


(** Request ids drawn from [randomUUID()] by the invokes of a run. *)
Definition drawn (ops : list Op) : list string :=
  omap (λ op, match op with
              | OpInvoke _ requestId _ => Some requestId
              | _ => None
              end) ops.

(** The states the registry can be in: those reached from the empty
    registry by a run whose invokes draw pairwise distinct request ids, as
    [randomUUID()] does.  (An invoke that returns before drawing an id
    carries one all the same; it is not used.) *)
Definition reachable (rt : NodeRuntime) (st : State) : Prop :=
  ∃ ops, NoDup (drawn ops) ∧ st = run rt ops empty_registry.

(** The request id of an invoke is not in use. *)
Definition fresh_op (st : State) (op : Op) : Prop :=
  match op with
  | OpInvoke _ requestId _ => pendingInvokes st !! requestId = None
  | _ => True
  end.

(** How the three tables, the timers and the promises hang together. *)
Record consistent (st : State) : Prop := {
  (* a transfer belongs to a pending invoke of the same node *)
  transfer_owned : ∀ id t, invokeTransfers st !! id = Some t →
    ∃ p, pendingInvokes st !! id = Some p ∧ pi_nodeId p = tr_nodeId t;
  (* the timer of a pending invoke is armed, for that request id *)
  pending_timer : ∀ id p, pendingInvokes st !! id = Some p →
    ∃ t, timers st !! pi_call p = Some t ∧ tm_requestId t = id;
  (* an armed timer is the timer of a pending invoke *)
  timer_pending : ∀ h t, timers st !! h = Some t →
    ∃ p, pendingInvokes st !! tm_requestId t = Some p ∧ pi_call p = h;
  (* the promise of a pending invoke is not settled *)
  pending_unsettled : ∀ id p, pendingInvokes st !! id = Some p →
    promises st !! pi_call p = None;
  (* handles are allocated in order *)
  timer_allocated : ∀ h, is_Some (timers st !! h) → (h < nextCall st)%nat;
  promise_allocated : ∀ h, is_Some (promises st !! h) → (h < nextCall st)%nat;
  (* the counters of a transfer describe the chunks it holds *)
  transfer_counts : ∀ id t, invokeTransfers st !! id = Some t →
    tr_nextIndex t = Z.of_nat (length (tr_chunks t))
    ∧ tr_hash t = concat (tr_chunks t)
    ∧ tr_bytesReceived t = Z.of_nat (length (concat (tr_chunks t)));
  (* the digest a transfer expects is kept in lower case *)
  transfer_sha_lower : ∀ id t, invokeTransfers st !! id = Some t →
    ∃ sha256, tr_sha256 t = toLowerCase sha256
}.

(** The sum of [totalBytes] over the active transfers. *)
Definition sum_totals (m : gmap string PendingInvokeTransfer) : Z :=
  map_fold (λ _ t acc, tr_totalBytes t + acc) 0 m.

Definition active_bytes (st : State) : Z := sum_totals (invokeTransfers st).

(** The counter of bytes in flight stands [k] above the sum over the
    active transfers.  ([k] is what the start frames whose call threw have
    left behind; it is 0 when there was none.) *)
Record leaking (k : Z) (st : State) : Prop := {
  leak_nonneg : 0 ≤ k;
  totals_nonneg : ∀ id t, invokeTransfers st !! id = Some t → 0 ≤ tr_totalBytes t;
  inflight_is_sum : inflightBytes st = active_bytes st + k
}.

Definition accounted (st : State) : Prop := leaking 0 st.

(** A start frame announcing a byte count that is not negative. *)
Definition nonneg_op (op : Op) : bool :=
  match op with
  | OpStart params => bool_decide (0 ≤ sp_totalBytes params)
  | _ => true
  end.

(** A start frame as the gateway is meant to pass it: [sha256] is a
    string, [totalBytes] is not negative, and the in-flight cap is an
    integer a JavaScript number holds exactly, so that every sum the method
    stores is exact. *)
Definition typed_op (op : Op) : bool :=
  match op with
  | OpStart params =>
      bool_decide (is_Some (sp_sha256 params))
      && bool_decide (0 ≤ sp_totalBytes params)
      && bool_decide (sp_maxInflightBytes params ≤ MAX_SAFE_INTEGER)
  | _ => true
  end.

(** The message of the error [unregister] rejects a pending invoke with. *)
Definition disconnect_message (p : PendingInvoke) : string :=
  "node disconnected (" +:+ pi_command p +:+ ")".

(** The pending invokes the first loop removes. *)
Definition leaving (nodeId : string) (l : list (string * PendingInvoke))
    : list (string * PendingInvoke) :=
  filter (λ e, pi_nodeId e.2 = nodeId) l.

Definition leaving_transfers (nodeId : string)
    (l : list (string * PendingInvokeTransfer))
    : list (string * PendingInvokeTransfer) :=
  filter (λ e, tr_nodeId e.2 = nodeId) l.

(** Whether the first loop of [unregister], run for [nodeId] in state
    [st], removes the invoke whose call handle is [h]. *)
Definition leaves (nodeId : string) (st : State) (h : nat) : Prop :=
  ∃ id p, pendingInvokes st !! id = Some p ∧ pi_nodeId p = nodeId ∧ pi_call p = h.

(** [st'] has no pending invoke that [st] has not. *)
Definition pending_shrinks (st st' : State) : Prop :=
  ∀ id p, pendingInvokes st' !! id = Some p → pendingInvokes st !! id = Some p.

(** A transfer after one more chunk was taken in. *)
Definition advance (t : PendingInvokeTransfer) (decoded : list byte)
    : PendingInvokeTransfer :=
  {| tr_nodeId := tr_nodeId t;
     tr_totalBytes := tr_totalBytes t;
     tr_chunkBytes := tr_chunkBytes t;
     tr_chunkCount := tr_chunkCount t;
     tr_nextIndex := tr_nextIndex t + 1;
     tr_bytesReceived := tr_bytesReceived t + Z.of_nat (length decoded);
     tr_sha256 := tr_sha256 t;
     tr_hash := tr_hash t ++ decoded;
     tr_chunks := tr_chunks t ++ [decoded] |}.

Definition is_ok (r : InvokeTransferResult) : bool :=
  match r with
  | TransferOk => true
  | TransferFail _ _ | TransferThrows => false
  end.

(** [op] is a chunk frame for [id] that the handler accepts in [st]. *)
Definition accepts (rt : NodeRuntime) (st : State) (op : Op) (id : string) : bool :=
  match op with
  | OpChunk params =>
      bool_decide (cp_id params = id)
      && is_ok (handleInvokeResultChunk rt params st).2
  | _ => false
  end.





(** The operations through which the invoke [id] of state [st], with
    pending entry [p], can come to an end: the firing of its timer, the
    removal of its node's session, and the frames of the node that name
    it. *)
Definition targets (st : State) (id : string) (p : PendingInvoke) (op : Op) : Prop :=
  match op with
  | OpRegister _ _ _ => False
  | OpInvoke _ _ _ => False
  | OpUnregister conn => nodesByConn st !! conn = Some (pi_nodeId p)
  | OpTimeout call => call = pi_call p
  | OpResult params => rp_id params = id ∧ rp_nodeId params = pi_nodeId p
  | OpStart params => sp_id params = id ∧ sp_nodeId params = pi_nodeId p
  | OpChunk params => cp_id params = id ∧ cp_nodeId params = pi_nodeId p
  | OpAbort params => ap_id params = id ∧ ap_nodeId params = pi_nodeId p
  end.

(** How one operation changes the transfer of [id]. *)
Inductive transfer_change (rt : NodeRuntime) (st : State) (op : Op) (id : string)
    (st' : State) : Prop :=
| tc_same :
    invokeTransfers st' !! id = invokeTransfers st !! id →
    accepts rt st op id = false →
    transfer_change rt st op id st'
| tc_created t' :
    invokeTransfers st !! id = None →
    invokeTransfers st' !! id = Some t' →
    tr_nextIndex t' = 0 →
    accepts rt st op id = false →
    transfer_change rt st op id st'
| tc_advanced params t :
    op = OpChunk params →
    cp_id params = id →
    invokeTransfers st !! id = Some t →
    invokeTransfers st' !! id
      = Some (advance t (base64_decode rt (cp_data params))) →
    accepts rt st op id = true →
    transfer_change rt st op id st'.

(** After a step, the invoke [id] is still waiting for its result... *)
Definition still_pending (st' : State) (id : string) (p : PendingInvoke) : Prop :=
  pendingInvokes st' !! id = Some p ∧ promises st' !! pi_call p = None.

(** ... or it has come to an end: its entry and its transfer are gone and
    its promise is settled. *)
Definition ended (st' : State) (id : string) (p : PendingInvoke) : Prop :=
  pendingInvokes st' !! id = None
  ∧ invokeTransfers st' !! id = None
  ∧ is_Some (promises st' !! pi_call p).

(** Every session is filed under its own node id. *)
Definition keyed (st : State) : Prop :=
  ∀ n S, nodesById st !! n = Some S → ns_nodeId S = n.

(** Going from [st] to [st'], a promise keeps its state unless it is the
    promise of an invoke pending in [st] whose entry is gone in [st']. *)
Definition settles_only_pending (st st' : State) : Prop :=
  ∀ h, promises st' !! h = promises st !! h
       ∨ ∃ id p, pendingInvokes st !! id = Some p ∧ pi_call p = h
                 ∧ pendingInvokes st' !! id = None.


(** A start frame whose in-flight cap is at most [M]. *)
Definition within_limit (M : Z) (op : Op) : bool :=
  match op with
  | OpStart params => bool_decide (sp_maxInflightBytes params ≤ M)
  | _ => true
  end.

(** A transfer that holds no chunk yet, or whose chunks all passed the
    tests the chunk handler makes: the index of the last one was not
    [>= chunkCount], the bytes held are not [> totalBytes], and [nextIndex]
    has not come to equal [chunkCount].  (Stated through the code's own
    comparisons, which read the same for a [chunkCount] or [totalBytes]
    that is no integer; for integers it says [nextIndex < chunkCount] and
    [bytesReceived <= totalBytes].) *)
Definition in_progress (t : PendingInvokeTransfer) : Prop :=
  tr_chunks t = []
  ∨ (¬ (tr_nextIndex t - 1 >= tr_chunkCount t)
     ∧ tr_nextIndex t ≠ tr_chunkCount t
     ∧ ¬ (tr_bytesReceived t > tr_totalBytes t)).

Definition transfers_in_progress (st : State) : Prop :=
  ∀ id t, invokeTransfers st !! id = Some t → in_progress t.

End RegistrySpec.

(** ** Properties of the exec-host client, as predicates on its states *)

Module ExecSpec.
Import ExecHost.

(** What can happen to a waiting client. *)
Inductive Event :=
| EvData (data : list byte)
| EvTimer (h : nat)
| EvError.

Definition handle (utf8_decode : list byte → jsstring)
    (JSON_parse : jsstring → option JsVal) (params : Params)
    (st : State) (ev : Event) : State :=
  match ev with
  | EvData data => onData utf8_decode JSON_parse params data st
  | EvTimer h => onTimer h st
  | EvError => onError st
  end.

(** The states of a client: nothing is resolved before it settles, only
    the timeout held in [timer] can be armed, and its handle is one that was
    handed out. *)
Record well_formed (st : State) : Prop := {
  unsettled_unresolved : settled st = false → resolved st = [];
  one_timer : ∀ h, is_Some (armed st !! h) → timer st = Some h;
  timer_handed_out : ∀ h, timer st = Some h → (h < nextTimer st)%nat
}.

(** The frames of the exec-host protocol. *)
Definition exec_pending (payload : JsVal) : JsVal :=
  JObj [("type", JStr "exec-pending"); ("payload", payload)].

Definition exec_res (fields : list (string * JsVal)) : JsVal :=
  JObj (("type", JStr "exec-res") :: fields).

(** Sample inputs: a caller with a 100 ms base timeout and an [onPending]
    callback, a decoder for ASCII text (one code unit per byte) and a
    parser that knows three lines. *)
Definition sample_params : Params :=
  {| socketPath := "/tmp/exec.sock"; token := "secret";
     timeoutMs := Some 100; onPending := true |}.

Definition sample_pending : JsVal :=
  exec_pending (JObj [("reason", JStr "awaiting-approval"); ("timeoutMs", JNum 400)]).

Definition sample_result : JsVal :=
  exec_res [("ok", JBool true); ("payload", JObj [("exitCode", JNum 0)])].

Definition ascii_decode (data : list byte) : jsstring :=
  (λ b, Byte.to_N b) <$> data.

(** The bytes of an ASCII literal, and its code units. *)
Definition bytes (s : string) : list byte := String.list_byte_of_string s.

Definition units (s : string) : jsstring := ascii_decode (bytes s).

(** The bytes of a line: the text and a newline. *)
Definition line_of (s : string) : list byte := bytes s ++ [x0a].

Definition sample_parse (line : jsstring) : option JsVal :=
  if bool_decide (line = units "pending") then Some sample_pending
  else if bool_decide (line = units "result") then Some sample_result
  else if bool_decide (line = units "partial") then Some (exec_res [("ok", JBool true)])
  else None.

(** The client right after it sent its request. *)
Definition waiting : State :=
  default
    {| settled := true; buffer := []; pendingReceived := false; timer := None;
       armed := ∅; nextTimer := 0%nat; destroyed := true; resolved := [];
       pendingCalls := [] |}
    (requestExecHostViaSocket sample_params).

(** The client after a first [exec-pending] frame. *)
Definition approving : State :=
  handle ascii_decode sample_parse sample_params waiting (EvData (line_of "pending")).

(** The caller's promise is resolved exactly when the client is settled,
    and then with one value; the socket is destroyed at the same time. *)
Definition resolved_once (st : State) : Prop :=
  if settled st then ∃ value, resolved st = [value] ∧ destroyed st = true
  else resolved st = [] ∧ destroyed st = false.

(** A client that is not settled has one timeout armed, the one held in
    [timer]: the callback installed before connecting, with the base
    delay, until an [exec-pending] frame comes in, and the callback
    installed by such a frame afterwards. *)
Definition watched (params : Params) (st : State) : Prop :=
  settled st = false →
  ∃ h t, timer st = Some h ∧ armed st = {[ h := t ]}
         ∧ tm_callback t
           = (if pendingReceived st then ExtendedTimeout else BaseTimeout)
         ∧ (pendingReceived st = false →
            tm_delay t = JNum (default 20000 (timeoutMs params))).

End ExecSpec.
(** * Properties of the node registry *)

Module NodeRegistryProofs.
Import NodeRegistry RegistrySpec.

(** ** Which parts of the state each operation leaves alone *)

Lemma clearInvokeTransfer_frame id st :
  nodesById (clearInvokeTransfer id st) = nodesById st
  ∧ nodesByConn (clearInvokeTransfer id st) = nodesByConn st
  ∧ pendingInvokes (clearInvokeTransfer id st) = pendingInvokes st
  ∧ timers (clearInvokeTransfer id st) = timers st
  ∧ promises (clearInvokeTransfer id st) = promises st
  ∧ nextCall (clearInvokeTransfer id st) = nextCall st.
Proof. unfold clearInvokeTransfer. by destruct (invokeTransfers st !! id). Qed.

Lemma clearInvokeTransfer_transfers id st :
  invokeTransfers (clearInvokeTransfer id st) = delete id (invokeTransfers st).
Proof.
  unfold clearInvokeTransfer.
  destruct (invokeTransfers st !! id) eqn:E; simpl; [done|].
  symmetry. by apply delete_id.
Qed.

(** ** The two indexes of sessions *)

Lemma indexes_set_pendingInvokes f st : indexes (set_pendingInvokes f st) = indexes st.
Proof. done. Qed.
Lemma indexes_set_invokeTransfers f st : indexes (set_invokeTransfers f st) = indexes st.
Proof. done. Qed.
Lemma indexes_set_inflightBytes f st : indexes (set_inflightBytes f st) = indexes st.
Proof. done. Qed.
Lemma indexes_set_timers f st : indexes (set_timers f st) = indexes st.
Proof. done. Qed.
Lemma indexes_set_promises f st : indexes (set_promises f st) = indexes st.
Proof. done. Qed.
Lemma indexes_set_nextCall f st : indexes (set_nextCall f st) = indexes st.
Proof. done. Qed.

Lemma clearInvokeTransfer_indexes id st :
  indexes (clearInvokeTransfer id st) = indexes st.
Proof. unfold clearInvokeTransfer. by destruct (invokeTransfers st !! id). Qed.

Create Rewrite HintDb indexes.
#[local] Hint Rewrite indexes_set_pendingInvokes indexes_set_invokeTransfers
  indexes_set_inflightBytes indexes_set_timers indexes_set_promises
  indexes_set_nextCall clearInvokeTransfer_indexes : indexes.

Ltac frame_indexes :=
  unfold resolve, reject, clearTimeout; simpl;
  autorewrite with indexes; try done.

Lemma handleInvokeResult_indexes params st :
  indexes (handleInvokeResult params st).1 = indexes st.
Proof.
  unfold handleInvokeResult.
  destruct (pendingInvokes st !! rp_id params); [|done].
  case_bool_decide; frame_indexes.
Qed.

Lemma resolveInvokeError_indexes id nodeId err st :
  indexes (resolveInvokeError id nodeId err st) = indexes st.
Proof. apply handleInvokeResult_indexes. Qed.

#[local] Hint Rewrite handleInvokeResult_indexes resolveInvokeError_indexes : indexes.

Lemma foldl_disconnectPending_indexes nodeId l st :
  indexes (foldl (disconnectPending nodeId) st l) = indexes st.
Proof.
  revert st. induction l as [|[id p] l IH]; intros st; [done|].
  simpl. rewrite IH. case_bool_decide; frame_indexes.
Qed.

Lemma foldl_disconnectTransfer_indexes nodeId l st :
  indexes (foldl (disconnectTransfer nodeId) st l) = indexes st.
Proof.
  revert st. induction l as [|[id t] l IH]; intros st; [done|].
  simpl. rewrite IH. case_bool_decide; frame_indexes.
Qed.

Lemma fireTimer_indexes call st : indexes (fireTimer call st) = indexes st.
Proof. unfold fireTimer. destruct (timers st !! call); frame_indexes. Qed.

Lemma invoke_indexes params requestId sendOk st :
  indexes (invoke params requestId sendOk st).1 = indexes st.
Proof.
  unfold invoke. destruct (nodesById st !! iv_nodeId params); [|done].
  destruct (stringifies (iv_params params)); [|done].
  by destruct sendOk.
Qed.

Lemma startInvokeResultTransfer_indexes params st :
  indexes (startInvokeResultTransfer params st).1 = indexes st.
Proof.
  unfold startInvokeResultTransfer.
  destruct (pendingInvokes st !! sp_id params); [|done].
  repeat case_bool_decide; try destruct (sp_sha256 params); frame_indexes.
Qed.

Lemma handleInvokeResultChunk_indexes rt params st :
  indexes (handleInvokeResultChunk rt params st).1 = indexes st.
Proof.
  unfold handleInvokeResultChunk.
  destruct (invokeTransfers st !! cp_id params);
    repeat (case_bool_decide || case_match); frame_indexes.
Qed.

Lemma abortInvokeResultTransfer_indexes params st :
  indexes (abortInvokeResultTransfer params st).1 = indexes st.
Proof.
  unfold abortInvokeResultTransfer.
  repeat (case_bool_decide || case_match); frame_indexes.
Qed.

Lemma unregister_indexes conn st :
  indexes (unregister conn st).1 =
    match nodesByConn st !! conn with
    | Some nodeId =>
        if bool_decide (nodeId = "") then indexes st
        else (delete nodeId (nodesById st), delete conn (nodesByConn st))
    | None => indexes st
    end.
Proof.
  unfold unregister. destruct (nodesByConn st !! conn) as [nodeId|]; [|done].
  case_bool_decide; [done|]. simpl.
  by rewrite foldl_disconnectTransfer_indexes foldl_disconnectPending_indexes.
Qed.

Lemma register_indexes client remoteIp now st :
  indexes (register client remoteIp now st).1 =
    (<[nodeId_of client := (register client remoteIp now st).2]> (nodesById st),
     <[connId client := nodeId_of client]> (nodesByConn st)).
Proof. done. Qed.

Lemma register_session client remoteIp now st :
  ns_nodeId (register client remoteIp now st).2 = nodeId_of client
  ∧ ns_connId (register client remoteIp now st).2 = connId client.
Proof. done. Qed.

Lemma paired_indexes st st' : indexes st' = indexes st → paired st → paired st'.
Proof.
  unfold indexes. intros [= E1 E2] [H1 H2 H3].
  split; rewrite ?E1 ?E2; done.
Qed.

Lemma paired_empty : paired empty_registry.
Proof. split; simpl; intros *; rewrite ?lookup_empty; done. Qed.

Lemma paired_register client remoteIp now st :
  plain_register st client = true →
  paired st → paired (register client remoteIp now st).1.
Proof.
  intros Hplain%bool_decide_eq_true [H1 H2 H3].
  destruct (register_session client remoteIp now st) as [En Ec].
  assert (E1 : nodesById (register client remoteIp now st).1
               = <[nodeId_of client := (register client remoteIp now st).2]>
                   (nodesById st)) by done.
  assert (E2 : nodesByConn (register client remoteIp now st).1
               = <[connId client := nodeId_of client]> (nodesByConn st)) by done.
  set (S := (register client remoteIp now st).2) in *.
  set (st' := (register client remoteIp now st).1) in *.
  set (n := nodeId_of client) in *. set (c := connId client) in *.
  clearbody S st'.
  assert (Hother : ∀ n' S', n ≠ n' → nodesById st !! n' = Some S' → ns_connId S' ≠ c).
  { intros n' S' Hne HS' Heq. destruct (H1 _ _ HS') as [_ Hc]. rewrite Heq in Hc.
    destruct Hplain as [[Hc' _]|Hc']; congruence. }
  split; rewrite ?E1 ?E2.
  - intros n' S'. destruct (decide (n = n')) as [<-|Hne].
    + rewrite lookup_insert_eq. intros [= <-]. rewrite Ec lookup_insert_eq. done.
    + rewrite lookup_insert_ne; [done|]. intros HS'.
      destruct (H1 _ _ HS') as [Hn Hc]. split; [done|].
      rewrite lookup_insert_ne; [|done]. intros Heq. exact (Hother _ _ Hne HS' (eq_sym Heq)).
  - intros c' n'. destruct (decide (c = c')) as [<-|Hne].
    + rewrite lookup_insert_eq. intros [= <-]. exists S. by rewrite lookup_insert_eq.
    + rewrite lookup_insert_ne; [done|]. intros Hc'.
      destruct (H2 _ _ Hc') as (S' & HS' & HcS'). exists S'. split; [|done].
      rewrite lookup_insert_ne; [|done]. intros ->.
      destruct Hplain as [[_ Hn]|Hc]; [congruence|].
      destruct (H2 _ _ Hc) as (S0 & HS0 & HcS0). congruence.
  - destruct Hplain as [[Hc Hn]|Hc].
    + by rewrite !map_size_insert Hn Hc /= H3.
    + destruct (H2 _ _ Hc) as (S0 & HS0 & _).
      by rewrite !map_size_insert HS0 Hc.
Qed.

Lemma paired_unregister conn st : paired st → paired (unregister conn st).1.
Proof.
  intros Hp. pose proof (unregister_indexes conn st) as E.
  destruct (nodesByConn st !! conn) as [n|] eqn:Hc;
    [|exact (paired_indexes _ _ E Hp)].
  case_bool_decide; [exact (paired_indexes _ _ E Hp)|].
  destruct Hp as [H1 H2 H3]. unfold indexes in E. injection E as E1 E2.
  destruct (H2 _ _ Hc) as (S0 & HS0 & HcS0).
  split; rewrite ?E1 ?E2.
  - intros n' S' [Hne HS']%lookup_delete_Some.
    destruct (H1 _ _ HS') as [Hn Hc']. split; [done|].
    rewrite lookup_delete_ne; [|done]. intros Heq. congruence.
  - intros c' n' [Hne Hc']%lookup_delete_Some.
    destruct (H2 _ _ Hc') as (S' & HS' & HcS'). exists S'. split; [|done].
    rewrite lookup_delete_ne; [|done]. intros ->. congruence.
  - by rewrite !map_size_delete HS0 Hc /= H3.
Qed.

Lemma paired_step rt st op :
  plain_op st op = true → paired st → paired (step rt st op).
Proof.
  destruct op; simpl; intros Hplain Hp.
  - by apply paired_register.
  - by apply paired_unregister.
  - eapply paired_indexes; [apply invoke_indexes|done].
  - eapply paired_indexes; [apply fireTimer_indexes|done].
  - eapply paired_indexes; [apply handleInvokeResult_indexes|done].
  - eapply paired_indexes; [apply startInvokeResultTransfer_indexes|done].
  - eapply paired_indexes; [apply handleInvokeResultChunk_indexes|done].
  - eapply paired_indexes; [apply abortInvokeResultTransfer_indexes|done].
Qed.

Lemma paired_run rt ops st :
  plain_run rt st ops = true → paired st → paired (run rt ops st).
Proof.
  revert st. induction ops as [|op ops IH]; intros st; simpl; [done|].
  intros [Hop Hrest]%andb_prop Hp. apply IH; [done|]. by apply paired_step.
Qed.

Lemma paired_indexes_agree st : paired st → indexes_agree st.
Proof.
  intros [H1 H2 H3]. split.
  - intros n S HS. destruct (H1 _ _ HS) as [Hn Hc]. by rewrite Hn.
  - unfold sizes_agree, live_conns. rewrite map_filter_id; [|done].
    intros c n Hc. simpl. destruct (H2 _ _ Hc) as (S & -> & _). eauto.
Qed.

(** C3 (as amended): in every run from the empty registry in which no
    [register] replaces a live session or reuses a connection id for another
    node, the two indexes agree: every registered session [S] is the entry
    of [nodesById] at [S.nodeId] and [nodesByConn] sends [S.connId] to
    [S.nodeId], and [nodesById] has as many entries as there are connection
    ids whose image in [nodesByConn] is a registered node id. *)
Theorem indexes_agree_without_replacement rt ops :
  plain_run rt empty_registry ops = true →
  indexes_agree (run rt ops empty_registry).
Proof.
  intros Hplain. apply paired_indexes_agree, paired_run; [done|].
  apply paired_empty.
Qed.

Lemma indexes_agree_without_replacement_witness :
  indexes_agree
    (run Scenario.toy_runtime
       [Scenario.register_node "conn-1" "node-1";
        Scenario.register_node "conn-2" "node-2";
        OpUnregister "conn-1"]
       empty_registry).
Proof. apply indexes_agree_without_replacement. reflexivity. Defined.

(** C3 fails as written: a second [register] for a node id already
    registered leaves the first connection id in [nodesByConn], so two
    connection ids point at one session. *)
Lemma indexes_disagree_after_replacement :
  ¬ indexes_agree
      (run Scenario.toy_runtime
         [Scenario.register_node "conn-1" "node-1";
          Scenario.register_node "conn-2" "node-1"]
         empty_registry).
Proof.
  intros [_ Hsize]. unfold sizes_agree, live_conns in Hsize.
  vm_compute in Hsize. discriminate.
Qed.

(** ** Consistency of the tables *)

Lemma lookup_settle_ne call s ps h :
  h ≠ call → settle call s ps !! h = ps !! h.
Proof.
  intros Hne. unfold settle. destruct (ps !! call); [done|].
  rewrite lookup_insert_ne; [congruence|done].
Qed.

Lemma lookup_settle_fresh call s ps :
  ps !! call = None → settle call s ps !! call = Some s.
Proof. intros H. unfold settle. by rewrite H lookup_insert_eq. Qed.

Lemma lookup_settle_Some call s ps h x :
  ps !! h = Some x → settle call s ps !! h = Some x.
Proof.
  intros H. unfold settle. destruct (ps !! call) eqn:E; [done|].
  rewrite lookup_insert_ne; [congruence|done].
Qed.

Lemma settle_is_Some call s ps h :
  is_Some (settle call s ps !! h) → is_Some (ps !! h) ∨ h = call.
Proof.
  destruct (decide (h = call)) as [->|Hne]; [by right|].
  rewrite lookup_settle_ne; [done|]. by left.
Qed.

Lemma consistent_empty : consistent empty_registry.
Proof.
  split; simpl; intros *; rewrite ?lookup_empty; try done;
    by intros [? ?].
Qed.

(** Two pending invokes never share a call handle. *)
Lemma pending_call_inj st id1 id2 p1 p2 :
  consistent st →
  pendingInvokes st !! id1 = Some p1 →
  pendingInvokes st !! id2 = Some p2 →
  pi_call p1 = pi_call p2 → id1 = id2.
Proof.
  intros Hc H1 H2 Heq.
  destruct (pending_timer _ Hc _ _ H1) as (t1 & Ht1 & <-).
  destruct (pending_timer _ Hc _ _ H2) as (t2 & Ht2 & <-).
  congruence.
Qed.

(** Retiring one pending invoke: its timer goes, its entry goes, its
    transfer (if any) goes, its promise is settled. *)
Lemma consistent_retire st st' id p s :
  consistent st →
  pendingInvokes st !! id = Some p →
  timers st' = delete (pi_call p) (timers st) →
  pendingInvokes st' = delete id (pendingInvokes st) →
  invokeTransfers st' = delete id (invokeTransfers st) →
  promises st' = settle (pi_call p) s (promises st) →
  nextCall st' = nextCall st →
  consistent st'.
Proof.
  intros Hc Hp Et Ep Ex Er En.
  split; rewrite ?Et ?Ep ?Ex ?Er ?En.
  - intros id' t [Hne Ht]%lookup_delete_Some.
    destruct (transfer_owned _ Hc _ _ Ht) as (p' & Hp' & Hn).
    exists p'. split; [|done]. by rewrite lookup_delete_ne.
  - intros id' p' [Hne Hp']%lookup_delete_Some.
    destruct (pending_timer _ Hc _ _ Hp') as (t & Ht & Hid).
    exists t. split; [|done]. rewrite lookup_delete_ne; [|done].
    intros Heq. apply Hne. exact (pending_call_inj st _ _ _ _ Hc Hp Hp' Heq).
  - intros h t [Hne Ht]%lookup_delete_Some.
    destruct (timer_pending _ Hc _ _ Ht) as (p' & Hp' & Hh).
    exists p'. split; [|done]. rewrite lookup_delete_ne; [|done].
    intros Heq. rewrite -Heq in Hp'. congruence.
  - intros id' p' [Hne Hp']%lookup_delete_Some.
    rewrite lookup_settle_ne.
    + intros Heq. apply Hne. exact (pending_call_inj st _ _ _ _ Hc Hp Hp' (eq_sym Heq)).
    + exact (pending_unsettled _ Hc _ _ Hp').
  - intros h [t [_ Ht]%lookup_delete_Some]. apply (timer_allocated _ Hc). eauto.
  - intros h [Hh| ->]%settle_is_Some.
    + by apply (promise_allocated _ Hc).
    + destruct (pending_timer _ Hc _ _ Hp) as (t & Ht & _).
      apply (timer_allocated _ Hc). eauto.
  - intros id' t [Hne Ht]%lookup_delete_Some. exact (transfer_counts _ Hc _ _ Ht).
  - intros id' t [Hne Ht]%lookup_delete_Some. exact (transfer_sha_lower _ Hc _ _ Ht).
Qed.

Lemma consistent_handleInvokeResult params st :
  consistent st → consistent (handleInvokeResult params st).1.
Proof.
  intros Hc. unfold handleInvokeResult.
  destruct (pendingInvokes st !! rp_id params) as [p|] eqn:Hp; [|done].
  case_bool_decide; [done|]. simpl.
  eapply (consistent_retire st _ (rp_id params) p); try done.
  - simpl. by destruct (clearInvokeTransfer_frame (rp_id params)
      (set_pendingInvokes (delete (rp_id params)) (clearTimeout (pi_call p) st)))
      as (_ & _ & _ & -> & _).
  - simpl. by destruct (clearInvokeTransfer_frame (rp_id params)
      (set_pendingInvokes (delete (rp_id params)) (clearTimeout (pi_call p) st)))
      as (_ & _ & -> & _).
  - simpl. by rewrite clearInvokeTransfer_transfers.
  - simpl. by destruct (clearInvokeTransfer_frame (rp_id params)
      (set_pendingInvokes (delete (rp_id params)) (clearTimeout (pi_call p) st)))
      as (_ & _ & _ & _ & -> & _).
  - simpl. by destruct (clearInvokeTransfer_frame (rp_id params)
      (set_pendingInvokes (delete (rp_id params)) (clearTimeout (pi_call p) st)))
      as (_ & _ & _ & _ & _ & ->).
Qed.

Lemma clearInvokeTransfer_pendingInvokes id st :
  pendingInvokes (clearInvokeTransfer id st) = pendingInvokes st.
Proof. apply clearInvokeTransfer_frame. Qed.

Lemma clearInvokeTransfer_timers id st :
  timers (clearInvokeTransfer id st) = timers st.
Proof. apply clearInvokeTransfer_frame. Qed.

Lemma clearInvokeTransfer_promises id st :
  promises (clearInvokeTransfer id st) = promises st.
Proof. apply clearInvokeTransfer_frame. Qed.

Lemma clearInvokeTransfer_nextCall id st :
  nextCall (clearInvokeTransfer id st) = nextCall st.
Proof. apply clearInvokeTransfer_frame. Qed.

Create Rewrite HintDb tables.
#[local] Hint Rewrite clearInvokeTransfer_pendingInvokes
  clearInvokeTransfer_timers clearInvokeTransfer_promises
  clearInvokeTransfer_nextCall clearInvokeTransfer_transfers : tables.

Ltac tables := simpl; autorewrite with tables; simpl; try done.

Lemma consistent_fireTimer call st :
  consistent st → consistent (fireTimer call st).
Proof.
  intros Hc. unfold fireTimer.
  destruct (timers st !! call) as [t|] eqn:Ht; [|done].
  destruct (timer_pending _ Hc _ _ Ht) as (p & Hp & <-).
  eapply (consistent_retire st _ (tm_requestId t) p); try done; tables.
Qed.

Lemma consistent_clearInvokeTransfer id st :
  consistent st → consistent (clearInvokeTransfer id st).
Proof.
  intros Hc. split; autorewrite with tables.
  - intros id' t [Hne Ht]%lookup_delete_Some. exact (transfer_owned _ Hc _ _ Ht).
  - apply Hc.
  - apply Hc.
  - apply Hc.
  - apply Hc.
  - apply Hc.
  - intros id' t [Hne Ht]%lookup_delete_Some. exact (transfer_counts _ Hc _ _ Ht).
  - intros id' t [Hne Ht]%lookup_delete_Some. exact (transfer_sha_lower _ Hc _ _ Ht).
Qed.

Lemma consistent_invoke params requestId sendOk st :
  pendingInvokes st !! requestId = None →
  consistent st → consistent (invoke params requestId sendOk st).1.
Proof.
  intros Hfresh Hc. unfold invoke.
  destruct (nodesById st !! iv_nodeId params); [|done].
  destruct (stringifies (iv_params params)); [|done].
  destruct sendOk; [|done]. simpl.
  assert (Hnew : timers st !! nextCall st = None).
  { destruct (timers st !! nextCall st) eqn:E; [|done].
    pose proof (timer_allocated _ Hc (nextCall st) (mk_is_Some _ _ E)). lia. }
  split; simpl.
  - intros id t Ht. destruct (transfer_owned _ Hc _ _ Ht) as (p & Hp & Hn).
    exists p. split; [|done]. rewrite lookup_insert_ne; [congruence|done].
  - intros id p. destruct (decide (requestId = id)) as [<-|Hne].
    + rewrite lookup_insert_eq. intros [= <-]. simpl.
      rewrite lookup_insert_eq. eauto.
    + rewrite lookup_insert_ne; [done|]. intros Hp.
      destruct (pending_timer _ Hc _ _ Hp) as (t & Ht & Hid).
      exists t. split; [|done]. rewrite lookup_insert_ne; [congruence|done].
  - intros h t. destruct (decide (nextCall st = h)) as [<-|Hne].
    + rewrite lookup_insert_eq. intros [= <-]. simpl.
      rewrite lookup_insert_eq. eauto.
    + rewrite lookup_insert_ne; [done|]. intros Ht.
      destruct (timer_pending _ Hc _ _ Ht) as (p & Hp & Hh).
      exists p. split; [|done]. rewrite lookup_insert_ne; [congruence|done].
  - intros id p. destruct (decide (requestId = id)) as [<-|Hne].
    + rewrite lookup_insert_eq. intros [= <-]. simpl.
      destruct (promises st !! nextCall st) eqn:E; [|done].
      pose proof (promise_allocated _ Hc (nextCall st) (mk_is_Some _ _ E)). lia.
    + rewrite lookup_insert_ne; [done|]. apply Hc.
  - intros h. destruct (decide (nextCall st = h)) as [<-|Hne]; [lia|].
    rewrite lookup_insert_ne; [done|]. intros Hh.
    pose proof (timer_allocated _ Hc h Hh). lia.
  - intros h Hh. pose proof (promise_allocated _ Hc h Hh). lia.
  - apply Hc.
  - apply Hc.
Qed.

(** Replacing a transfer by one of the same node whose counters match
    its chunks. *)
Lemma consistent_insert_transfer id t st :
  consistent st →
  (∃ p, pendingInvokes st !! id = Some p ∧ pi_nodeId p = tr_nodeId t) →
  tr_nextIndex t = Z.of_nat (length (tr_chunks t)) →
  tr_hash t = concat (tr_chunks t) →
  tr_bytesReceived t = Z.of_nat (length (concat (tr_chunks t))) →
  (∃ sha256, tr_sha256 t = toLowerCase sha256) →
  consistent (set_invokeTransfers (insert id t) st).
Proof.
  intros Hc Hown H1 H2 H3 H4. split; simpl; try apply Hc.
  - intros id' t'. destruct (decide (id = id')) as [<-|Hne].
    + rewrite lookup_insert_eq. by intros [= <-].
    + rewrite lookup_insert_ne; [done|]. apply Hc.
  - intros id' t'. destruct (decide (id = id')) as [<-|Hne].
    + rewrite lookup_insert_eq. by intros [= <-].
    + rewrite lookup_insert_ne; [done|]. apply Hc.
  - intros id' t'. destruct (decide (id = id')) as [<-|Hne].
    + rewrite lookup_insert_eq. by intros [= <-].
    + rewrite lookup_insert_ne; [done|]. apply Hc.
Qed.

Lemma consistent_set_inflightBytes f st :
  consistent st → consistent (set_inflightBytes f st).
Proof. intros Hc. split; simpl; apply Hc. Qed.

Lemma consistent_resolveInvokeError id nodeId err st :
  consistent st → consistent (resolveInvokeError id nodeId err st).
Proof. apply consistent_handleInvokeResult. Qed.

Lemma consistent_startInvokeResultTransfer params st :
  consistent st → consistent (startInvokeResultTransfer params st).1.
Proof.
  intros Hc. unfold startInvokeResultTransfer.
  destruct (pendingInvokes st !! sp_id params) as [p|] eqn:Hp; [|done].
  repeat case_bool_decide; simpl; auto using consistent_resolveInvokeError.
  destruct (sp_sha256 params) as [sha256|]; [|by apply consistent_set_inflightBytes].
  apply (consistent_insert_transfer _ _ (set_inflightBytes _ st)); simpl; try done.
  - by apply consistent_set_inflightBytes.
  - exists p. split; [done|]. by destruct (decide (pi_nodeId p = sp_nodeId params)).
  - by eexists.
Qed.

Lemma consistent_handleInvokeResultChunk rt params st :
  consistent st → consistent (handleInvokeResultChunk rt params st).1.
Proof.
  intros Hc. unfold handleInvokeResultChunk.
  destruct (invokeTransfers st !! cp_id params) as [t|] eqn:Ht.
  2: { destruct (pendingInvokes st !! cp_id params); [|done].
       case_bool_decide; simpl; auto using consistent_resolveInvokeError. }
  case_bool_decide.
  { destruct (pendingInvokes st !! cp_id params); [|done].
    case_bool_decide; simpl; auto using consistent_resolveInvokeError. }
  destruct (transfer_counts _ Hc _ _ Ht) as (Hn & Hh & Hb).
  case_bool_decide; simpl; [auto using consistent_resolveInvokeError|].
  case_bool_decide; simpl; [auto using consistent_resolveInvokeError|].
  case_bool_decide; simpl; [auto using consistent_resolveInvokeError|].
  match goal with
  | |- context [set_invokeTransfers (insert ?i ?t') st] =>
      assert (Hc1 : consistent (set_invokeTransfers (insert i t') st))
  end.
  { apply consistent_insert_transfer; simpl; try done.
    - apply (transfer_owned _ Hc _ _ Ht).
    - rewrite length_app /=. lia.
    - by rewrite concat_app /= app_nil_r Hh.
    - rewrite concat_app /= app_nil_r length_app. lia.
    - apply (transfer_sha_lower _ Hc _ _ Ht). }
  repeat case_bool_decide; simpl;
    auto using consistent_resolveInvokeError, consistent_handleInvokeResult.
Qed.

Lemma consistent_abortInvokeResultTransfer params st :
  consistent st → consistent (abortInvokeResultTransfer params st).1.
Proof.
  intros Hc. unfold abortInvokeResultTransfer.
  repeat (case_bool_decide || case_match); simpl;
    auto using consistent_clearInvokeTransfer, consistent_handleInvokeResult.
Qed.

Lemma consistent_register client remoteIp now st :
  consistent st → consistent (register client remoteIp now st).1.
Proof. intros Hc. split; simpl; apply Hc. Qed.

(** ** The two loops of [unregister] *)

Section Folds.
Context {K : Type} `{Countable K} {V A : Type}.

Lemma foldl_delete_in (f : A → K) (l : list A) (m : gmap K V) k :
  k ∈ f <$> l → foldl (λ m e, delete (f e) m) m l !! k = None.
Proof.
  revert m. induction l as [|e l IH]; intros m; simpl.
  - by intros ?%elem_of_nil.
  - intros [->|Hin]%elem_of_cons; [|by apply IH].
    destruct (decide (f e ∈ f <$> l)) as [Hin|Hnot]; [by apply IH|].
    clear IH. revert m. induction l as [|e' l IH]; intros m; simpl.
    + apply lookup_delete_eq.
    + rewrite delete_delete. apply IH. set_solver.
Qed.

Lemma foldl_delete_notin (f : A → K) (l : list A) (m : gmap K V) k :
  k ∉ f <$> l → foldl (λ m e, delete (f e) m) m l !! k = m !! k.
Proof.
  revert m. induction l as [|e l IH]; intros m; simpl; [done|].
  intros Hnot. rewrite IH; [set_solver|].
  apply lookup_delete_ne. set_solver.
Qed.

Lemma foldl_delete_Some (f : A → K) (l : list A) (m : gmap K V) k v :
  foldl (λ m e, delete (f e) m) m l !! k = Some v ↔ m !! k = Some v ∧ k ∉ f <$> l.
Proof.
  split.
  - intros Hk. destruct (decide (k ∈ f <$> l)) as [Hin|Hnot].
    + by rewrite foldl_delete_in in Hk.
    + by rewrite foldl_delete_notin in Hk.
  - intros [Hk Hnot]. by rewrite foldl_delete_notin.
Qed.

End Folds.

Section Settles.
Context {A : Type} (c : A → nat) (s : A → Settlement).

Lemma foldl_settle_notin (l : list A) ps h :
  h ∉ c <$> l → foldl (λ ps e, settle (c e) (s e) ps) ps l !! h = ps !! h.
Proof.
  revert ps. induction l as [|e l IH]; intros ps; simpl; [done|].
  intros Hnot. rewrite IH; [set_solver|].
  apply lookup_settle_ne. set_solver.
Qed.

Lemma foldl_settle_Some (l : list A) ps h x :
  ps !! h = Some x → foldl (λ ps e, settle (c e) (s e) ps) ps l !! h = Some x.
Proof.
  revert ps. induction l as [|e l IH]; intros ps; simpl; [done|].
  intros Hh. apply IH. by apply lookup_settle_Some.
Qed.

Lemma foldl_settle_in (l : list A) ps e :
  e ∈ l → ps !! c e = None →
  (∀ e', e' ∈ l → c e' = c e → s e' = s e) →
  foldl (λ ps e, settle (c e) (s e) ps) ps l !! c e = Some (s e).
Proof.
  revert ps. induction l as [|e0 l IH]; intros ps; simpl.
  - by intros ?%elem_of_nil.
  - intros Hin Hnone Hsame.
    destruct (decide (c e0 = c e)) as [Heq|Hne].
    + apply foldl_settle_Some. rewrite Heq -(Hsame e0); [set_solver|done|].
      rewrite -Heq. apply lookup_settle_fresh. by rewrite Heq.
    + apply IH.
      * apply elem_of_cons in Hin as [->|Hin]; done.
      * rewrite lookup_settle_ne; [congruence|done].
      * intros e' He'. apply Hsame. set_solver.
Qed.

Lemma foldl_settle_is_Some (l : list A) ps h :
  is_Some (foldl (λ ps e, settle (c e) (s e) ps) ps l !! h) →
  is_Some (ps !! h) ∨ h ∈ c <$> l.
Proof.
  intros Hh. destruct (decide (h ∈ c <$> l)) as [Hin|Hnot]; [by right|].
  left. by rewrite foldl_settle_notin in Hh.
Qed.

End Settles.

Lemma foldl_disconnectPending nodeId l st :
  let st' := foldl (disconnectPending nodeId) st l in
  pendingInvokes st'
    = foldl (λ m e, delete e.1 m) (pendingInvokes st) (leaving nodeId l)
  ∧ timers st'
    = foldl (λ m e, delete (pi_call e.2) m) (timers st) (leaving nodeId l)
  ∧ promises st'
    = foldl (λ ps e, settle (pi_call e.2) (Rejected (disconnect_message e.2)) ps)
        (promises st) (leaving nodeId l)
  ∧ invokeTransfers st' = invokeTransfers st
  ∧ inflightBytes st' = inflightBytes st
  ∧ nextCall st' = nextCall st.
Proof.
  revert st. induction l as [|[id p] l IH]; intros st; [done|].
  simpl. unfold leaving. rewrite filter_cons. simpl.
  destruct (IH (disconnectPending nodeId st (id, p))) as (E1 & E2 & E3 & E4 & E5 & E6).
  rewrite E1 E2 E3 E4 E5 E6. clear.
  unfold disconnectPending. case_bool_decide as Hn.
  - by rewrite decide_False.
  - by rewrite decide_True.
Qed.

Lemma foldl_disconnectTransfer nodeId l st :
  let st' := foldl (disconnectTransfer nodeId) st l in
  invokeTransfers st'
    = foldl (λ m e, delete e.1 m) (invokeTransfers st) (leaving_transfers nodeId l)
  ∧ pendingInvokes st' = pendingInvokes st
  ∧ timers st' = timers st
  ∧ promises st' = promises st
  ∧ nextCall st' = nextCall st.
Proof.
  revert st. induction l as [|[id t] l IH]; intros st; [done|].
  simpl. unfold leaving_transfers. rewrite filter_cons. simpl.
  destruct (IH (disconnectTransfer nodeId st (id, t))) as (E1 & E2 & E3 & E4 & E5).
  rewrite E1 E2 E3 E4 E5. clear.
  unfold disconnectTransfer. case_bool_decide as Hn.
  - by rewrite decide_False.
  - rewrite decide_True; [done|]. by tables.
Qed.

(** What [unregister] does to the tables when it finds a node id. *)
Lemma unregister_tables conn nodeId st :
  nodesByConn st !! conn = Some nodeId → nodeId ≠ "" →
  let st' := (unregister conn st).1 in
  let gone := leaving nodeId (map_to_list (pendingInvokes st)) in
  (unregister conn st).2 = Some nodeId
  ∧ pendingInvokes st' = foldl (λ m e, delete e.1 m) (pendingInvokes st) gone
  ∧ timers st' = foldl (λ m e, delete (pi_call e.2) m) (timers st) gone
  ∧ promises st'
    = foldl (λ ps e, settle (pi_call e.2) (Rejected (disconnect_message e.2)) ps)
        (promises st) gone
  ∧ invokeTransfers st'
    = foldl (λ m e, delete e.1 m) (invokeTransfers st)
        (leaving_transfers nodeId (map_to_list (invokeTransfers st)))
  ∧ nextCall st' = nextCall st.
Proof.
  intros Hc Hn. unfold unregister. rewrite Hc.
  rewrite bool_decide_eq_false_2; [done|]. simpl.
  set (st2 := set_nodesById _ _).
  destruct (foldl_disconnectPending nodeId (map_to_list (pendingInvokes st2)) st2)
    as (E1 & E2 & E3 & E4 & E5 & E6).
  set (st3 := foldl (disconnectPending nodeId) st2 _) in *.
  destruct (foldl_disconnectTransfer nodeId (map_to_list (invokeTransfers st3)) st3)
    as (F1 & F2 & F3 & F4 & F5).
  rewrite F1 F2 F3 F4 F5 E4 E1 E2 E3 E6. done.
Qed.

Lemma elem_of_leaving nodeId (m : gmap string PendingInvoke) id p :
  (id, p) ∈ leaving nodeId (map_to_list m) ↔ m !! id = Some p ∧ pi_nodeId p = nodeId.
Proof.
  unfold leaving. rewrite list_elem_of_filter elem_of_map_to_list. simpl. tauto.
Qed.

Lemma elem_of_leaving_transfers nodeId (m : gmap string PendingInvokeTransfer) id t :
  (id, t) ∈ leaving_transfers nodeId (map_to_list m)
  ↔ m !! id = Some t ∧ tr_nodeId t = nodeId.
Proof.
  unfold leaving_transfers. rewrite list_elem_of_filter elem_of_map_to_list. simpl. tauto.
Qed.

Section Unregister.
Context (conn nodeId : string) (st : State).
Hypothesis Hconn : nodesByConn st !! conn = Some nodeId.
Hypothesis Hnode : nodeId ≠ "".

Local Abbreviation st' := ((unregister conn st).1).

Lemma leaves_elem_of h :
  h ∈ (λ e, pi_call e.2) <$> leaving nodeId (map_to_list (pendingInvokes st))
  ↔ leaves nodeId st h.
Proof.
  rewrite list_elem_of_fmap. split.
  - intros ([id p] & -> & (Hp & Hn)%elem_of_leaving). by exists id, p.
  - intros (id & p & Hp & Hn & <-). exists (id, p). split; [done|].
    by apply elem_of_leaving.
Qed.

Lemma unregister_pending id p :
  pendingInvokes st' !! id = Some p
  ↔ pendingInvokes st !! id = Some p ∧ pi_nodeId p ≠ nodeId.
Proof.
  destruct (unregister_tables conn nodeId st Hconn Hnode) as (_ & -> & _).
  rewrite foldl_delete_Some list_elem_of_fmap. split.
  - intros [Hp Hnot]. split; [done|]. intros Hn. apply Hnot.
    exists (id, p). split; [done|]. by apply elem_of_leaving.
  - intros [Hp Hn]. split; [done|].
    intros ([id' p'] & -> & (Hp' & Hn')%elem_of_leaving). simpl in *. congruence.
Qed.

Lemma unregister_transfers id t :
  invokeTransfers st' !! id = Some t
  ↔ invokeTransfers st !! id = Some t ∧ tr_nodeId t ≠ nodeId.
Proof.
  destruct (unregister_tables conn nodeId st Hconn Hnode) as (_ & _ & _ & _ & -> & _).
  rewrite foldl_delete_Some list_elem_of_fmap. split.
  - intros [Ht Hnot]. split; [done|]. intros Hn. apply Hnot.
    exists (id, t). split; [done|]. by apply elem_of_leaving_transfers.
  - intros [Ht Hn]. split; [done|].
    intros ([id' t'] & -> & (Ht' & Hn')%elem_of_leaving_transfers).
    simpl in *. congruence.
Qed.

Lemma unregister_timers h t :
  timers st' !! h = Some t ↔ timers st !! h = Some t ∧ ¬ leaves nodeId st h.
Proof.
  destruct (unregister_tables conn nodeId st Hconn Hnode) as (_ & _ & -> & _).
  by rewrite foldl_delete_Some leaves_elem_of.
Qed.

Lemma unregister_promises_kept h :
  ¬ leaves nodeId st h → promises st' !! h = promises st !! h.
Proof.
  destruct (unregister_tables conn nodeId st Hconn Hnode) as (_ & _ & _ & -> & _).
  intros Hnot. apply foldl_settle_notin. by rewrite leaves_elem_of.
Qed.

Lemma unregister_promises_allocated h :
  is_Some (promises st' !! h) → is_Some (promises st !! h) ∨ leaves nodeId st h.
Proof.
  destruct (unregister_tables conn nodeId st Hconn Hnode) as (_ & _ & _ & -> & _).
  intros [Hh|Hh]%foldl_settle_is_Some; [by left|right]. by apply leaves_elem_of.
Qed.

Lemma unregister_promises_rejected id p :
  consistent st →
  pendingInvokes st !! id = Some p → pi_nodeId p = nodeId →
  promises st' !! pi_call p = Some (Rejected (disconnect_message p)).
Proof.
  intros Hc Hp Hn.
  destruct (unregister_tables conn nodeId st Hconn Hnode) as (_ & _ & _ & -> & _).
  apply (foldl_settle_in (λ e, pi_call e.2) (λ e, Rejected (disconnect_message e.2))
           _ _ (id, p)).
  - by apply elem_of_leaving.
  - exact (pending_unsettled _ Hc _ _ Hp).
  - intros [id' p'] (Hp' & Hn')%elem_of_leaving Hcall. simpl in *.
    assert (id' = id) as -> by exact (pending_call_inj st _ _ _ _ Hc Hp' Hp Hcall).
    congruence.
Qed.

Lemma unregister_nextCall : nextCall st' = nextCall st.
Proof. by destruct (unregister_tables conn nodeId st Hconn Hnode) as (_ & _ & _ & _ & _ & ->). Qed.

Lemma consistent_unregister_found : consistent st → consistent st'.
Proof.
  intros Hc.
  assert (Hstay : ∀ id p, pendingInvokes st !! id = Some p →
            pi_nodeId p ≠ nodeId → ¬ leaves nodeId st (pi_call p)).
  { intros id p Hp Hn (id2 & p2 & Hp2 & Hn2 & Hcall).
    assert (id2 = id) as -> by exact (pending_call_inj st _ _ _ _ Hc Hp2 Hp Hcall).
    congruence. }
  split.
  - intros id t [Ht Hn]%unregister_transfers.
    destruct (transfer_owned _ Hc _ _ Ht) as (p & Hp & Hnp).
    exists p. split; [|done]. apply unregister_pending. split; [done|congruence].
  - intros id p [Hp Hn]%unregister_pending.
    destruct (pending_timer _ Hc _ _ Hp) as (t & Ht & Hid).
    exists t. split; [|done]. apply unregister_timers. split; [done|]. eauto.
  - intros h t [Ht Hnot]%unregister_timers.
    destruct (timer_pending _ Hc _ _ Ht) as (p & Hp & Hh).
    exists p. split; [|done]. apply unregister_pending. split; [done|].
    intros Hn. apply Hnot. by exists (tm_requestId t), p.
  - intros id p [Hp Hn]%unregister_pending.
    rewrite unregister_promises_kept; [exact (Hstay _ _ Hp Hn)|].
    exact (pending_unsettled _ Hc _ _ Hp).
  - intros h [t [Ht _]%unregister_timers]. rewrite unregister_nextCall.
    apply (timer_allocated _ Hc). eauto.
  - intros h [Hh|(id & p & Hp & _ & <-)]%unregister_promises_allocated;
      rewrite unregister_nextCall.
    + by apply (promise_allocated _ Hc).
    + destruct (pending_timer _ Hc _ _ Hp) as (t & Ht & _).
      apply (timer_allocated _ Hc). eauto.
  - intros id t [Ht _]%unregister_transfers. exact (transfer_counts _ Hc _ _ Ht).
  - intros id t [Ht _]%unregister_transfers. exact (transfer_sha_lower _ Hc _ _ Ht).
Qed.

End Unregister.

Lemma consistent_unregister conn st :
  consistent st → consistent (unregister conn st).1.
Proof.
  intros Hc. destruct (nodesByConn st !! conn) as [nodeId|] eqn:Hconn.
  - destruct (decide (nodeId = "")) as [->|Hne].
    + unfold unregister. by rewrite Hconn.
    + by apply (consistent_unregister_found conn nodeId).
  - unfold unregister. by rewrite Hconn.
Qed.

Lemma consistent_step rt st op :
  fresh_op st op → consistent st → consistent (step rt st op).
Proof.
  destruct op; simpl; intros Hfresh Hc.
  - by apply consistent_register.
  - by apply consistent_unregister.
  - by apply consistent_invoke.
  - by apply consistent_fireTimer.
  - by apply consistent_handleInvokeResult.
  - by apply consistent_startInvokeResultTransfer.
  - by apply consistent_handleInvokeResultChunk.
  - by apply consistent_abortInvokeResultTransfer.
Qed.

(** ** Accounting of the bytes in flight *)

Lemma sum_totals_empty : sum_totals ∅ = 0.
Proof. apply map_fold_empty. Qed.

Lemma sum_totals_insert id t m :
  m !! id = None → sum_totals (<[id:=t]> m) = tr_totalBytes t + sum_totals m.
Proof.
  intros Hid. unfold sum_totals. rewrite map_fold_insert_L; [|done..].
  intros; lia.
Qed.

Lemma sum_totals_delete id t m :
  m !! id = Some t → sum_totals m = tr_totalBytes t + sum_totals (delete id m).
Proof.
  intros Hid. unfold sum_totals. rewrite (map_fold_delete_L _ _ id t m); [|done..].
  intros; lia.
Qed.

Lemma sum_totals_nonneg m :
  (∀ id t, m !! id = Some t → 0 ≤ tr_totalBytes t) → 0 ≤ sum_totals m.
Proof.
  induction m as [|id t m Hid IH] using map_ind; intros Hnn.
  - by rewrite sum_totals_empty.
  - rewrite sum_totals_insert; [done|].
    assert (0 ≤ tr_totalBytes t) by (apply (Hnn id); by rewrite lookup_insert_eq).
    assert (0 ≤ sum_totals m); [|lia].
    apply IH. intros id' t' Hid'. apply (Hnn id').
    rewrite lookup_insert_ne; [congruence|done].
Qed.

Lemma leaking_empty : leaking 0 empty_registry.
Proof.
  split; [done| |done]. intros id t Ht. simpl in Ht. by rewrite lookup_empty in Ht.
Qed.

Lemma leaking_frame k st st' :
  invokeTransfers st' = invokeTransfers st →
  inflightBytes st' = inflightBytes st →
  leaking k st → leaking k st'.
Proof.
  intros E1 E2 [H0 H1 H2]. split; unfold active_bytes; rewrite ?E1 ?E2; done.
Qed.

Lemma leaking_clearInvokeTransfer k id st :
  leaking k st → leaking k (clearInvokeTransfer id st).
Proof.
  intros [Hk Hnn Hsum]. unfold clearInvokeTransfer.
  destruct (invokeTransfers st !! id) as [t|] eqn:Ht; [|done].
  split; simpl; [done| |].
  - intros id' t' [_ Ht']%lookup_delete_Some. by apply (Hnn id').
  - unfold active_bytes in *. simpl. rewrite Hsum (sum_totals_delete id t); [done|].
    assert (0 ≤ sum_totals (delete id (invokeTransfers st))); [|lia].
    apply sum_totals_nonneg. intros id' t' [_ Ht']%lookup_delete_Some.
    by apply (Hnn id').
Qed.

Lemma leaking_handleInvokeResult k params st :
  leaking k st → leaking k (handleInvokeResult params st).1.
Proof.
  intros Ha. unfold handleInvokeResult.
  destruct (pendingInvokes st !! rp_id params) as [p|]; [|done].
  case_bool_decide; [done|]. simpl.
  eapply leaking_frame; [..|apply (leaking_clearInvokeTransfer k (rp_id params))]; [done..|].
  by eapply leaking_frame; [..|exact Ha].
Qed.

Lemma leaking_resolveInvokeError k id nodeId err st :
  leaking k st → leaking k (resolveInvokeError id nodeId err st).
Proof. apply leaking_handleInvokeResult. Qed.

Lemma leaking_fireTimer k call st : leaking k st → leaking k (fireTimer call st).
Proof.
  intros Ha. unfold fireTimer. destruct (timers st !! call) as [t|]; [|done].
  eapply leaking_frame; [..|apply (leaking_clearInvokeTransfer k (tm_requestId t))]; [done..|].
  by eapply leaking_frame; [..|exact Ha].
Qed.

Lemma leaking_invoke k params requestId sendOk st :
  leaking k st → leaking k (invoke params requestId sendOk st).1.
Proof.
  intros Ha. unfold invoke. destruct (nodesById st !! iv_nodeId params); [|done].
  destruct (stringifies (iv_params params)); [|done].
  destruct sendOk; [|done]. by eapply leaking_frame; [..|exact Ha].
Qed.

Lemma leaking_register k client remoteIp now st :
  leaking k st → leaking k (register client remoteIp now st).1.
Proof. intros Ha. by eapply leaking_frame; [..|exact Ha]. Qed.

(** A start frame keeps the distance [k] when [sha256] is a string; when
    it is not, the call throws after the bytes were counted and before the
    transfer is stored, and the distance grows by [totalBytes]. *)
Lemma leaking_startInvokeResultTransfer k params st :
  0 ≤ sp_totalBytes params →
  leaking k st →
  let r := startInvokeResultTransfer params st in
  leaking (match r.2 with
           | TransferThrows => k + sp_totalBytes params
           | _ => k
           end) r.1
  ∧ (is_Some (sp_sha256 params) → r.2 ≠ TransferThrows).
Proof.
  intros Hnn Ha. simpl. unfold startInvokeResultTransfer.
  destruct (pendingInvokes st !! sp_id params) as [p|]; [|done].
  case_bool_decide; [done|].
  case_bool_decide as Hhas; [split; [by apply leaking_resolveInvokeError|done]|].
  case_bool_decide; [split; [by apply leaking_resolveInvokeError|done]|].
  case_bool_decide; [split; [by apply leaking_resolveInvokeError|done]|].
  apply eq_None_not_Some in Hhas. destruct Ha as [Hk Htot Hsum].
  destruct (sp_sha256 params) as [sha256|]; simpl.
  - split; [|done]. split; simpl; [done| |].
    + intros id t. destruct (decide (sp_id params = id)) as [<-|Hne].
      * rewrite lookup_insert_eq. by intros [= <-].
      * rewrite lookup_insert_ne; [done|]. apply Htot.
    + unfold active_bytes in *. simpl.
      rewrite sum_totals_insert; [done|]. simpl. lia.
  - split; [|by intros [? ?]]. split; simpl; [lia|done|].
    unfold active_bytes in *. simpl. lia.
Qed.

(** Replacing a transfer by one announcing the same number of bytes. *)
Lemma leaking_update_transfer k id t t' st :
  invokeTransfers st !! id = Some t →
  tr_totalBytes t' = tr_totalBytes t →
  leaking k st → leaking k (set_invokeTransfers (insert id t') st).
Proof.
  intros Ht Etot [Hk Htot Hsum]. split; simpl; [done| |].
  - intros id' t''. destruct (decide (id = id')) as [<-|Hne].
    + rewrite lookup_insert_eq. intros [= <-]. rewrite Etot. by apply (Htot id).
    + rewrite lookup_insert_ne; [done|]. apply Htot.
  - unfold active_bytes in *. simpl. rewrite Hsum.
    rewrite -(insert_delete_eq (invokeTransfers st)).
    rewrite sum_totals_insert; [by rewrite lookup_delete_eq|].
    rewrite (sum_totals_delete id t); [done|]. lia.
Qed.

Lemma leaking_handleInvokeResultChunk k rt params st :
  leaking k st → leaking k (handleInvokeResultChunk rt params st).1.
Proof.
  intros Ha. unfold handleInvokeResultChunk.
  destruct (invokeTransfers st !! cp_id params) as [t|] eqn:Ht.
  2: { destruct (pendingInvokes st !! cp_id params); [|done].
       case_bool_decide; simpl; auto using leaking_resolveInvokeError. }
  case_bool_decide.
  { destruct (pendingInvokes st !! cp_id params); [|done].
    case_bool_decide; simpl; auto using leaking_resolveInvokeError. }
  case_bool_decide; simpl; [auto using leaking_resolveInvokeError|].
  case_bool_decide; simpl; [auto using leaking_resolveInvokeError|].
  case_bool_decide; simpl; [auto using leaking_resolveInvokeError|].
  match goal with
  | |- context [set_invokeTransfers (insert ?i ?t') st] =>
      assert (Ha1 : leaking k (set_invokeTransfers (insert i t') st))
        by (by apply (leaking_update_transfer k i t))
  end.
  repeat case_bool_decide; simpl;
    auto using leaking_resolveInvokeError, leaking_handleInvokeResult.
Qed.

Lemma leaking_abortInvokeResultTransfer k params st :
  leaking k st → leaking k (abortInvokeResultTransfer params st).1.
Proof.
  intros Ha. unfold abortInvokeResultTransfer.
  repeat (case_bool_decide || case_match); simpl;
    auto using leaking_clearInvokeTransfer, leaking_handleInvokeResult.
Qed.

Lemma foldl_preserves {A} (P : State → Prop) (f : State → A → State) l st :
  (∀ st e, P st → P (f st e)) → P st → P (foldl f st l).
Proof.
  intros Hstep. revert st. induction l as [|e l IH]; intros st; simpl; auto.
Qed.

Lemma leaking_unregister k conn st :
  leaking k st → leaking k (unregister conn st).1.
Proof.
  intros Ha. unfold unregister.
  destruct (nodesByConn st !! conn) as [nodeId|]; [|done].
  case_bool_decide; [done|]. simpl.
  apply foldl_preserves.
  { intros st1 [id t] Ha1. unfold disconnectTransfer.
    case_bool_decide; [done|]. by apply leaking_clearInvokeTransfer. }
  apply foldl_preserves.
  { intros st1 [id p] Ha1. unfold disconnectPending.
    case_bool_decide; [done|]. by eapply leaking_frame; [..|exact Ha1]. }
  by eapply leaking_frame; [..|exact Ha].
Qed.

(** One operation: the distance stays what it was unless the operation is
    a start frame whose [sha256] is not a string. *)
Lemma leaking_step k rt st op :
  nonneg_op op = true → leaking k st →
  ∃ k', leaking k' (step rt st op)
        ∧ ((∀ params, op = OpStart params → is_Some (sp_sha256 params)) → k' = k).
Proof.
  destruct op; simpl; intros Hnn Ha.
  - exists k. split; [by apply leaking_register|done].
  - exists k. split; [by apply leaking_unregister|done].
  - exists k. split; [by apply leaking_invoke|done].
  - exists k. split; [by apply leaking_fireTimer|done].
  - exists k. split; [by apply leaking_handleInvokeResult|done].
  - apply bool_decide_eq_true in Hnn.
    destruct (leaking_startInvokeResultTransfer k params st Hnn Ha) as [Hl Hsha].
    eexists. split; [exact Hl|]. intros Hty.
    specialize (Hsha (Hty _ eq_refl)).
    by destruct (startInvokeResultTransfer params st).2.
  - exists k. split; [by apply leaking_handleInvokeResultChunk|done].
  - exists k. split; [by apply leaking_abortInvokeResultTransfer|done].
Qed.

Lemma run_snoc rt ops op st : run rt (ops ++ [op]) st = step rt (run rt ops st) op.
Proof. unfold run. by rewrite foldl_app. Qed.

Lemma leaking_run rt ops :
  forallb nonneg_op ops = true →
  ∃ k, leaking k (run rt ops empty_registry).
Proof.
  induction ops as [|op ops IH] using rev_ind; intros Hnn.
  - exists 0. apply leaking_empty.
  - rewrite forallb_app /= andb_true_r in Hnn. apply andb_prop in Hnn as [Hnn Hop].
    destruct (IH Hnn) as [k Hk]. rewrite run_snoc.
    destruct (leaking_step k rt _ op Hop Hk) as (k' & Hk' & _). by exists k'.
Qed.

Lemma typed_op_nonneg op : typed_op op = true → nonneg_op op = true.
Proof.
  destruct op; simpl; try done.
  by intros [[_ ?]%andb_prop _]%andb_prop.
Qed.

Lemma accounted_run rt ops :
  forallb typed_op ops = true → accounted (run rt ops empty_registry).
Proof.
  unfold accounted. induction ops as [|op ops IH] using rev_ind; intros Hty.
  - apply leaking_empty.
  - rewrite forallb_app /= andb_true_r in Hty. apply andb_prop in Hty as [Hty Hop].
    rewrite run_snoc.
    destruct (leaking_step 0 rt _ op (typed_op_nonneg _ Hop) (IH Hty))
      as (k' & Hk' & Hsame).
    rewrite -(Hsame _); [|done]. intros params ->. simpl in Hop.
    apply andb_prop in Hop as [[Hsha _]%andb_prop _].
    by apply bool_decide_eq_true in Hsha.
Qed.

(** *** The counter never exceeds the caps of the start frames *)

Lemma inflight_clearInvokeTransfer_le k id st :
  leaking k st →
  inflightBytes (clearInvokeTransfer id st) ≤ inflightBytes st.
Proof.
  intros Ha. unfold clearInvokeTransfer.
  destruct (invokeTransfers st !! id) as [t|] eqn:Ht; [|lia]. simpl.
  pose proof (totals_nonneg _ _ Ha _ _ Ht).
  assert (0 ≤ inflightBytes st).
  { rewrite (inflight_is_sum _ _ Ha).
    pose proof (leak_nonneg _ _ Ha).
    assert (0 ≤ active_bytes st); [|lia]. apply sum_totals_nonneg, Ha. }
  lia.
Qed.

Lemma inflight_handleInvokeResult_le k params st :
  leaking k st →
  inflightBytes (handleInvokeResult params st).1 ≤ inflightBytes st.
Proof.
  intros Ha. unfold handleInvokeResult.
  destruct (pendingInvokes st !! rp_id params) as [p|]; [|simpl; lia].
  case_bool_decide; [simpl; lia|]. simpl.
  etrans; [apply (inflight_clearInvokeTransfer_le k); by apply (leaking_frame k st)|].
  simpl. lia.
Qed.

Lemma inflight_unregister_le k conn st :
  leaking k st → inflightBytes (unregister conn st).1 ≤ inflightBytes st.
Proof.
  intros Ha. unfold unregister.
  destruct (nodesByConn st !! conn) as [nodeId|]; [|simpl; lia].
  case_bool_decide; [simpl; lia|]. simpl.
  set (b := inflightBytes st).
  set (P := λ s, leaking k s ∧ inflightBytes s ≤ b).
  refine (proj2 (foldl_preserves P (disconnectTransfer nodeId) _ _ _ _)).
  - intros s [id t] [Hs Hle]. unfold disconnectTransfer.
    case_bool_decide; [done|].
    split; [by apply leaking_clearInvokeTransfer|].
    etrans; [by apply (inflight_clearInvokeTransfer_le k)|done].
  - apply (foldl_preserves P (disconnectPending nodeId)).
    + intros s [id p] [Hs Hle]. unfold disconnectPending.
      case_bool_decide; [done|].
      split; [|done]. by apply (leaking_frame k s).
    + split; [|unfold b; simpl; lia]. by apply (leaking_frame k st).
Qed.

Lemma inflight_step_le k rt st op M :
  within_limit M op = true → leaking k st →
  inflightBytes st ≤ M → inflightBytes (step rt st op) ≤ M.
Proof.
  intros Hlim Ha Hle.
  assert (Hres : ∀ params st0, leaking k st0 →
            inflightBytes st0 = inflightBytes st →
            inflightBytes (handleInvokeResult params st0).1 ≤ M).
  { intros params st0 Ha0 E.
    etrans; [by apply (inflight_handleInvokeResult_le k)|]. by rewrite E. }
  destruct op; simpl.
  - done.
  - etrans; [by apply (inflight_unregister_le k)|done].
  - unfold invoke. destruct (nodesById st !! iv_nodeId params); [|done].
    destruct (stringifies (iv_params params)); [|done].
    by destruct sendOk.
  - unfold fireTimer. destruct (timers st !! call); [|done]. simpl.
    etrans; [apply (inflight_clearInvokeTransfer_le k);
             by apply (leaking_frame k st)|].
    done.
  - by apply Hres.
  - simpl in Hlim. apply bool_decide_eq_true in Hlim.
    unfold startInvokeResultTransfer.
    destruct (pendingInvokes st !! sp_id params); [|done].
    repeat case_bool_decide; try destruct (sp_sha256 params); simpl;
      first [done | by apply Hres | lia].
  - unfold handleInvokeResultChunk.
    destruct (invokeTransfers st !! cp_id params) as [t|] eqn:Ht.
    2: { simpl. destruct (pendingInvokes st !! cp_id params); [|done].
         case_bool_decide; [by apply Hres|done]. }
    assert (Ha1 : ∀ t', tr_totalBytes t' = tr_totalBytes t →
              leaking k (set_invokeTransfers (insert (cp_id params) t') st))
      by (intros t' E; by apply (leaking_update_transfer k _ t)).
    repeat (case_bool_decide || case_match); simpl;
      first [done | by apply Hres | by (apply Hres; [apply Ha1|])].
  - unfold abortInvokeResultTransfer.
    repeat (case_bool_decide || case_match); simpl;
      first [done
            | by apply Hres
            | etrans; [by apply (inflight_clearInvokeTransfer_le k)|done] ].
Qed.

Lemma inflight_run_le rt ops M :
  0 ≤ M →
  forallb nonneg_op ops = true →
  forallb (within_limit M) ops = true →
  ∃ k, leaking k (run rt ops empty_registry)
       ∧ inflightBytes (run rt ops empty_registry) ≤ M.
Proof.
  intros HM Hnn Hlim.
  induction ops as [|op ops IH] using rev_ind; [exists 0; by split; [apply leaking_empty|]|].
  rewrite forallb_app /= in Hnn. rewrite forallb_app /= in Hlim.
  apply andb_prop in Hnn as [Hnn Hop]. apply andb_prop in Hlim as [Hlim Hl].
  rewrite andb_true_r in Hop. rewrite andb_true_r in Hl.
  destruct (IH Hnn Hlim) as (k & Ha & Hle). rewrite run_snoc.
  destruct (leaking_step k rt _ op Hop Ha) as (k' & Hk' & _).
  exists k'. split; [done|]. by apply (inflight_step_le k).
Qed.

Lemma typed_op_within_limit op : typed_op op = true → within_limit MAX_SAFE_INTEGER op = true.
Proof.
  destruct op; simpl; try done. by intros [_ ?]%andb_prop.
Qed.

(** C6 (as amended): after any sequence of registry operations in which
    every start frame carries a [sha256] that is a string, a [totalBytes]
    that is not negative and an in-flight cap of at most 2^53 - 1 (the
    numbers being integers), [inflightBytes] is the sum of [totalBytes]
    over the active transfers, is not negative and is at most 2^53 - 1, so
    that the sums and differences the code forms are exact. *)
Theorem inflight_bytes_accounted rt ops :
  forallb typed_op ops = true →
  let st := run rt ops empty_registry in
  inflightBytes st = active_bytes st
  ∧ 0 ≤ inflightBytes st ≤ MAX_SAFE_INTEGER.
Proof.
  intros Hty st.
  destruct (accounted_run rt ops Hty) as [_ Htot Hsum]. fold st in Htot, Hsum.
  rewrite Z.add_0_r in Hsum. split; [done|]. split.
  - rewrite Hsum. by apply sum_totals_nonneg.
  - destruct (inflight_run_le rt ops MAX_SAFE_INTEGER) as (k & _ & Hle); [done| | |done].
    + apply forallb_forall. intros op Hop. apply typed_op_nonneg.
      by apply (proj1 (forallb_forall _ _) Hty).
    + apply forallb_forall. intros op Hop. apply typed_op_within_limit.
      by apply (proj1 (forallb_forall _ _) Hty).
Qed.

Lemma inflight_bytes_accounted_witness :
  let st := Scenario.transferring in
  inflightBytes st = active_bytes st
  ∧ 0 ≤ inflightBytes st ≤ MAX_SAFE_INTEGER.
Proof.
  apply (inflight_bytes_accounted Scenario.toy_runtime
           [Scenario.register_node "conn-1" "node-1";
            Scenario.invoke_run "node-1" "req-1";
            OpStart (Scenario.start_transfer "req-1" "node-1" 6 2 "FEDCBA")]).
  reflexivity.
Defined.

(** C6 fails as written: a start frame announcing a negative byte count is
    accepted, and [inflightBytes] goes below zero. *)
Lemma inflight_negative_after_negative_start :
  let st :=
    run Scenario.toy_runtime
      [Scenario.register_node "conn-1" "node-1";
       Scenario.invoke_run "node-1" "req-1";
       OpStart (Scenario.start_transfer "req-1" "node-1" (-5) 1 "")]
      empty_registry in
  inflightBytes st = -5
  ∧ ¬ (inflightBytes st = active_bytes st ∧ 0 ≤ inflightBytes st).
Proof.
  split; [reflexivity|]. intros [_ Hneg]. vm_compute in Hneg. by apply Hneg.
Qed.

(** It fails in a second way: a start frame whose [sha256] is not a string
    makes the call throw after its bytes were counted and before a transfer
    is stored; the bytes are never given back, not even when the invoke
    ends. *)
Example inflight_left_behind_by_throwing_start :
  let start :=
    {| sp_id := "req-1"; sp_nodeId := "node-1"; sp_totalBytes := 6;
       sp_chunkBytes := 4; sp_chunkCount := 2; sp_sha256 := None;
       sp_maxInvokeResultBytes := 1024; sp_maxInflightBytes := 4096 |} in
  let st := (startInvokeResultTransfer start Scenario.invoking).1 in
  let st' := fireTimer 0 st in
  (startInvokeResultTransfer start Scenario.invoking).2 = TransferThrows
  ∧ inflightBytes st = 6 ∧ invokeTransfers st = ∅
  ∧ pendingInvokes st' = ∅ ∧ inflightBytes st' = 6.
Proof. repeat split; by vm_compute. Qed.

(** ** Reachable states are consistent *)

Lemma pending_shrinks_refl st : pending_shrinks st st.
Proof. by intros id p. Qed.

Lemma pending_shrinks_frame st st' :
  pendingInvokes st' = pendingInvokes st → pending_shrinks st st'.
Proof. intros E id p. by rewrite E. Qed.

Lemma pending_shrinks_handleInvokeResult params st :
  pending_shrinks st (handleInvokeResult params st).1.
Proof.
  unfold handleInvokeResult.
  destruct (pendingInvokes st !! rp_id params) as [p|]; [|apply pending_shrinks_refl].
  case_bool_decide; [apply pending_shrinks_refl|].
  intros id p'. tables. by intros [_ ?]%lookup_delete_Some.
Qed.

Ltac shrinks :=
  first
    [ apply pending_shrinks_refl
    | apply pending_shrinks_handleInvokeResult
    | apply pending_shrinks_frame; by tables
    | match goal with
      | |- pending_shrinks ?st (handleInvokeResult ?params ?st1).1 =>
          exact (pending_shrinks_handleInvokeResult params st1)
      | |- pending_shrinks ?st (resolveInvokeError ?id ?n ?e ?st1) =>
          exact (pending_shrinks_handleInvokeResult _ st1)
      end ].

Lemma pending_shrinks_step rt st op :
  (∀ params requestId sendOk, op ≠ OpInvoke params requestId sendOk) →
  pending_shrinks st (step rt st op).
Proof.
  destruct op; simpl; intros Hop.
  - by apply pending_shrinks_frame.
  - intros id p. destruct (nodesByConn st !! conn) as [nodeId|] eqn:Hconn.
    + destruct (decide (nodeId = "")) as [->|Hne].
      * unfold unregister. by rewrite Hconn.
      * by intros [? _]%(unregister_pending conn nodeId st Hconn Hne).
    + unfold unregister. by rewrite Hconn.
  - by destruct (Hop params requestId sendOk).
  - unfold fireTimer. destruct (timers st !! call); [|apply pending_shrinks_refl].
    intros id p. tables. by intros [_ ?]%lookup_delete_Some.
  - apply pending_shrinks_handleInvokeResult.
  - unfold startInvokeResultTransfer.
    destruct (pendingInvokes st !! sp_id params); [|apply pending_shrinks_refl].
    repeat case_bool_decide; try destruct (sp_sha256 params); simpl; shrinks.
  - unfold handleInvokeResultChunk.
    repeat (case_bool_decide || case_match); simpl; shrinks.
  - unfold abortInvokeResultTransfer.
    repeat (case_bool_decide || case_match); simpl; shrinks.
Qed.

Lemma pending_invoke params requestId sendOk st id :
  is_Some (pendingInvokes (invoke params requestId sendOk st).1 !! id) →
  is_Some (pendingInvokes st !! id) ∨ id = requestId.
Proof.
  unfold invoke. destruct (nodesById st !! iv_nodeId params); [|by left].
  destruct (stringifies (iv_params params)); [|by left].
  destruct sendOk; [|by left]. simpl.
  destruct (decide (requestId = id)) as [<-|Hne]; [by right|].
  rewrite lookup_insert_ne; [done|]. by left.
Qed.

Lemma drawn_snoc ops op :
  drawn (ops ++ [op]) = (drawn ops ++ drawn [op])%list.
Proof. unfold drawn. by rewrite omap_app. Qed.

Lemma run_consistent rt ops :
  NoDup (drawn ops) →
  consistent (run rt ops empty_registry)
  ∧ ∀ id, is_Some (pendingInvokes (run rt ops empty_registry) !! id) → id ∈ drawn ops.
Proof.
  induction ops as [|op ops IH] using rev_ind; intros Hnd.
  - split; [apply consistent_empty|].
    intros id [p Hp]. simpl in Hp. by rewrite lookup_empty in Hp.
  - rewrite drawn_snoc in Hnd. apply NoDup_app in Hnd as (Hnd & Hnew & _).
    destruct (IH Hnd) as [Hc Hkeys]. rewrite run_snoc drawn_snoc.
    set (st := run rt ops empty_registry) in *.
    assert (Hinv : (∃ params requestId sendOk, op = OpInvoke params requestId sendOk)
                   ∨ ∀ params requestId sendOk, op ≠ OpInvoke params requestId sendOk).
    { destruct op; eauto; right; intros; discriminate. }
    destruct Hinv as [(params & requestId & sendOk & ->)|Hop].
    + assert (Hfresh : pendingInvokes st !! requestId = None).
      { apply eq_None_not_Some. intros Hin%Hkeys.
        apply (Hnew requestId Hin). simpl. set_solver. }
      split; [by apply consistent_step|].
      intros id [Hin| ->]%pending_invoke; simpl; set_solver.
    + split.
      * apply consistent_step; [|done].
        destruct op; try done. by destruct (Hop params requestId sendOk).
      * intros id [p Hp]. apply elem_of_app. left. apply Hkeys.
        exists p. by apply (pending_shrinks_step rt st op Hop).
Qed.

Lemma reachable_consistent rt st : reachable rt st → consistent st.
Proof. intros (ops & Hnd & ->). by apply run_consistent. Qed.

(** ** Resolving a pending invoke *)

(** [handleInvokeResult] when the id names a pending invoke of that node. *)
Lemma handleInvokeResult_hit params st p :
  pendingInvokes st !! rp_id params = Some p →
  pi_nodeId p = rp_nodeId params →
  let st' := (handleInvokeResult params st).1 in
  (handleInvokeResult params st).2 = true
  ∧ pendingInvokes st' = delete (rp_id params) (pendingInvokes st)
  ∧ timers st' = delete (pi_call p) (timers st)
  ∧ invokeTransfers st' = delete (rp_id params) (invokeTransfers st)
  ∧ promises st'
    = settle (pi_call p)
        (Resolved {| ok := rp_ok params; payload := rp_payload params;
                     payloadJSON := rp_payloadJSON params;
                     error := rp_error params |})
        (promises st)
  ∧ nextCall st' = nextCall st.
Proof.
  intros Hp Hn. unfold handleInvokeResult. rewrite Hp.
  rewrite bool_decide_eq_false_2; [by intros ?|]. by tables.
Qed.

(** [handleInvokeResult] otherwise. *)
Lemma handleInvokeResult_miss params st :
  (∀ p, pendingInvokes st !! rp_id params = Some p →
        pi_nodeId p ≠ rp_nodeId params) →
  handleInvokeResult params st = (st, false).
Proof.
  intros Hmiss. unfold handleInvokeResult.
  destruct (pendingInvokes st !! rp_id params) as [p|] eqn:Hp; [|done].
  rewrite bool_decide_eq_true_2; [by apply Hmiss|done].
Qed.

Lemma handleInvokeResult_inflight params st :
  invokeTransfers st !! rp_id params = None →
  inflightBytes (handleInvokeResult params st).1 = inflightBytes st.
Proof.
  intros Ht. unfold handleInvokeResult.
  destruct (pendingInvokes st !! rp_id params) as [p|]; [|done].
  case_bool_decide; [done|]. simpl.
  unfold clearInvokeTransfer. simpl. by rewrite Ht.
Qed.

(** A protocol error resolves the owning invoke with [INVALID_REQUEST]. *)
Lemma resolveInvokeError_owner id nodeId message st p :
  consistent st →
  pendingInvokes st !! id = Some p → pi_nodeId p = nodeId →
  let st' := resolveInvokeError id nodeId (invalid_request message) st in
  promises st' !! pi_call p
    = Some (Resolved (error_result "INVALID_REQUEST" message))
  ∧ pendingInvokes st' !! id = None
  ∧ timers st' !! pi_call p = None
  ∧ invokeTransfers st' = delete id (invokeTransfers st).
Proof.
  intros Hc Hp Hn. unfold resolveInvokeError.
  destruct (handleInvokeResult_hit
              {| rp_id := id; rp_nodeId := nodeId; rp_ok := false;
                 rp_payload := None; rp_payloadJSON := None;
                 rp_error := Some (invalid_request message) |} st p Hp Hn)
    as (_ & -> & -> & -> & -> & _).
  simpl. rewrite !lookup_delete_eq. split; [|done].
  apply lookup_settle_fresh. exact (pending_unsettled _ Hc _ _ Hp).
Qed.

(** C7: a start frame for a pending invoke without a transfer, whose
    [totalBytes] exceeds [maxInvokeResultBytes] or would take
    [inflightBytes] above [maxInflightBytes], is answered
    [payload-too-large]; the owning invoke is resolved with
    [INVALID_REQUEST] / "payload too large"; no transfer is created and
    [inflightBytes] is unchanged. *)
Theorem oversized_start_rejected rt st params p :
  reachable rt st →
  pendingInvokes st !! sp_id params = Some p →
  pi_nodeId p = sp_nodeId params →
  invokeTransfers st !! sp_id params = None →
  sp_totalBytes params > sp_maxInvokeResultBytes params
  ∨ inflightBytes st + sp_totalBytes params > sp_maxInflightBytes params →
  let st' := (startInvokeResultTransfer params st).1 in
  (startInvokeResultTransfer params st).2
    = TransferFail PayloadTooLarge "payload too large"
  ∧ promises st' !! pi_call p
    = Some (Resolved (error_result "INVALID_REQUEST" "payload too large"))
  ∧ invokeTransfers st' = invokeTransfers st
  ∧ inflightBytes st' = inflightBytes st.
Proof.
  intros Hc%reachable_consistent Hp Hn Ht Hbig.
  destruct (resolveInvokeError_owner (sp_id params) (sp_nodeId params)
              "payload too large" st p Hc Hp Hn) as (Hres & _ & _ & Htr).
  rewrite delete_id in Htr; [done|].
  pose proof (handleInvokeResult_inflight
                {| rp_id := sp_id params; rp_nodeId := sp_nodeId params;
                   rp_ok := false; rp_payload := None; rp_payloadJSON := None;
                   rp_error := Some (invalid_request "payload too large") |}
                st Ht) as Hinf.
  unfold startInvokeResultTransfer. rewrite Hp.
  rewrite bool_decide_eq_false_2; [by intros ?|].
  rewrite bool_decide_eq_false_2; [rewrite Ht; by intros [? ?]|].
  case_bool_decide; [done|].
  rewrite bool_decide_eq_true_2; [|done].
  destruct Hbig; [lia|done].
Qed.

Lemma reachable_invoking : reachable Scenario.toy_runtime Scenario.invoking.
Proof.
  exists [Scenario.register_node "conn-1" "node-1";
          Scenario.invoke_run "node-1" "req-1"].
  split; [|done]. compute_done.
Qed.

Lemma reachable_transferring : reachable Scenario.toy_runtime Scenario.transferring.
Proof.
  exists [Scenario.register_node "conn-1" "node-1";
          Scenario.invoke_run "node-1" "req-1";
          OpStart (Scenario.start_transfer "req-1" "node-1" 6 2 "FEDCBA")].
  split; [|done]. compute_done.
Qed.

Lemma oversized_start_rejected_witness :
  let params :=
    Scenario.start_transfer "req-1" "node-1" (2 * 1024 * 1024) 8 "00" in
  let st' := (startInvokeResultTransfer params Scenario.invoking).1 in
  (startInvokeResultTransfer params Scenario.invoking).2
    = TransferFail PayloadTooLarge "payload too large"
  ∧ promises st' !! 0%nat
    = Some (Resolved (error_result "INVALID_REQUEST" "payload too large"))
  ∧ invokeTransfers st' = invokeTransfers Scenario.invoking
  ∧ inflightBytes st' = inflightBytes Scenario.invoking.
Proof.
  apply (oversized_start_rejected Scenario.toy_runtime Scenario.invoking
           (Scenario.start_transfer "req-1" "node-1" (2 * 1024 * 1024) 8 "00")
           {| pi_nodeId := "node-1"; pi_command := "system.run"; pi_call := 0 |}).
  - apply reachable_invoking.
  - reflexivity.
  - reflexivity.
  - reflexivity.
  - left. reflexivity.
Defined.

(** ** Replacing and removing sessions *)

(** C1 (as amended): when [register] is called for a node id that is
    already registered under another connection id, the new session takes
    the entry of [nodesById] and the new connection id is indexed; the prior
    session is not unregistered: its connection id stays in [nodesByConn],
    still pointing at the node id, and the pending invokes, the transfers,
    the bytes in flight, the timers and the promises are all left as they
    were. *)
Theorem register_keeps_prior_work client remoteIp now st old :
  nodesById st !! nodeId_of client = Some old →
  ns_connId old ≠ connId client →
  nodesByConn st !! ns_connId old = Some (nodeId_of client) →
  let st' := (register client remoteIp now st).1 in
  let session := (register client remoteIp now st).2 in
  nodesById st' !! nodeId_of client = Some session
  ∧ ns_connId session = connId client
  ∧ nodesByConn st' !! connId client = Some (nodeId_of client)
  ∧ nodesByConn st' !! ns_connId old = Some (nodeId_of client)
  ∧ pendingInvokes st' = pendingInvokes st
  ∧ invokeTransfers st' = invokeTransfers st
  ∧ inflightBytes st' = inflightBytes st
  ∧ timers st' = timers st
  ∧ promises st' = promises st.
Proof.
  intros Hold Hne Hconn. simpl. fold (nodeId_of client).
  rewrite !lookup_insert_eq. rewrite lookup_insert_ne; [congruence|].
  by repeat split.
Qed.

Lemma register_keeps_prior_work_witness :
  let client := Scenario.node_client "conn-2" "node-1" in
  let st' := (register client None 1 Scenario.transferring).1 in
  let session := (register client None 1 Scenario.transferring).2 in
  nodesById st' !! "node-1" = Some session
  ∧ ns_connId session = "conn-2"
  ∧ nodesByConn st' !! "conn-2" = Some "node-1"
  ∧ nodesByConn st' !! "conn-1" = Some "node-1"
  ∧ pendingInvokes st' = pendingInvokes Scenario.transferring
  ∧ invokeTransfers st' = invokeTransfers Scenario.transferring
  ∧ inflightBytes st' = inflightBytes Scenario.transferring
  ∧ timers st' = timers Scenario.transferring
  ∧ promises st' = promises Scenario.transferring.
Proof.
  apply (register_keeps_prior_work (Scenario.node_client "conn-2" "node-1")
           None 1 Scenario.transferring
           (register (Scenario.node_client "conn-1" "node-1")
              (Some "127.0.0.1") 0 empty_registry).2).
  - reflexivity.
  - simpl. discriminate.
  - reflexivity.
Defined.

(** C1 fails as written: after a second [register] for ["node-1"], the
    first connection id is still in [nodesByConn], and the invoke and the
    transfer that were under way are still pending, their promise not
    settled. *)
Lemma register_does_not_unregister :
  let st' :=
    (register (Scenario.node_client "conn-2" "node-1") None 1
       Scenario.transferring).1 in
  nodesByConn st' !! "conn-1" = Some "node-1"
  ∧ is_Some (pendingInvokes st' !! "req-1")
  ∧ is_Some (invokeTransfers st' !! "req-1")
  ∧ promises st' !! 0%nat = None
  ∧ inflightBytes st' = 6.
Proof. repeat split; by vm_compute; eauto. Qed.

(** C2 (as amended): when [unregister] removes the session of node [N],
    every pending invoke of [N] has its timer cancelled and is removed from
    [pendingInvokes], and the waiting caller is rejected with the error
    "node disconnected (<command>)": the failure is delivered by rejecting
    the promise of the invoke, not as a result value. *)
Theorem unregister_rejects_pending rt conn nodeId st id p :
  reachable rt st →
  nodesByConn st !! conn = Some nodeId → nodeId ≠ "" →
  pendingInvokes st !! id = Some p → pi_nodeId p = nodeId →
  let st' := (unregister conn st).1 in
  (unregister conn st).2 = Some nodeId
  ∧ timers st' !! pi_call p = None
  ∧ pendingInvokes st' !! id = None
  ∧ promises st' !! pi_call p
    = Some (Rejected ("node disconnected (" +:+ pi_command p +:+ ")")).
Proof.
  intros Hc%reachable_consistent Hconn Hne Hp Hn. simpl.
  split; [apply (unregister_tables conn nodeId st Hconn Hne)|].
  split.
  { apply eq_None_not_Some. intros [t [_ Hnot]%(unregister_timers conn nodeId st Hconn Hne)].
    apply Hnot. by exists id, p. }
  split.
  { apply eq_None_not_Some.
    intros [p' [Hp' Hn']%(unregister_pending conn nodeId st Hconn Hne)]. congruence. }
  exact (unregister_promises_rejected conn nodeId st Hconn Hne id p Hc Hp Hn).
Qed.

Lemma unregister_rejects_pending_witness :
  let st' := (unregister "conn-1" Scenario.invoking).1 in
  (unregister "conn-1" Scenario.invoking).2 = Some "node-1"
  ∧ timers st' !! 0%nat = None
  ∧ pendingInvokes st' !! "req-1" = None
  ∧ promises st' !! 0%nat = Some (Rejected "node disconnected (system.run)").
Proof.
  apply (unregister_rejects_pending Scenario.toy_runtime "conn-1" "node-1"
           Scenario.invoking "req-1"
           {| pi_nodeId := "node-1"; pi_command := "system.run"; pi_call := 0 |}).
  - apply reachable_invoking.
  - reflexivity.
  - discriminate.
  - reflexivity.
  - reflexivity.
Defined.

(** C2 fails as written: the caller of an invoke cut off by [unregister]
    gets a rejected promise, not the value
    [{ ok: false, error: { code: "NOT_CONNECTED" } }]. *)
Lemma unregister_does_not_resolve :
  let st' := (unregister "conn-1" Scenario.invoking).1 in
  promises st' !! 0%nat = Some (Rejected "node disconnected (system.run)")
  ∧ ∀ value, promises st' !! 0%nat ≠ Some (Resolved value).
Proof. split; [reflexivity|]. intros value H. vm_compute in H. discriminate. Qed.

(** ** The chunk handler, branch by branch *)

Lemma handleInvokeResultChunk_unknown rt params st :
  (∀ t, invokeTransfers st !! cp_id params = Some t →
        tr_nodeId t ≠ cp_nodeId params) →
  handleInvokeResultChunk rt params st =
    (match pendingInvokes st !! cp_id params with
     | Some pending =>
         if bool_decide (pi_nodeId pending = cp_nodeId params)
         then resolveInvokeError (cp_id params) (cp_nodeId params)
                (invalid_request "unknown invoke id") st
         else st
     | None => st
     end,
     TransferFail UnknownInvokeId "unknown invoke id").
Proof.
  intros Hmiss. unfold handleInvokeResultChunk.
  destruct (invokeTransfers st !! cp_id params) as [t|] eqn:Ht; [|done].
  rewrite bool_decide_eq_true_2; [by apply Hmiss|done].
Qed.

Lemma handleInvokeResultChunk_known rt params st t :
  invokeTransfers st !! cp_id params = Some t →
  tr_nodeId t = cp_nodeId params →
  let id := cp_id params in
  let nodeId := cp_nodeId params in
  let decoded := base64_decode rt (cp_data params) in
  let t' := advance t decoded in
  let st1 := set_invokeTransfers (insert id t') st in
  handleInvokeResultChunk rt params st =
    if bool_decide (cp_index params ≠ tr_nextIndex t
                    ∨ cp_index params >= tr_chunkCount t) then
      (resolveInvokeError id nodeId (invalid_request "chunk out of order") st,
       TransferFail ChunkOutOfOrder "chunk out of order")
    else if bool_decide (Z.of_nat (length decoded) ≠ cp_bytes params) then
      (resolveInvokeError id nodeId (invalid_request "chunk bytes mismatch") st,
       TransferFail ChunkBytesMismatch "chunk bytes mismatch")
    else if bool_decide (tr_bytesReceived t' > tr_totalBytes t) then
      (resolveInvokeError id nodeId (invalid_request "chunk bytes mismatch") st,
       TransferFail ChunkBytesMismatch "chunk bytes mismatch")
    else if bool_decide (tr_nextIndex t' = tr_chunkCount t) then
      if bool_decide (tr_bytesReceived t' ≠ tr_totalBytes t) then
        (resolveInvokeError id nodeId (invalid_request "chunk bytes mismatch") st1,
         TransferFail ChunkBytesMismatch "chunk bytes mismatch")
      else if bool_decide (toLowerCase (sha256_hex rt (tr_hash t')) ≠ tr_sha256 t) then
        (resolveInvokeError id nodeId (invalid_request "hash mismatch") st1,
         TransferFail HashMismatch "hash mismatch")
      else
        ((handleInvokeResult
            {| rp_id := id; rp_nodeId := nodeId; rp_ok := true;
               rp_payload := None;
               rp_payloadJSON :=
                 Some (utf8_decode rt (Buffer_concat (tr_chunks t') (tr_totalBytes t)));
               rp_error := None |}
            st1).1,
         TransferOk)
    else (st1, TransferOk).
Proof.
  intros Ht Hn. unfold handleInvokeResultChunk. rewrite Ht.
  rewrite bool_decide_eq_false_2; [by intros ?|]. done.
Qed.

(** ** What one operation does to one pending invoke *)

Section Local.
Context (rt : NodeRuntime) (st : State) (id : string) (p : PendingInvoke).
Hypothesis Hc : consistent st.
Hypothesis Hp : pendingInvokes st !! id = Some p.

Lemma still_pending_now : still_pending st id p.
Proof. split; [done|]. exact (pending_unsettled _ Hc _ _ Hp). Qed.

Lemma other_call id' p' :
  id' ≠ id → pendingInvokes st !! id' = Some p' → pi_call p ≠ pi_call p'.
Proof.
  intros Hne Hp' Hcall. apply Hne.
  exact (pending_call_inj st _ _ _ _ Hc Hp' Hp (eq_sym Hcall)).
Qed.

Lemma handleInvokeResult_local params :
  let st' := (handleInvokeResult params st).1 in
  (still_pending st' id p ∧ invokeTransfers st' !! id = invokeTransfers st !! id)
  ∨ ((rp_id params = id ∧ rp_nodeId params = pi_nodeId p) ∧ ended st' id p).
Proof.
  simpl. destruct (pendingInvokes st !! rp_id params) as [p'|] eqn:Hp'.
  2: { rewrite handleInvokeResult_miss; [by rewrite Hp'|].
       left. split; [apply still_pending_now|done]. }
  destruct (decide (pi_nodeId p' = rp_nodeId params)) as [Hn|Hn].
  2: { rewrite handleInvokeResult_miss; [rewrite Hp'; by intros ? [= <-]|].
       left. split; [apply still_pending_now|done]. }
  destruct (handleInvokeResult_hit params st p' Hp' Hn) as (_ & E1 & E2 & E3 & E4 & _).
  destruct (decide (rp_id params = id)) as [Hid|Hid].
  - right. rewrite Hid in Hp'. assert (p' = p) as -> by congruence.
    split; [done|]. split; [|split].
    + by rewrite E1 Hid lookup_delete_eq.
    + by rewrite E3 Hid lookup_delete_eq.
    + rewrite E4 lookup_settle_fresh; [|done]. apply still_pending_now.
  - left. split; [split|].
    + rewrite E1 lookup_delete_ne; done.
    + rewrite E4 lookup_settle_ne; [by apply (other_call (rp_id params))|].
      apply still_pending_now.
    + rewrite E3 lookup_delete_ne; done.
Qed.

Lemma resolveInvokeError_local id' nodeId err :
  let st' := resolveInvokeError id' nodeId err st in
  (still_pending st' id p ∧ invokeTransfers st' !! id = invokeTransfers st !! id)
  ∨ ((id' = id ∧ nodeId = pi_nodeId p) ∧ ended st' id p).
Proof.
  apply (handleInvokeResult_local
           {| rp_id := id'; rp_nodeId := nodeId; rp_ok := false;
              rp_payload := None; rp_payloadJSON := None; rp_error := Some err |}).
Qed.

Lemma fireTimer_local call :
  let st' := fireTimer call st in
  (still_pending st' id p ∧ invokeTransfers st' !! id = invokeTransfers st !! id)
  ∨ (call = pi_call p ∧ ended st' id p).
Proof.
  simpl. unfold fireTimer.
  destruct (timers st !! call) as [t|] eqn:Ht;
    [|left; split; [apply still_pending_now|done]].
  destruct (timer_pending _ Hc _ _ Ht) as (p' & Hp' & Hcall).
  destruct (decide (tm_requestId t = id)) as [Hid|Hid].
  - right. rewrite Hid in Hp'. assert (p' = p) as -> by congruence.
    split; [done|]. unfold ended. tables. rewrite Hid !lookup_delete_eq.
    split; [done|]. split; [done|].
    rewrite -Hcall lookup_settle_fresh; [|done]. apply still_pending_now.
  - left. unfold still_pending. tables.
    rewrite !lookup_delete_ne; [done..|].
    rewrite lookup_settle_ne.
    { rewrite -Hcall. by apply (other_call (tm_requestId t)). }
    split; [split; [done|apply still_pending_now]|done].
Qed.

Lemma unregister_local conn :
  let st' := (unregister conn st).1 in
  (still_pending st' id p ∧ invokeTransfers st' !! id = invokeTransfers st !! id)
  ∨ (nodesByConn st !! conn = Some (pi_nodeId p) ∧ ended st' id p).
Proof.
  simpl. destruct (nodesByConn st !! conn) as [nodeId|] eqn:Hconn.
  2: { unfold unregister. rewrite Hconn.
       left. split; [apply still_pending_now|done]. }
  destruct (decide (nodeId = "")) as [->|Hne].
  { unfold unregister. rewrite Hconn. simpl.
    left. split; [apply still_pending_now|done]. }
  destruct (decide (pi_nodeId p = nodeId)) as [Hn|Hn].
  - right. split; [by rewrite Hn|]. split; [|split].
    + apply eq_None_not_Some.
      intros [p' [Hp' Hn']%(unregister_pending conn nodeId st Hconn Hne)]. congruence.
    + apply eq_None_not_Some.
      intros [t [Ht Hn']%(unregister_transfers conn nodeId st Hconn Hne)].
      destruct (transfer_owned _ Hc _ _ Ht) as (p' & Hp' & Hnp'). congruence.
    + rewrite (unregister_promises_rejected conn nodeId st Hconn Hne id p); eauto.
  - left. split; [split|].
    + by apply (unregister_pending conn nodeId st Hconn Hne).
    + rewrite (unregister_promises_kept conn nodeId st Hconn Hne).
      * intros (id2 & p2 & Hp2 & Hn2 & Hcall).
        assert (id2 = id) as -> by exact (pending_call_inj st _ _ _ _ Hc Hp2 Hp Hcall).
        congruence.
      * apply still_pending_now.
    + destruct (invokeTransfers st !! id) as [t|] eqn:Ht.
      * apply (unregister_transfers conn nodeId st Hconn Hne). split; [done|].
        destruct (transfer_owned _ Hc _ _ Ht) as (p' & Hp' & Hnp'). congruence.
      * apply eq_None_not_Some.
        intros [t [Ht' _]%(unregister_transfers conn nodeId st Hconn Hne)]. congruence.
Qed.

Lemma invoke_local params requestId sendOk :
  pendingInvokes st !! requestId = None →
  let st' := (invoke params requestId sendOk st).1 in
  still_pending st' id p ∧ invokeTransfers st' !! id = invokeTransfers st !! id.
Proof.
  intros Hfresh. simpl. unfold invoke.
  destruct (nodesById st !! iv_nodeId params);
    [|split; [apply still_pending_now|done]].
  destruct (stringifies (iv_params params));
    [|split; [apply still_pending_now|done]].
  destruct sendOk; [|split; [apply still_pending_now|done]].
  split; [split|done]; simpl.
  - rewrite lookup_insert_ne; [congruence|done].
  - apply still_pending_now.
Qed.

End Local.

Lemma consistent_advance id t decoded st :
  consistent st → invokeTransfers st !! id = Some t →
  consistent (set_invokeTransfers (insert id (advance t decoded)) st).
Proof.
  intros Hc Ht. destruct (transfer_counts _ Hc _ _ Ht) as (Hn & Hh & Hb).
  apply consistent_insert_transfer; simpl; try done.
  - apply (transfer_owned _ Hc _ _ Ht).
  - rewrite length_app /=. lia.
  - by rewrite concat_app /= app_nil_r Hh.
  - rewrite concat_app /= app_nil_r length_app. lia.
  - apply (transfer_sha_lower _ Hc _ _ Ht).
Qed.

Lemma handleInvokeResultChunk_result rt params st t :
  invokeTransfers st !! cp_id params = Some t →
  tr_nodeId t = cp_nodeId params →
  let t' := advance t (base64_decode rt (cp_data params)) in
  (handleInvokeResultChunk rt params st).2 =
    if bool_decide (cp_index params ≠ tr_nextIndex t
                    ∨ cp_index params >= tr_chunkCount t) then
      TransferFail ChunkOutOfOrder "chunk out of order"
    else if bool_decide (Z.of_nat (length (base64_decode rt (cp_data params)))
                         ≠ cp_bytes params) then
      TransferFail ChunkBytesMismatch "chunk bytes mismatch"
    else if bool_decide (tr_bytesReceived t' > tr_totalBytes t) then
      TransferFail ChunkBytesMismatch "chunk bytes mismatch"
    else if bool_decide (tr_nextIndex t' = tr_chunkCount t) then
      if bool_decide (tr_bytesReceived t' ≠ tr_totalBytes t) then
        TransferFail ChunkBytesMismatch "chunk bytes mismatch"
      else if bool_decide (toLowerCase (sha256_hex rt (tr_hash t')) ≠ tr_sha256 t) then
        TransferFail HashMismatch "hash mismatch"
      else TransferOk
    else TransferOk.
Proof.
  intros Ht Hn. rewrite (handleInvokeResultChunk_known rt params st t Ht Hn).
  simpl. by repeat case_bool_decide.
Qed.

(** A chunk is accepted only at the index the transfer expects. *)
Lemma accepts_in_order rt st op id :
  accepts rt st op id = true →
  ∃ params t,
    op = OpChunk params ∧ cp_id params = id
    ∧ invokeTransfers st !! id = Some t
    ∧ tr_nodeId t = cp_nodeId params
    ∧ cp_index params = tr_nextIndex t
    ∧ cp_index params < tr_chunkCount t.
Proof.
  destruct op as [| | | | | |params|]; try done. simpl.
  intros [Hid%bool_decide_eq_true Hok]%andb_prop.
  exists params. destruct (invokeTransfers st !! cp_id params) as [t|] eqn:Ht.
  2: { rewrite handleInvokeResultChunk_unknown in Hok; [by rewrite Ht|done]. }
  destruct (decide (tr_nodeId t = cp_nodeId params)) as [Hn|Hn].
  2: { rewrite handleInvokeResultChunk_unknown in Hok; [|done].
       rewrite Ht. by intros ? [= <-]. }
  exists t. rewrite -Hid. repeat split; try done;
    rewrite (handleInvokeResultChunk_result rt params st t Ht Hn) in Hok;
    case_bool_decide as Hord; try done; lia.
Qed.

Section LocalFrames.
Context (rt : NodeRuntime) (st : State) (id : string) (p : PendingInvoke).
Hypothesis Hc : consistent st.
Hypothesis Hp : pendingInvokes st !! id = Some p.

Lemma startInvokeResultTransfer_local params :
  let st' := (startInvokeResultTransfer params st).1 in
  (still_pending st' id p ∧ transfer_change rt st (OpStart params) id st')
  ∨ ((sp_id params = id ∧ sp_nodeId params = pi_nodeId p) ∧ ended st' id p).
Proof.
  simpl. pose proof (still_pending_now st id p Hc Hp) as Hstill.
  assert (Hkeep : ∀ st', still_pending st' id p
                         ∧ invokeTransfers st' !! id = invokeTransfers st !! id →
            still_pending st' id p ∧ transfer_change rt st (OpStart params) id st').
  { intros st' [? ?]. split; [done|]. by apply tc_same. }
  unfold startInvokeResultTransfer.
  destruct (pendingInvokes st !! sp_id params) as [p'|] eqn:Hp'; [|left; by apply Hkeep].
  case_bool_decide as Hn; [left; by apply Hkeep|].
  case_bool_decide as Hhas;
    [destruct (resolveInvokeError_local st id p Hc Hp (sp_id params)
                 (sp_nodeId params) (invalid_request "chunk out of order"));
       [left; by apply Hkeep|by right]|].
  case_bool_decide;
    [destruct (resolveInvokeError_local st id p Hc Hp (sp_id params)
                 (sp_nodeId params) (invalid_request "payload too large"));
       [left; by apply Hkeep|by right]|].
  case_bool_decide;
    [destruct (resolveInvokeError_local st id p Hc Hp (sp_id params)
                 (sp_nodeId params) (invalid_request "payload too large"));
       [left; by apply Hkeep|by right]|].
  destruct (sp_sha256 params) as [sha256|]; [|left; by apply Hkeep].
  left. split; [done|]. simpl.
  destruct (decide (sp_id params = id)) as [Hid|Hid].
  - eapply tc_created; simpl.
    + rewrite -Hid. by apply eq_None_not_Some.
    + by rewrite Hid lookup_insert_eq.
    + done.
    + done.
  - apply tc_same; simpl; [|done]. by rewrite lookup_insert_ne.
Qed.

Lemma handleInvokeResultChunk_local params :
  let st' := (handleInvokeResultChunk rt params st).1 in
  (still_pending st' id p ∧ transfer_change rt st (OpChunk params) id st')
  ∨ ((cp_id params = id ∧ cp_nodeId params = pi_nodeId p) ∧ ended st' id p).
Proof.
  simpl. pose proof (still_pending_now st id p Hc Hp) as Hstill.
  destruct (invokeTransfers st !! cp_id params) as [t|] eqn:Ht.
  2: { (* no transfer under this id *)
    assert (Hfail : accepts rt st (OpChunk params) id = false).
    { simpl. rewrite handleInvokeResultChunk_unknown; [by rewrite Ht|].
      apply andb_false_r. }
    rewrite handleInvokeResultChunk_unknown; [by rewrite Ht|]. simpl.
    destruct (pendingInvokes st !! cp_id params) as [p'|];
      [|left; split; [done|by apply tc_same]].
    case_bool_decide; [|left; split; [done|by apply tc_same]].
    destruct (resolveInvokeError_local st id p Hc Hp (cp_id params)
                (cp_nodeId params) (invalid_request "unknown invoke id")) as [[? ?]|?];
      [left; split; [done|by apply tc_same]|by right]. }
  destruct (decide (tr_nodeId t = cp_nodeId params)) as [Hn|Hn].
  2: { (* a transfer of another node *)
    assert (Hmiss : ∀ t0, invokeTransfers st !! cp_id params = Some t0 →
              tr_nodeId t0 ≠ cp_nodeId params).
    { rewrite Ht. by intros ? [= <-]. }
    assert (Hfail : accepts rt st (OpChunk params) id = false).
    { simpl. rewrite handleInvokeResultChunk_unknown; [done|]. apply andb_false_r. }
    rewrite handleInvokeResultChunk_unknown; [done|]. simpl.
    destruct (pendingInvokes st !! cp_id params) as [p'|];
      [|left; split; [done|by apply tc_same]].
    case_bool_decide; [|left; split; [done|by apply tc_same]].
    destruct (resolveInvokeError_local st id p Hc Hp (cp_id params)
                (cp_nodeId params) (invalid_request "unknown invoke id")) as [[? ?]|?];
      [left; split; [done|by apply tc_same]|by right]. }
  (* the transfer of this node *)
  pose proof (handleInvokeResultChunk_known rt params st t Ht Hn) as E.
  simpl in E.
  set (t' := advance t (base64_decode rt (cp_data params))) in *.
  set (st1 := set_invokeTransfers (insert (cp_id params) t') st) in *.
  assert (Hc1 : consistent st1) by by apply consistent_advance.
  assert (Hp1 : pendingInvokes st1 !! id = Some p) by done.
  assert (Hrej : ∀ message,
            accepts rt st (OpChunk params) id = false →
            let st' := resolveInvokeError (cp_id params) (cp_nodeId params)
                         (invalid_request message) st in
            (still_pending st' id p ∧ transfer_change rt st (OpChunk params) id st')
            ∨ ((cp_id params = id ∧ cp_nodeId params = pi_nodeId p) ∧ ended st' id p)).
  { intros message Hfail.
    destruct (resolveInvokeError_local st id p Hc Hp (cp_id params)
                (cp_nodeId params) (invalid_request message)) as [[? ?]|?];
      [left; split; [done|by apply tc_same]|by right]. }
  assert (Hend : ∀ params1,
            rp_id params1 = cp_id params → rp_nodeId params1 = cp_nodeId params →
            accepts rt st (OpChunk params) id = false
            ∨ cp_id params = id →
            let st' := (handleInvokeResult params1 st1).1 in
            (still_pending st' id p ∧ transfer_change rt st (OpChunk params) id st')
            ∨ ((cp_id params = id ∧ cp_nodeId params = pi_nodeId p) ∧ ended st' id p)).
  { intros params1 Hid1 Hn1 Hacc.
    destruct (handleInvokeResult_local st1 id p Hc1 Hp1 params1)
      as [[Hs Htr]|[[Hid2 Hn2] He]].
    - left. split; [done|].
      destruct (decide (cp_id params = id)) as [Hid|Hid].
      + (* the owner is pending, so the result is for it: it has ended *)
        exfalso. destruct (transfer_owned _ Hc _ _ Ht) as (p0 & Hp0 & Hn0).
        rewrite Hid in Hp0. assert (p0 = p) as -> by congruence.
        destruct (handleInvokeResult_hit params1 st1 p) as (_ & E1 & _).
        { by rewrite Hid1 Hid. }
        { congruence. }
        destruct Hs as [Hs _]. rewrite E1 Hid1 Hid lookup_delete_eq in Hs. done.
      + destruct Hacc as [Hfail|?]; [|done].
        apply tc_same; [|done].
        rewrite Htr. subst st1. simpl. by rewrite lookup_insert_ne.
    - right. split; [|done]. split; congruence. }
  pose proof (handleInvokeResultChunk_result rt params st t Ht Hn) as R.
  simpl in R. fold t' in R.
  assert (Hresult : ∀ b,
            is_ok (handleInvokeResultChunk rt params st).2 = b →
            b = false ∨ cp_id params = id →
            accepts rt st (OpChunk params) id = b).
  { intros b Hb Hor. simpl. rewrite Hb.
    destruct Hor as [->|Hid]; [apply andb_false_r|].
    by rewrite bool_decide_eq_true_2. }
  rewrite E. clear E.
  case_bool_decide as Hord.
  { apply Hrej, Hresult; [by rewrite R|by left]. }
  case_bool_decide as Hlen.
  { apply Hrej, Hresult; [by rewrite R|by left]. }
  case_bool_decide as Hfit.
  { apply Hrej, Hresult; [by rewrite R|by left]. }
  assert (Hacc : accepts rt st (OpChunk params) id = false ∨ cp_id params = id).
  { destruct (decide (cp_id params = id)) as [Hid|Hid]; [by right|left].
    simpl. by rewrite bool_decide_eq_false_2. }
  case_bool_decide as Hlast.
  - case_bool_decide as Hsize; [by apply Hend|].
    case_bool_decide as Hhash; [by apply Hend|]. by apply Hend.
  - left. simpl. split; [done|].
    destruct (decide (cp_id params = id)) as [Hid|Hid].
    + eapply (tc_advanced _ _ _ _ _ params t); try done.
      * by rewrite -Hid.
      * subst st1. simpl. by rewrite -Hid lookup_insert_eq.
      * apply Hresult; [by rewrite R|by right].
    + apply tc_same; [|by destruct Hacc].
      subst st1. simpl. by rewrite lookup_insert_ne.
Qed.

Lemma abortInvokeResultTransfer_local params :
  let st' := (abortInvokeResultTransfer params st).1 in
  (still_pending st' id p ∧ invokeTransfers st' !! id = invokeTransfers st !! id)
  ∨ ((ap_id params = id ∧ ap_nodeId params = pi_nodeId p) ∧ ended st' id p).
Proof.
  simpl. pose proof (still_pending_now st id p Hc Hp) as Hstill.
  assert (Horphan :
    (∀ p', pendingInvokes st !! ap_id params = Some p' →
           pi_nodeId p' ≠ ap_nodeId params) →
    let st' :=
      match invokeTransfers st !! ap_id params with
      | Some transfer =>
          if bool_decide (tr_nodeId transfer = ap_nodeId params)
          then clearInvokeTransfer (ap_id params) st
          else st
      | None => st
      end in
    still_pending st' id p ∧ invokeTransfers st' !! id = invokeTransfers st !! id).
  { intros Hmiss. simpl.
    destruct (invokeTransfers st !! ap_id params) as [t|] eqn:Ht; [|done].
    case_bool_decide as Hn; [|done].
    destruct (transfer_owned _ Hc _ _ Ht) as (p' & Hp' & Hn').
    destruct (Hmiss p' Hp'). congruence. }
  unfold abortInvokeResultTransfer.
  destruct (pendingInvokes st !! ap_id params) as [p'|] eqn:Hp'.
  2: { left. apply Horphan. by intros ? [=]. }
  case_bool_decide as Hn.
  { left. apply Horphan. by intros ? [= <-]. }
  simpl.
  match goal with
  | |- context [handleInvokeResult ?params1 st] =>
      destruct (handleInvokeResult_local st id p Hc Hp params1) as [?|[[? ?] ?]]
  end; [by left|by right].
Qed.

End LocalFrames.

(** Every operation either leaves a pending invoke waiting, or ends it;
    and it ends it only if it is aimed at it. *)
Lemma step_local rt st op id p :
  consistent st → fresh_op st op →
  pendingInvokes st !! id = Some p →
  let st' := step rt st op in
  (still_pending st' id p ∧ transfer_change rt st op id st')
  ∨ (targets st id p op ∧ ended st' id p).
Proof.
  intros Hc Hfresh Hp. simpl.
  assert (Hkeep : ∀ st', accepts rt st op id = false →
            still_pending st' id p
            ∧ invokeTransfers st' !! id = invokeTransfers st !! id →
            still_pending st' id p ∧ transfer_change rt st op id st').
  { intros st' Hacc [? ?]. split; [done|]. by apply tc_same. }
  destruct op; simpl in *.
  - left. apply Hkeep; [done|]. split; [|done].
    apply (still_pending_now st id p Hc Hp).
  - destruct (unregister_local st id p Hc Hp conn); [left; by apply Hkeep|by right].
  - left. apply Hkeep; [done|]. by apply invoke_local.
  - destruct (fireTimer_local st id p Hc Hp call); [left; by apply Hkeep|by right].
  - destruct (handleInvokeResult_local st id p Hc Hp params);
      [left; by apply Hkeep|by right].
  - apply (startInvokeResultTransfer_local rt st id p Hc Hp params).
  - apply (handleInvokeResultChunk_local rt st id p Hc Hp params).
  - destruct (abortInvokeResultTransfer_local st id p Hc Hp params);
      [left; by apply Hkeep|by right].
Qed.

(** ** Chunks are accepted in order *)









(** ** The chunk handler against the specification *)



Lemma Buffer_concat_exact chunks totalLength :
  Z.of_nat (length (concat chunks)) = totalLength →
  Buffer_concat chunks totalLength = concat chunks.
Proof.
  intros <-. unfold Buffer_concat. rewrite Nat2Z.id firstn_all Nat.sub_diag.
  apply app_nil_r.
Qed.

Lemma startInvokeResultTransfer_created params st :
  (startInvokeResultTransfer params st).2 = TransferOk →
  ∃ t, invokeTransfers (startInvokeResultTransfer params st).1 !! sp_id params
       = Some t
       ∧ Some (tr_sha256 t) = toLowerCase <$> sp_sha256 params
       ∧ tr_totalBytes t = sp_totalBytes params
       ∧ tr_chunkCount t = sp_chunkCount params.
Proof.
  unfold startInvokeResultTransfer.
  destruct (pendingInvokes st !! sp_id params); [|done].
  repeat case_bool_decide; try done.
  destruct (sp_sha256 params) as [sha256|]; [|done]. intros _. simpl.
  rewrite lookup_insert_eq. by eexists.
Qed.

(** C5: a chunked transfer completes successfully only when, with the
    chunk in hand, [nextIndex] reaches [chunkCount], the bytes received
    number [totalBytes] and the lower-cased hex SHA-256 of the bytes received
    equals the expected digest (itself kept in lower case); the owning
    invoke is then resolved with [ok = true] and [payloadJSON] the UTF-8
    decoding of the chunks concatenated in index order; when the size or the
    hash check fails it is resolved with [INVALID_REQUEST] instead. *)
Theorem transfer_completion rt st params t :
  reachable rt st →
  invokeTransfers st !! cp_id params = Some t →
  tr_nodeId t = cp_nodeId params →
  let decoded := base64_decode rt (cp_data params) in
  let received := concat (tr_chunks t) ++ decoded in
  let st' := (handleInvokeResultChunk rt params st).1 in
  let result := (handleInvokeResultChunk rt params st).2 in
  let in_order :=
    cp_index params = tr_nextIndex t ∧ cp_index params < tr_chunkCount t
    ∧ Z.of_nat (length decoded) = cp_bytes params in
  let last := tr_nextIndex t + 1 = tr_chunkCount t in
  let complete := Z.of_nat (length received) = tr_totalBytes t in
  let hash_ok := toLowerCase (sha256_hex rt received) = tr_sha256 t in
  (∀ st0 start,
     (startInvokeResultTransfer start st0).2 = TransferOk →
     ∃ t0, invokeTransfers (startInvokeResultTransfer start st0).1 !! sp_id start
           = Some t0
           ∧ Some (tr_sha256 t0) = toLowerCase <$> sp_sha256 start
           ∧ tr_totalBytes t0 = sp_totalBytes start
           ∧ tr_chunkCount t0 = sp_chunkCount start)
  ∧ ∃ p, pendingInvokes st !! cp_id params = Some p
    ∧ (∃ sha256, tr_sha256 t = toLowerCase sha256)
    ∧ ((∃ value, promises st' !! pi_call p = Some (Resolved value)
                 ∧ ok value = true) →
       in_order ∧ last ∧ complete ∧ hash_ok)
    ∧ (in_order → last → complete → hash_ok →
       result = TransferOk
       ∧ promises st' !! pi_call p
         = Some (Resolved {| ok := true; payload := None;
                             payloadJSON := Some (utf8_decode rt received);
                             error := None |})
       ∧ pendingInvokes st' !! cp_id params = None
       ∧ invokeTransfers st' !! cp_id params = None)
    ∧ (in_order → last → ¬ complete →
       result = TransferFail ChunkBytesMismatch "chunk bytes mismatch"
       ∧ promises st' !! pi_call p
         = Some (Resolved (error_result "INVALID_REQUEST" "chunk bytes mismatch")))
    ∧ (in_order → last → complete → ¬ hash_ok →
       result = TransferFail HashMismatch "hash mismatch"
       ∧ promises st' !! pi_call p
         = Some (Resolved (error_result "INVALID_REQUEST" "hash mismatch"))).
Proof.
  intros Hc%reachable_consistent Ht Hn. simpl.
  split; [intros st0 start; apply startInvokeResultTransfer_created|].
  destruct (transfer_owned _ Hc _ _ Ht) as (p & Hp & Hnp).
  destruct (transfer_counts _ Hc _ _ Ht) as (Hnext & Hhash & Hbytes).
  exists p. split; [done|]. split; [exact (transfer_sha_lower _ Hc _ _ Ht)|].
  assert (Hpn : pi_nodeId p = cp_nodeId params) by congruence.
  set (decoded := base64_decode rt (cp_data params)).
  set (received := (concat (tr_chunks t) ++ decoded)%list).
  set (t' := advance t decoded).
  set (st1 := set_invokeTransfers (insert (cp_id params) t') st).
  assert (Hc1 : consistent st1) by by apply consistent_advance.
  assert (Hp1 : pendingInvokes st1 !! cp_id params = Some p) by done.
  assert (Hrecv : tr_bytesReceived t' = Z.of_nat (length received)).
  { subst t' received. simpl. rewrite Hbytes length_app. lia. }
  assert (Hh : tr_hash t' = received).
  { subst t' received. simpl. by rewrite Hhash. }
  assert (Hchunks : concat (tr_chunks t') = received).
  { subst t' received. simpl. by rewrite concat_app /= app_nil_r. }
  assert (Hlast : tr_nextIndex t' = tr_nextIndex t + 1) by done.
  pose proof (still_pending_now st _ p Hc Hp) as [_ Hunsettled].
  pose proof (handleInvokeResultChunk_known rt params st t Ht Hn) as E.
  cbv zeta in E. fold decoded in E. fold t' in E. fold st1 in E. rewrite Hh in E.
  (* what a rejection leaves in the promise *)
  assert (Hrej : ∀ message st0, consistent st0 →
            pendingInvokes st0 !! cp_id params = Some p →
            promises (resolveInvokeError (cp_id params) (cp_nodeId params)
                        (invalid_request message) st0) !! pi_call p
            = Some (Resolved (error_result "INVALID_REQUEST" message))).
  { intros message st0 Hc0 Hp0.
    by apply (resolveInvokeError_owner (cp_id params) (cp_nodeId params) message st0 p). }
  rewrite E. clear E. rewrite Hrecv Hlast.
  case_bool_decide as Hord.
  { simpl. rewrite -> (Hrej _ st Hc Hp).
    split; [by intros (value & [= <-] & ?)|].
    repeat split; first [done | exfalso; lia]. }
  case_bool_decide as Hlen.
  { simpl. rewrite -> (Hrej _ st Hc Hp).
    split; [by intros (value & [= <-] & ?)|].
    repeat split; first [done | exfalso; lia]. }
  case_bool_decide as Hfit.
  { simpl. rewrite -> (Hrej _ st Hc Hp).
    split; [by intros (value & [= <-] & ?)|].
    repeat split; first [done | exfalso; lia]. }
  case_bool_decide as Hend.
  2: { simpl. rewrite Hunsettled.
       split; [by intros (value & [=] & ?)|].
       repeat split; first [done | exfalso; lia]. }
  case_bool_decide as Hsize.
  { simpl. rewrite -> (Hrej _ st1 Hc1 Hp1).
    split; [by intros (value & [= <-] & ?)|].
    repeat split; first [done | exfalso; lia]. }
  case_bool_decide as Hsha.
  { simpl. rewrite -> (Hrej _ st1 Hc1 Hp1).
    split; [by intros (value & [= <-] & ?)|].
    repeat split; first [done | exfalso; lia]. }
  match goal with
  | |- context [handleInvokeResult ?params1 st1] =>
      destruct (handleInvokeResult_hit params1 st1 p Hp1 Hpn)
        as (_ & E1 & _ & E3 & E4 & _)
  end.
  simpl. rewrite E1 E3 E4 /= !lookup_delete_eq.
  rewrite lookup_settle_fresh; [done|].
  rewrite Buffer_concat_exact; [by rewrite Hchunks|]. rewrite Hchunks.
  repeat split; first [done | lia].
Qed.

Lemma reachable_receiving : reachable Scenario.toy_runtime Scenario.receiving.
Proof.
  exists [Scenario.register_node "conn-1" "node-1";
          Scenario.invoke_run "node-1" "req-1";
          OpStart (Scenario.start_transfer "req-1" "node-1" 6 2 "FEDCBA");
          OpChunk (Scenario.chunk "req-1" "node-1" 0 "abcd")].
  split; [|done]. compute_done.
Qed.

Lemma reachable_stuck : reachable Scenario.toy_runtime Scenario.stuck.
Proof.
  exists [Scenario.register_node "conn-1" "node-1";
          Scenario.invoke_run "node-1" "req-1";
          OpStart (Scenario.start_transfer "req-1" "node-1" 6 0 "FEDCBA")].
  split; [|done]. compute_done.
Qed.

Lemma transfer_completion_witness :
  let rt := Scenario.toy_runtime in
  let st := Scenario.receiving in
  let params := Scenario.chunk "req-1" "node-1" 1 "ef" in
  let t :=
    {| tr_nodeId := "node-1"; tr_totalBytes := 6; tr_chunkBytes := 4;
       tr_chunkCount := 2; tr_nextIndex := 1; tr_bytesReceived := 4;
       tr_sha256 := "fedcba";
       tr_hash := String.list_byte_of_string "abcd";
       tr_chunks := [String.list_byte_of_string "abcd"] |} in
  let decoded := base64_decode rt (cp_data params) in
  let received := concat (tr_chunks t) ++ decoded in
  let st' := (handleInvokeResultChunk rt params st).1 in
  let result := (handleInvokeResultChunk rt params st).2 in
  let in_order :=
    cp_index params = tr_nextIndex t ∧ cp_index params < tr_chunkCount t
    ∧ Z.of_nat (length decoded) = cp_bytes params in
  let last := tr_nextIndex t + 1 = tr_chunkCount t in
  let complete := Z.of_nat (length received) = tr_totalBytes t in
  let hash_ok := toLowerCase (sha256_hex rt received) = tr_sha256 t in
  (∀ st0 start,
     (startInvokeResultTransfer start st0).2 = TransferOk →
     ∃ t0, invokeTransfers (startInvokeResultTransfer start st0).1 !! sp_id start
           = Some t0
           ∧ Some (tr_sha256 t0) = toLowerCase <$> sp_sha256 start
           ∧ tr_totalBytes t0 = sp_totalBytes start
           ∧ tr_chunkCount t0 = sp_chunkCount start)
  ∧ ∃ p, pendingInvokes st !! cp_id params = Some p
    ∧ (∃ sha256, tr_sha256 t = toLowerCase sha256)
    ∧ ((∃ value, promises st' !! pi_call p = Some (Resolved value)
                 ∧ ok value = true) →
       in_order ∧ last ∧ complete ∧ hash_ok)
    ∧ (in_order → last → complete → hash_ok →
       result = TransferOk
       ∧ promises st' !! pi_call p
         = Some (Resolved {| ok := true; payload := None;
                             payloadJSON := Some (utf8_decode rt received);
                             error := None |})
       ∧ pendingInvokes st' !! cp_id params = None
       ∧ invokeTransfers st' !! cp_id params = None)
    ∧ (in_order → last → ¬ complete →
       result = TransferFail ChunkBytesMismatch "chunk bytes mismatch"
       ∧ promises st' !! pi_call p
         = Some (Resolved (error_result "INVALID_REQUEST" "chunk bytes mismatch")))
    ∧ (in_order → last → complete → ¬ hash_ok →
       result = TransferFail HashMismatch "hash mismatch"
       ∧ promises st' !! pi_call p
         = Some (Resolved (error_result "INVALID_REQUEST" "hash mismatch"))).
Proof.
  apply (transfer_completion Scenario.toy_runtime Scenario.receiving
           (Scenario.chunk "req-1" "node-1" 1 "ef")).
  - apply reachable_receiving.
  - reflexivity.
  - reflexivity.
Defined.

(** The run of the first test of [node-registry.test.ts], in small: both
    chunks in order, and the invoke resolves with the whole payload. *)
Example chunked_payload_assembled :
  let st' :=
    (handleInvokeResultChunk Scenario.toy_runtime
       (Scenario.chunk "req-1" "node-1" 1 "ef") Scenario.receiving).1 in
  promises st' !! 0%nat
    = Some (Resolved {| ok := true; payload := None;
                        payloadJSON := Some "abcdef"; error := None |})
  ∧ inflightBytes st' = 0
  ∧ invokeTransfers st' !! "req-1" = None.
Proof. repeat split; by vm_compute. Qed.

(** ** A transfer announced with [chunkCount = 0] *)

Lemma startInvokeResultTransfer_accepts params st p :
  pendingInvokes st !! sp_id params = Some p →
  pi_nodeId p = sp_nodeId params →
  invokeTransfers st !! sp_id params = None →
  sp_totalBytes params ≤ sp_maxInvokeResultBytes params →
  inflightBytes st + sp_totalBytes params ≤ sp_maxInflightBytes params →
  let st' := (startInvokeResultTransfer params st).1 in
  inflightBytes st' = inflightBytes st + sp_totalBytes params
  ∧ ∀ sha256, sp_sha256 params = Some sha256 →
      (startInvokeResultTransfer params st).2 = TransferOk
      ∧ invokeTransfers st' !! sp_id params
        = Some {| tr_nodeId := sp_nodeId params;
                  tr_totalBytes := sp_totalBytes params;
                  tr_chunkBytes := sp_chunkBytes params;
                  tr_chunkCount := sp_chunkCount params;
                  tr_nextIndex := 0; tr_bytesReceived := 0;
                  tr_sha256 := toLowerCase sha256;
                  tr_hash := []; tr_chunks := [] |}.
Proof.
  intros Hp Hn Ht H1 H2. unfold startInvokeResultTransfer. rewrite Hp Ht.
  rewrite bool_decide_eq_false_2; [by intros ?|].
  rewrite bool_decide_eq_false_2; [by intros [? ?]|].
  rewrite bool_decide_eq_false_2; [lia|].
  rewrite bool_decide_eq_false_2; [lia|].
  destruct (sp_sha256 params) as [sha|]; simpl; (split; [done|]); [|done].
  intros ? [= <-]. by rewrite lookup_insert_eq.
Qed.

(** C10 (as amended): [startInvokeResultTransfer] checks nothing about
    [chunkCount] or [chunkBytes] against [totalBytes]: a start frame within
    the byte limits has its [totalBytes] counted in flight and, its
    [sha256] being a string, is accepted whatever they are.  A transfer with [chunkCount = 0] never completes:
    every chunk for it is answered [chunk-out-of-order] and resolves the
    owning invoke with [INVALID_REQUEST]; and each operation either leaves
    the invoke pending with its transfer as it was, or ends it, which only
    an operation aimed at it does: a chunk or a second start frame for it
    (a rejection), a direct result for it, its timeout, an abort, or the
    unregistering of its node. *)
Theorem zero_chunk_transfer_never_completes rt st id t p :
  reachable rt st →
  invokeTransfers st !! id = Some t → tr_chunkCount t = 0 →
  pendingInvokes st !! id = Some p →
  (∀ st0 params p0,
     pendingInvokes st0 !! sp_id params = Some p0 →
     pi_nodeId p0 = sp_nodeId params →
     invokeTransfers st0 !! sp_id params = None →
     sp_totalBytes params ≤ sp_maxInvokeResultBytes params →
     inflightBytes st0 + sp_totalBytes params ≤ sp_maxInflightBytes params →
     let st1 := (startInvokeResultTransfer params st0).1 in
     inflightBytes st1 = inflightBytes st0 + sp_totalBytes params
     ∧ (is_Some (sp_sha256 params) →
        (startInvokeResultTransfer params st0).2 = TransferOk
        ∧ ∃ t1, invokeTransfers st1 !! sp_id params = Some t1
                ∧ tr_chunkCount t1 = sp_chunkCount params
                ∧ tr_chunkBytes t1 = sp_chunkBytes params
                ∧ tr_totalBytes t1 = sp_totalBytes params))
  ∧ (∀ params, cp_id params = id → cp_nodeId params = tr_nodeId t →
     (handleInvokeResultChunk rt params st).2
       = TransferFail ChunkOutOfOrder "chunk out of order"
     ∧ promises (handleInvokeResultChunk rt params st).1 !! pi_call p
       = Some (Resolved (error_result "INVALID_REQUEST" "chunk out of order")))
  ∧ (∀ op, fresh_op st op →
     let st' := step rt st op in
     (still_pending st' id p ∧ invokeTransfers st' !! id = Some t)
     ∨ (targets st id p op ∧ ended st' id p)).
Proof.
  intros Hc%reachable_consistent Ht Hzero Hp.
  destruct (transfer_counts _ Hc _ _ Ht) as (Hnext & _).
  destruct (transfer_owned _ Hc _ _ Ht) as (p' & Hp' & Hnp).
  assert (p' = p) as -> by congruence.
  split; [|split].
  - intros st0 params p0 Hp0 Hn0 Ht0 H1 H2.
    destruct (startInvokeResultTransfer_accepts params st0 p0 Hp0 Hn0 Ht0 H1 H2)
      as (E1 & E2).
    split; [done|]. intros [sha256 Hsha]. destruct (E2 sha256 Hsha) as [E3 E4].
    split; [done|]. eexists. split; [exact E4|]. by repeat split.
  - intros params <- Hn.
    rewrite (handleInvokeResultChunk_known rt params st t Ht (eq_sym Hn)).
    rewrite bool_decide_eq_true_2; [lia|]. simpl. split; [done|].
    apply resolveInvokeError_owner; [done..|congruence].
  - intros op Hfresh. simpl.
    destruct (step_local rt st op id p Hc Hfresh Hp) as [[Hstill Hchange]|?];
      [left|by right].
    split; [done|].
    destruct Hchange as [Hsame _|? Hnone _ _ _|params t0 _ _ _ _ Hacc].
    + by rewrite Hsame.
    + congruence.
    + destruct (accepts_in_order _ _ _ _ Hacc) as (? & t1 & _ & _ & Ht1 & _ & ? & ?).
      assert (t1 = t) as -> by congruence. lia.
Qed.

Lemma zero_chunk_transfer_never_completes_witness :
  let rt := Scenario.toy_runtime in
  let st := Scenario.stuck in
  let id := "req-1" in
  let t :=
    {| tr_nodeId := "node-1"; tr_totalBytes := 6; tr_chunkBytes := 4;
       tr_chunkCount := 0; tr_nextIndex := 0; tr_bytesReceived := 0;
       tr_sha256 := "fedcba"; tr_hash := []; tr_chunks := [] |} in
  let p := {| pi_nodeId := "node-1"; pi_command := "system.run"; pi_call := 0 |} in
  (∀ st0 params p0,
     pendingInvokes st0 !! sp_id params = Some p0 →
     pi_nodeId p0 = sp_nodeId params →
     invokeTransfers st0 !! sp_id params = None →
     sp_totalBytes params ≤ sp_maxInvokeResultBytes params →
     inflightBytes st0 + sp_totalBytes params ≤ sp_maxInflightBytes params →
     let st1 := (startInvokeResultTransfer params st0).1 in
     inflightBytes st1 = inflightBytes st0 + sp_totalBytes params
     ∧ (is_Some (sp_sha256 params) →
        (startInvokeResultTransfer params st0).2 = TransferOk
        ∧ ∃ t1, invokeTransfers st1 !! sp_id params = Some t1
                ∧ tr_chunkCount t1 = sp_chunkCount params
                ∧ tr_chunkBytes t1 = sp_chunkBytes params
                ∧ tr_totalBytes t1 = sp_totalBytes params))
  ∧ (∀ params, cp_id params = id → cp_nodeId params = tr_nodeId t →
     (handleInvokeResultChunk rt params st).2
       = TransferFail ChunkOutOfOrder "chunk out of order"
     ∧ promises (handleInvokeResultChunk rt params st).1 !! pi_call p
       = Some (Resolved (error_result "INVALID_REQUEST" "chunk out of order")))
  ∧ (∀ op, fresh_op st op →
     let st' := step rt st op in
     (still_pending st' id p ∧ invokeTransfers st' !! id = Some t)
     ∨ (targets st id p op ∧ ended st' id p)).
Proof.
  apply (zero_chunk_transfer_never_completes Scenario.toy_runtime Scenario.stuck).
  - apply reachable_stuck.
  - reflexivity.
  - reflexivity.
  - reflexivity.
Defined.

(** C10 fails as written in its last clause: a direct result frame for the
    invoke resolves it, with [ok = true] even, although its transfer was
    announced with no chunks; neither a rejected chunk, nor a timeout, an
    abort or an unregister is involved. *)
Lemma zero_chunk_invoke_resolved_by_direct_result :
  let reply :=
    {| rp_id := "req-1"; rp_nodeId := "node-1"; rp_ok := true;
       rp_payload := None; rp_payloadJSON := Some "{}"; rp_error := None |} in
  let st' := (handleInvokeResult reply Scenario.stuck).1 in
  is_Some (invokeTransfers Scenario.stuck !! "req-1")
  ∧ promises Scenario.stuck !! 0%nat = None
  ∧ promises st' !! 0%nat
    = Some (Resolved {| ok := true; payload := None;
                        payloadJSON := Some "{}"; error := None |})
  ∧ inflightBytes Scenario.stuck = 6 ∧ inflightBytes st' = 0.
Proof. repeat split; by vm_compute; eauto. Qed.

(** * Further properties of the node registry *)

(** ** Sessions: [register], [unregister], [get], [listConnected] *)

Lemma keyed_indexes st st' : indexes st' = indexes st → keyed st → keyed st'.
Proof. unfold indexes, keyed. intros [= E1 E2]. by rewrite E1. Qed.

Lemma keyed_step rt st op : keyed st → keyed (step rt st op).
Proof.
  intros Hk. destruct op; simpl.
  - intros n S. simpl. fold (nodeId_of client).
    destruct (decide (nodeId_of client = n)) as [<-|Hne].
    + rewrite lookup_insert_eq. by intros [= <-].
    + rewrite lookup_insert_ne; [done|]. apply Hk.
  - pose proof (unregister_indexes conn st) as E.
    destruct (nodesByConn st !! conn) as [nodeId|];
      [|exact (keyed_indexes _ _ E Hk)].
    case_bool_decide; [exact (keyed_indexes _ _ E Hk)|].
    unfold indexes in E. injection E as E1 _.
    intros n S. rewrite E1. intros [_ HS]%lookup_delete_Some. by apply Hk.
  - exact (keyed_indexes _ _ (invoke_indexes _ _ _ _) Hk).
  - exact (keyed_indexes _ _ (fireTimer_indexes _ _) Hk).
  - exact (keyed_indexes _ _ (handleInvokeResult_indexes _ _) Hk).
  - exact (keyed_indexes _ _ (startInvokeResultTransfer_indexes _ _) Hk).
  - exact (keyed_indexes _ _ (handleInvokeResultChunk_indexes _ _ _) Hk).
  - exact (keyed_indexes _ _ (abortInvokeResultTransfer_indexes _ _) Hk).
Qed.

Lemma keyed_run rt ops st : keyed st → keyed (run rt ops st).
Proof.
  revert st. induction ops as [|op ops IH]; intros st Hk; simpl; [done|].
  by apply IH, keyed_step.
Qed.

(** X1: after any sequence of operations, [listConnected] returns sessions
    with pairwise distinct node ids, and a session is listed exactly when
    [get] returns it for its node id. *)
Theorem connected_sessions_distinct rt ops :
  let st := run rt ops empty_registry in
  NoDup (ns_nodeId <$> listConnected st)
  ∧ ∀ S, S ∈ listConnected st ↔ get (ns_nodeId S) st = Some S.
Proof.
  intros st.
  assert (Hk : keyed st).
  { apply keyed_run. intros n S HS. simpl in HS. by rewrite lookup_empty in HS. }
  unfold listConnected, get. split.
  - assert (E : ns_nodeId <$> (map_to_list (nodesById st)).*2
                = (map_to_list (nodesById st)).*1).
    { rewrite -list_fmap_compose. apply list_fmap_ext.
      intros i [n S] Hi%list_elem_of_lookup_2. simpl.
      apply elem_of_map_to_list in Hi. by apply Hk. }
    rewrite E. apply NoDup_fst_map_to_list.
  - intros S. rewrite list_elem_of_fmap. split.
    + intros ([n S'] & -> & Hin%elem_of_map_to_list). simpl.
      by rewrite (Hk _ _ Hin).
    + intros HS. exists (ns_nodeId S, S). split; [done|].
      by apply elem_of_map_to_list.
Qed.

(** X2: registering a client whose connection id and node id are not
    indexed, then unregistering its connection, gives the node id back and
    leaves both indexes as they were; in between, [get] returns the new
    session. *)
Theorem register_unregister_round_trip client remoteIp now st :
  nodeId_of client ≠ "" →
  nodesByConn st !! connId client = None →
  nodesById st !! nodeId_of client = None →
  let st1 := (register client remoteIp now st).1 in
  let session := (register client remoteIp now st).2 in
  let st2 := (unregister (connId client) st1).1 in
  get (nodeId_of client) st1 = Some session
  ∧ (unregister (connId client) st1).2 = Some (nodeId_of client)
  ∧ get (nodeId_of client) st2 = None
  ∧ nodesById st2 = nodesById st
  ∧ nodesByConn st2 = nodesByConn st.
Proof.
  intros Hne Hconn Hnode. simpl.
  set (st1 := (register client remoteIp now st).1).
  assert (Hc1 : nodesByConn st1 !! connId client = Some (nodeId_of client)).
  { subst st1. simpl. by rewrite lookup_insert_eq. }
  pose proof (unregister_indexes (connId client) st1) as E.
  rewrite Hc1 bool_decide_eq_false_2 in E; [done|].
  unfold indexes in E. injection E as E1 E2.
  destruct (unregister_tables (connId client) (nodeId_of client) st1 Hc1 Hne)
    as (Hret & _).
  unfold get. rewrite E1 E2 Hret. subst st1. simpl. fold (nodeId_of client).
  rewrite lookup_insert_eq lookup_delete_eq.
  rewrite !delete_insert_eq !delete_id; done.
Qed.

Lemma register_unregister_round_trip_witness :
  let client := Scenario.node_client "conn-2" "node-2" in
  let st := Scenario.invoking in
  let st1 := (register client None 7 st).1 in
  let session := (register client None 7 st).2 in
  let st2 := (unregister "conn-2" st1).1 in
  get "node-2" st1 = Some session
  ∧ (unregister "conn-2" st1).2 = Some "node-2"
  ∧ get "node-2" st2 = None
  ∧ nodesById st2 = nodesById st
  ∧ nodesByConn st2 = nodesByConn st.
Proof.
  apply (register_unregister_round_trip
           (Scenario.node_client "conn-2" "node-2") None 7 Scenario.invoking).
  - discriminate.
  - reflexivity.
  - reflexivity.
Defined.

(** X3: a client whose node id is the empty string can be registered but
    not unregistered: [unregister] of its connection returns [null] and
    changes nothing, so the session stays. *)
Theorem empty_node_id_stays_registered client remoteIp now st :
  nodeId_of client = "" →
  let st1 := (register client remoteIp now st).1 in
  unregister (connId client) st1 = (st1, None)
  ∧ get "" st1 = Some (register client remoteIp now st).2.
Proof.
  intros Hempty. simpl. unfold unregister, get. simpl.
  fold (nodeId_of client). rewrite Hempty !lookup_insert_eq. done.
Qed.

Lemma empty_node_id_stays_registered_witness :
  let client := Scenario.node_client "conn-9" "" in
  let st1 := (register client None 0 empty_registry).1 in
  unregister "conn-9" st1 = (st1, None)
  ∧ get "" st1 = Some (register client None 0 empty_registry).2.
Proof.
  apply (empty_node_id_stays_registered (Scenario.node_client "conn-9" "")
           None 0 empty_registry).
  reflexivity.
Defined.

(** X4: when a node registers again through a second connection and the
    first connection is then unregistered, it is the second session that
    goes: [get] finds nothing under the node id, [invoke] answers
    NOT_CONNECTED and [sendEvent] answers [false], while the second
    connection id is still indexed. *)
Theorem stale_unregister_drops_new_session first second ip1 ip2 now1 now2 st :
  nodeId_of first = nodeId_of second →
  nodeId_of first ≠ "" →
  connId first ≠ connId second →
  let n := nodeId_of first in
  let st1 := (register first ip1 now1 st).1 in
  let st2 := (register second ip2 now2 st1).1 in
  let st3 := (unregister (connId first) st2).1 in
  get n st2 = Some (register second ip2 now2 st1).2
  ∧ (unregister (connId first) st2).2 = Some n
  ∧ get n st3 = None
  ∧ nodesByConn st3 !! connId second = Some n
  ∧ (∀ params requestId sendOk, iv_nodeId params = n →
       invoke params requestId sendOk st3
       = (st3, Returned (error_result "NOT_CONNECTED" "node not connected")))
  ∧ (∀ event payload sendOk, sendEvent n event payload sendOk st3 = false).
Proof.
  intros Hsame Hne Hconn. simpl.
  set (n := nodeId_of first).
  set (st1 := (register first ip1 now1 st).1).
  set (st2 := (register second ip2 now2 st1).1).
  assert (Hc2 : nodesByConn st2 !! connId first = Some n).
  { subst st2 st1. simpl. fold (nodeId_of first) (nodeId_of second).
    rewrite lookup_insert_ne; [congruence|]. by rewrite lookup_insert_eq. }
  pose proof (unregister_indexes (connId first) st2) as E.
  rewrite Hc2 bool_decide_eq_false_2 in E; [done|].
  unfold indexes in E. injection E as E1 E2.
  destruct (unregister_tables (connId first) n st2 Hc2 Hne) as (Hret & _).
  assert (Hgone : nodesById (unregister (connId first) st2).1 !! n = None).
  { by rewrite E1 lookup_delete_eq. }
  unfold get. repeat split.
  - subst st2. simpl. fold (nodeId_of second). by rewrite -Hsame lookup_insert_eq.
  - done.
  - done.
  - rewrite E2 lookup_delete_ne; [congruence|]. subst st2. simpl.
    fold (nodeId_of second). by rewrite lookup_insert_eq -Hsame.
  - intros params requestId sendOk Hn. unfold invoke. by rewrite Hn Hgone.
  - intros event payload sendOk. unfold sendEvent. by rewrite Hgone.
Qed.

Lemma stale_unregister_drops_new_session_witness :
  let first := Scenario.node_client "conn-1" "node-1" in
  let second := Scenario.node_client "conn-2" "node-1" in
  let st1 := (register first None 0 empty_registry).1 in
  let st2 := (register second None 1 st1).1 in
  let st3 := (unregister "conn-1" st2).1 in
  get "node-1" st2 = Some (register second None 1 st1).2
  ∧ (unregister "conn-1" st2).2 = Some "node-1"
  ∧ get "node-1" st3 = None
  ∧ nodesByConn st3 !! "conn-2" = Some "node-1"
  ∧ (∀ params requestId sendOk, iv_nodeId params = "node-1" →
       invoke params requestId sendOk st3
       = (st3, Returned (error_result "NOT_CONNECTED" "node not connected")))
  ∧ (∀ event payload sendOk, sendEvent "node-1" event payload sendOk st3 = false).
Proof.
  apply (stale_unregister_drops_new_session
           (Scenario.node_client "conn-1" "node-1")
           (Scenario.node_client "conn-2" "node-1") None None 0 1 empty_registry).
  - reflexivity.
  - discriminate.
  - discriminate.
Defined.

(** ** Invokes: [invoke], its timeout, [handleInvokeResult], abort *)

(** X5: the four outcomes of [invoke], for a request id that is not in
    use.  It answers NOT_CONNECTED at once when the node is not registered.
    For a registered node whose [params] cannot be serialized,
    [JSON.stringify] throws and the promise is rejected at once, nothing
    being sent.  When the frame cannot be sent it answers UNAVAILABLE at
    once.  In these three cases the registry is left as it was.  Otherwise
    it files one pending invoke under the id drawn, arms its timer (with
    [timeoutMs], or 30000 ms when that is no number; the runtime arms 1 ms
    for a delay outside 1..2^31-1) and returns a promise that is not
    settled; the other pending invokes, the transfers and the bytes in
    flight are as before. *)
Theorem invoke_outcomes rt st params requestId :
  reachable rt st →
  pendingInvokes st !! requestId = None →
  (nodesById st !! iv_nodeId params = None →
   ∀ sendOk, invoke params requestId sendOk st
             = (st, Returned (error_result "NOT_CONNECTED" "node not connected")))
  ∧ (is_Some (nodesById st !! iv_nodeId params) →
     iv_params params = ArgUnserializable →
     ∀ sendOk, invoke params requestId sendOk st = (st, Rejects))
  ∧ (is_Some (nodesById st !! iv_nodeId params) →
     iv_params params ≠ ArgUnserializable →
     invoke params requestId false st
     = (st, Returned (error_result "UNAVAILABLE" "failed to send invoke to node")))
  ∧ (is_Some (nodesById st !! iv_nodeId params) →
     iv_params params ≠ ArgUnserializable →
     let st' := (invoke params requestId true st).1 in
     let call := nextCall st in
     let ms := default 30000 (iv_timeoutMs params) in
     (invoke params requestId true st).2 = Awaiting call
     ∧ pendingInvokes st' !! requestId
       = Some {| pi_nodeId := iv_nodeId params; pi_command := iv_command params;
                 pi_call := call |}
     ∧ timers st' !! call
       = Some {| tm_requestId := requestId;
                 tm_delayMs := if bool_decide (1 ≤ ms ≤ 2147483647) then ms else 1 |}
     ∧ promises st' !! call = None
     ∧ (∀ id, id ≠ requestId → pendingInvokes st' !! id = pendingInvokes st !! id)
     ∧ (∀ h, h ≠ call → timers st' !! h = timers st !! h)
     ∧ promises st' = promises st
     ∧ invokeTransfers st' = invokeTransfers st
     ∧ inflightBytes st' = inflightBytes st).
Proof.
  intros Hc%reachable_consistent Hfresh. unfold invoke.
  assert (Hstr : iv_params params ≠ ArgUnserializable →
            stringifies (iv_params params) = true)
    by by destruct (iv_params params).
  split; [|split; [|split]].
  - by intros ->.
  - by intros [node ->] ->.
  - intros [node ->] Hser. by rewrite Hstr.
  - intros [node ->] Hser. rewrite Hstr; [done|]. simpl.
    rewrite !lookup_insert_eq. repeat split; try done.
    + destruct (promises st !! nextCall st) eqn:E; [|done].
      pose proof (promise_allocated _ Hc (nextCall st) (mk_is_Some _ _ E)). lia.
    + intros id Hne. rewrite lookup_insert_ne; [congruence|done].
    + intros h Hne. rewrite lookup_insert_ne; [congruence|done].
Qed.

Lemma invoke_outcomes_witness :
  let st := Scenario.invoking in
  let params :=
    {| iv_nodeId := "node-1"; iv_command := "system.which";
       iv_params := ArgValue (JObj [("name", JStr "git")]);
       iv_timeoutMs := None; iv_idempotencyKey := None |} in
  let requestId := "req-2" in
  (nodesById st !! iv_nodeId params = None →
   ∀ sendOk, invoke params requestId sendOk st
             = (st, Returned (error_result "NOT_CONNECTED" "node not connected")))
  ∧ (is_Some (nodesById st !! iv_nodeId params) →
     iv_params params = ArgUnserializable →
     ∀ sendOk, invoke params requestId sendOk st = (st, Rejects))
  ∧ (is_Some (nodesById st !! iv_nodeId params) →
     iv_params params ≠ ArgUnserializable →
     invoke params requestId false st
     = (st, Returned (error_result "UNAVAILABLE" "failed to send invoke to node")))
  ∧ (is_Some (nodesById st !! iv_nodeId params) →
     iv_params params ≠ ArgUnserializable →
     let st' := (invoke params requestId true st).1 in
     let call := nextCall st in
     let ms := default 30000 (iv_timeoutMs params) in
     (invoke params requestId true st).2 = Awaiting call
     ∧ pendingInvokes st' !! requestId
       = Some {| pi_nodeId := iv_nodeId params; pi_command := iv_command params;
                 pi_call := call |}
     ∧ timers st' !! call
       = Some {| tm_requestId := requestId;
                 tm_delayMs := if bool_decide (1 ≤ ms ≤ 2147483647) then ms else 1 |}
     ∧ promises st' !! call = None
     ∧ (∀ id, id ≠ requestId → pendingInvokes st' !! id = pendingInvokes st !! id)
     ∧ (∀ h, h ≠ call → timers st' !! h = timers st !! h)
     ∧ promises st' = promises st
     ∧ invokeTransfers st' = invokeTransfers st
     ∧ inflightBytes st' = inflightBytes st).
Proof.
  apply (invoke_outcomes Scenario.toy_runtime Scenario.invoking
           {| iv_nodeId := "node-1"; iv_command := "system.which";
              iv_params := ArgValue (JObj [("name", JStr "git")]);
              iv_timeoutMs := None; iv_idempotencyKey := None |}
           "req-2").
  - apply reachable_invoking.
  - reflexivity.
Defined.

(** An invoke whose [params] cannot be serialized never reaches the node:
    the promise is rejected and nothing is filed. *)
Example invoke_rejects_unserializable :
  let params :=
    {| iv_nodeId := "node-1"; iv_command := "system.which";
       iv_params := ArgUnserializable;
       iv_timeoutMs := Some 0; iv_idempotencyKey := None |} in
  invoke params "req-2" true Scenario.invoking = (Scenario.invoking, Rejects).
Proof. reflexivity. Qed.

Lemma clearInvokeTransfer_inflight id st :
  inflightBytes (clearInvokeTransfer id st)
  = match invokeTransfers st !! id with
    | Some t => Z.max 0 (inflightBytes st - tr_totalBytes t)
    | None => inflightBytes st
    end.
Proof. unfold clearInvokeTransfer. by destruct (invokeTransfers st !! id). Qed.

(** X6: when the timer of a pending invoke fires, the caller is resolved
    with TIMEOUT, the entry and the timer are gone, the transfer of the
    invoke (if any) is torn down and its bytes are given back; the other
    invokes and transfers are not touched.  A timer that is no longer armed
    does nothing when it fires. *)
Theorem timeout_resolves_and_cleans rt st id p :
  reachable rt st →
  pendingInvokes st !! id = Some p →
  let st' := fireTimer (pi_call p) st in
  promises st' !! pi_call p
    = Some (Resolved (error_result "TIMEOUT" "node invoke timed out"))
  ∧ pendingInvokes st' !! id = None
  ∧ timers st' !! pi_call p = None
  ∧ invokeTransfers st' !! id = None
  ∧ inflightBytes st'
    = match invokeTransfers st !! id with
      | Some t => Z.max 0 (inflightBytes st - tr_totalBytes t)
      | None => inflightBytes st
      end
  ∧ (∀ id', id' ≠ id →
       pendingInvokes st' !! id' = pendingInvokes st !! id'
       ∧ invokeTransfers st' !! id' = invokeTransfers st !! id')
  ∧ (∀ h, timers st !! h = None → fireTimer h st = st).
Proof.
  intros Hc%reachable_consistent Hp. simpl.
  destruct (pending_timer _ Hc _ _ Hp) as (t & Ht & Hid).
  pose proof (pending_unsettled _ Hc _ _ Hp) as Hun.
  split; [|split; [|split; [|split; [|split; [|split]]]]].
  - unfold fireTimer. rewrite Ht. tables. by apply lookup_settle_fresh.
  - unfold fireTimer. rewrite Ht. tables. by rewrite Hid lookup_delete_eq.
  - unfold fireTimer. rewrite Ht. tables. by rewrite lookup_delete_eq.
  - unfold fireTimer. rewrite Ht. tables. by rewrite Hid lookup_delete_eq.
  - unfold fireTimer. rewrite Ht /= clearInvokeTransfer_inflight /= Hid. done.
  - intros id' Hne. unfold fireTimer. rewrite Ht. tables.
    rewrite Hid !lookup_delete_ne; [congruence..|done].
  - intros h Hh. unfold fireTimer. by rewrite Hh.
Qed.

Lemma timeout_resolves_and_cleans_witness :
  let st := Scenario.transferring in
  let st' := fireTimer 0 st in
  promises st' !! 0%nat
    = Some (Resolved (error_result "TIMEOUT" "node invoke timed out"))
  ∧ pendingInvokes st' !! "req-1" = None
  ∧ timers st' !! 0%nat = None
  ∧ invokeTransfers st' !! "req-1" = None
  ∧ inflightBytes st'
    = match invokeTransfers st !! "req-1" with
      | Some t => Z.max 0 (inflightBytes st - tr_totalBytes t)
      | None => inflightBytes st
      end
  ∧ (∀ id', id' ≠ "req-1" →
       pendingInvokes st' !! id' = pendingInvokes st !! id'
       ∧ invokeTransfers st' !! id' = invokeTransfers st !! id')
  ∧ (∀ h, timers st !! h = None → fireTimer h st = st).
Proof.
  apply (timeout_resolves_and_cleans Scenario.toy_runtime Scenario.transferring
           "req-1"
           {| pi_nodeId := "node-1"; pi_command := "system.run"; pi_call := 0 |}).
  - apply reachable_transferring.
  - reflexivity.
Defined.

(** X7: [handleInvokeResult] for a pending invoke of the node named in the
    reply returns [true] and resolves the caller with the reply as it is
    ([ok], [payload], [payloadJSON], [error]); the entry, the timer and the
    transfer of the invoke are gone.  A reply whose id is unknown, or whose
    node id is not the node of the invoke, returns [false] and changes
    nothing. *)
Theorem direct_result_resolves rt st params :
  reachable rt st →
  (∀ p, pendingInvokes st !! rp_id params = Some p →
        pi_nodeId p = rp_nodeId params →
        let st' := (handleInvokeResult params st).1 in
        (handleInvokeResult params st).2 = true
        ∧ promises st' !! pi_call p
          = Some (Resolved {| ok := rp_ok params; payload := rp_payload params;
                              payloadJSON := rp_payloadJSON params;
                              error := rp_error params |})
        ∧ pendingInvokes st' !! rp_id params = None
        ∧ timers st' !! pi_call p = None
        ∧ invokeTransfers st' !! rp_id params = None)
  ∧ ((∀ p, pendingInvokes st !! rp_id params = Some p →
           pi_nodeId p ≠ rp_nodeId params) →
     handleInvokeResult params st = (st, false)).
Proof.
  intros Hc%reachable_consistent. split.
  - intros p Hp Hn. simpl.
    destruct (handleInvokeResult_hit params st p Hp Hn)
      as (Hret & E1 & E2 & E3 & E4 & _).
    rewrite Hret E1 E2 E3 E4 !lookup_delete_eq. repeat split; try done.
    apply lookup_settle_fresh. exact (pending_unsettled _ Hc _ _ Hp).
  - apply handleInvokeResult_miss.
Qed.

Lemma direct_result_resolves_witness :
  let st := Scenario.invoking in
  let params :=
    {| rp_id := "req-1"; rp_nodeId := "node-1"; rp_ok := true;
       rp_payload := None; rp_payloadJSON := Some "{}"; rp_error := None |} in
  (∀ p, pendingInvokes st !! rp_id params = Some p →
        pi_nodeId p = rp_nodeId params →
        let st' := (handleInvokeResult params st).1 in
        (handleInvokeResult params st).2 = true
        ∧ promises st' !! pi_call p
          = Some (Resolved {| ok := rp_ok params; payload := rp_payload params;
                              payloadJSON := rp_payloadJSON params;
                              error := rp_error params |})
        ∧ pendingInvokes st' !! rp_id params = None
        ∧ timers st' !! pi_call p = None
        ∧ invokeTransfers st' !! rp_id params = None)
  ∧ ((∀ p, pendingInvokes st !! rp_id params = Some p →
           pi_nodeId p ≠ rp_nodeId params) →
     handleInvokeResult params st = (st, false)).
Proof.
  apply (direct_result_resolves Scenario.toy_runtime Scenario.invoking).
  apply reachable_invoking.
Defined.

(** X8: an abort for a pending invoke of that node returns [true] and
    resolves the caller with [ok = false] and the error given, or
    UNAVAILABLE / "node invoke aborted" when none is given; the entry, its
    timer and the transfer are gone.  Without such a pending invoke the abort returns
    [false] and changes nothing: a transfer never outlives its invoke, so
    there is none to reclaim. *)
Theorem abort_resolves_or_ignores rt st params :
  reachable rt st →
  (∀ p, pendingInvokes st !! ap_id params = Some p →
        pi_nodeId p = ap_nodeId params →
        let st' := (abortInvokeResultTransfer params st).1 in
        (abortInvokeResultTransfer params st).2 = true
        ∧ promises st' !! pi_call p
          = Some (Resolved
                    {| ok := false; payload := None; payloadJSON := None;
                       error :=
                         Some (default
                                 {| err_code := Some "UNAVAILABLE";
                                    err_message := Some "node invoke aborted" |}
                                 (ap_error params)) |})
        ∧ pendingInvokes st' !! ap_id params = None
        ∧ timers st' !! pi_call p = None
        ∧ invokeTransfers st' !! ap_id params = None)
  ∧ ((∀ p, pendingInvokes st !! ap_id params = Some p →
           pi_nodeId p ≠ ap_nodeId params) →
     abortInvokeResultTransfer params st = (st, false)).
Proof.
  intros Hc%reachable_consistent. split.
  - intros p Hp Hn. simpl. unfold abortInvokeResultTransfer. rewrite Hp.
    rewrite bool_decide_eq_false_2; [by intros ?|].
    match goal with
    | |- context [handleInvokeResult ?params1 st] =>
        destruct (handleInvokeResult_hit params1 st p Hp Hn)
          as (_ & E1 & E2 & E3 & E4 & _)
    end.
    simpl. rewrite E1 E2 E3 E4 !lookup_delete_eq /=. repeat split; try done.
    apply lookup_settle_fresh. exact (pending_unsettled _ Hc _ _ Hp).
  - intros Hmiss. unfold abortInvokeResultTransfer.
    assert (Horphan :
      match invokeTransfers st !! ap_id params with
      | Some transfer =>
          if bool_decide (tr_nodeId transfer = ap_nodeId params)
          then clearInvokeTransfer (ap_id params) st
          else st
      | None => st
      end = st).
    { destruct (invokeTransfers st !! ap_id params) as [t|] eqn:Ht; [|done].
      case_bool_decide as Hn; [|done].
      destruct (transfer_owned _ Hc _ _ Ht) as (p & Hp & Hnp).
      destruct (Hmiss p Hp). congruence. }
    destruct (pendingInvokes st !! ap_id params) as [p|] eqn:Hp.
    + rewrite bool_decide_eq_true_2; [by apply Hmiss|]. by rewrite Horphan.
    + by rewrite Horphan.
Qed.

Lemma abort_resolves_or_ignores_witness :
  let st := Scenario.transferring in
  let params := {| ap_id := "req-1"; ap_nodeId := "node-1"; ap_error := None |} in
  (∀ p, pendingInvokes st !! ap_id params = Some p →
        pi_nodeId p = ap_nodeId params →
        let st' := (abortInvokeResultTransfer params st).1 in
        (abortInvokeResultTransfer params st).2 = true
        ∧ promises st' !! pi_call p
          = Some (Resolved
                    {| ok := false; payload := None; payloadJSON := None;
                       error :=
                         Some (default
                                 {| err_code := Some "UNAVAILABLE";
                                    err_message := Some "node invoke aborted" |}
                                 (ap_error params)) |})
        ∧ pendingInvokes st' !! ap_id params = None
        ∧ timers st' !! pi_call p = None
        ∧ invokeTransfers st' !! ap_id params = None)
  ∧ ((∀ p, pendingInvokes st !! ap_id params = Some p →
           pi_nodeId p ≠ ap_nodeId params) →
     abortInvokeResultTransfer params st = (st, false)).
Proof.
  apply (abort_resolves_or_ignores Scenario.toy_runtime Scenario.transferring).
  apply reachable_transferring.
Defined.

(** ** Promises are settled once *)

Lemma settles_only_pending_frame st st' :
  promises st' = promises st → settles_only_pending st st'.
Proof. intros E h. left. by rewrite E. Qed.

Lemma settles_only_pending_handleInvokeResult params st :
  settles_only_pending st (handleInvokeResult params st).1.
Proof.
  destruct (pendingInvokes st !! rp_id params) as [p|] eqn:Hp.
  2: { rewrite handleInvokeResult_miss; [by rewrite Hp|].
       by apply settles_only_pending_frame. }
  destruct (decide (pi_nodeId p = rp_nodeId params)) as [Hn|Hn].
  2: { rewrite handleInvokeResult_miss; [rewrite Hp; by intros ? [= <-]|].
       by apply settles_only_pending_frame. }
  destruct (handleInvokeResult_hit params st p Hp Hn) as (_ & E1 & _ & _ & E4 & _).
  intros h. rewrite E1 E4. destruct (decide (h = pi_call p)) as [->|Hne].
  - right. exists (rp_id params), p. by rewrite lookup_delete_eq.
  - left. by apply lookup_settle_ne.
Qed.

Lemma settles_only_pending_same_tables st0 st st' :
  pendingInvokes st0 = pendingInvokes st → promises st0 = promises st →
  settles_only_pending st0 st' → settles_only_pending st st'.
Proof. intros E1 E2 H h. specialize (H h). by rewrite E1 E2 in H. Qed.

Lemma settles_only_pending_step rt st op :
  consistent st → settles_only_pending st (step rt st op).
Proof.
  intros Hc.
  assert (Hres : ∀ params st0,
            pendingInvokes st0 = pendingInvokes st → promises st0 = promises st →
            settles_only_pending st (handleInvokeResult params st0).1).
  { intros params st0 E1 E2.
    apply (settles_only_pending_same_tables st0); [done..|].
    apply settles_only_pending_handleInvokeResult. }
  destruct op; simpl.
  - by apply settles_only_pending_frame.
  - destruct (nodesByConn st !! conn) as [nodeId|] eqn:Hconn.
    2: { unfold unregister. rewrite Hconn. by apply settles_only_pending_frame. }
    destruct (decide (nodeId = "")) as [->|Hne].
    { unfold unregister. rewrite Hconn. by apply settles_only_pending_frame. }
    intros h.
    destruct (decide (h ∈ (λ e, pi_call e.2)
                      <$> leaving nodeId (map_to_list (pendingInvokes st))))
      as [Hin|Hnot].
    + right. apply leaves_elem_of in Hin as (id & p & Hp & Hn & Hcall).
      exists id, p. split; [done|]. split; [done|].
      apply eq_None_not_Some.
      intros [p' [Hp' Hn']%(unregister_pending conn nodeId st Hconn Hne)].
      congruence.
    + left. apply (unregister_promises_kept conn nodeId st Hconn Hne).
      by rewrite -leaves_elem_of.
  - unfold invoke. destruct (nodesById st !! iv_nodeId params);
      [|by apply settles_only_pending_frame].
    destruct (stringifies (iv_params params));
      [|by apply settles_only_pending_frame].
    destruct sendOk; by apply settles_only_pending_frame.
  - unfold fireTimer. destruct (timers st !! call) as [t|] eqn:Ht;
      [|by apply settles_only_pending_frame].
    destruct (timer_pending _ Hc _ _ Ht) as (p & Hp & Hcall).
    intros h. tables. destruct (decide (h = call)) as [->|Hne].
    + right. exists (tm_requestId t), p. by rewrite lookup_delete_eq.
    + left. by apply lookup_settle_ne.
  - by apply Hres.
  - unfold startInvokeResultTransfer.
    destruct (pendingInvokes st !! sp_id params); [|by apply settles_only_pending_frame].
    repeat case_bool_decide; try destruct (sp_sha256 params); simpl;
      first [by apply settles_only_pending_frame | by apply Hres].
  - unfold handleInvokeResultChunk.
    repeat (case_bool_decide || case_match); simpl;
      first [by apply settles_only_pending_frame | by apply Hres].
  - unfold abortInvokeResultTransfer.
    repeat (case_bool_decide || case_match); simpl;
      first [by apply settles_only_pending_frame
            | by apply Hres
            | apply settles_only_pending_frame; by tables].
Qed.

(** X9: in any run, one operation changes the state of a promise only if
    the promise was not settled and belongs to an invoke that was pending
    and whose entry the operation removes: every caller is settled at most
    once, and a settlement is never replaced by a later reply, timeout or
    disconnect. *)
Theorem promise_settled_once rt ops op :
  NoDup (drawn ops) →
  let st := run rt ops empty_registry in
  let st' := step rt st op in
  ∀ h,
    promises st' !! h = promises st !! h
    ∨ (promises st !! h = None
       ∧ ∃ id p, pendingInvokes st !! id = Some p ∧ pi_call p = h
                 ∧ pendingInvokes st' !! id = None).
Proof.
  intros Hnd st st' h.
  assert (Hc : consistent st) by by apply run_consistent.
  destruct (settles_only_pending_step rt st op Hc h)
    as [?|(id & p & Hp & <- & Hgone)]; [by left|right].
  split; [exact (pending_unsettled _ Hc _ _ Hp)|]. by exists id, p.
Qed.

Lemma promise_settled_once_witness :
  let ops :=
    [Scenario.register_node "conn-1" "node-1";
     Scenario.invoke_run "node-1" "req-1"] in
  let st := run Scenario.toy_runtime ops empty_registry in
  let st' := step Scenario.toy_runtime st (OpTimeout 0) in
  promises st' !! 0%nat = promises st !! 0%nat
  ∨ (promises st !! 0%nat = None
     ∧ ∃ id p, pendingInvokes st !! id = Some p ∧ pi_call p = 0%nat
               ∧ pendingInvokes st' !! id = None).
Proof.
  apply (promise_settled_once Scenario.toy_runtime
           [Scenario.register_node "conn-1" "node-1";
            Scenario.invoke_run "node-1" "req-1"] (OpTimeout 0)).
  compute_done.
Defined.

(** X10: in every reachable state the timers armed are exactly the timers
    of the pending invokes, each closing over the id of its invoke, and no
    pending invoke has a settled promise; a transfer always has a pending
    invoke of the same node under its id. *)
Theorem no_stray_timer_or_transfer rt ops :
  NoDup (drawn ops) →
  let st := run rt ops empty_registry in
  (∀ h, is_Some (timers st !! h)
        ↔ ∃ id p, pendingInvokes st !! id = Some p ∧ pi_call p = h)
  ∧ (∀ h t, timers st !! h = Some t → is_Some (pendingInvokes st !! tm_requestId t))
  ∧ (∀ id p, pendingInvokes st !! id = Some p → promises st !! pi_call p = None)
  ∧ (∀ id t, invokeTransfers st !! id = Some t →
       ∃ p, pendingInvokes st !! id = Some p ∧ pi_nodeId p = tr_nodeId t).
Proof.
  intros Hnd st.
  assert (Hc : consistent st) by by apply run_consistent.
  split; [|split; [|split]].
  - intros h. split.
    + intros [t Ht]. destruct (timer_pending _ Hc _ _ Ht) as (p & Hp & Hcall).
      by exists (tm_requestId t), p.
    + intros (id & p & Hp & <-).
      destruct (pending_timer _ Hc _ _ Hp) as (t & Ht & _). by exists t.
  - intros h t Ht. destruct (timer_pending _ Hc _ _ Ht) as (p & Hp & _). by exists p.
  - apply Hc.
  - apply Hc.
Qed.

Lemma no_stray_timer_or_transfer_witness :
  let st := Scenario.transferring in
  (∀ h, is_Some (timers st !! h)
        ↔ ∃ id p, pendingInvokes st !! id = Some p ∧ pi_call p = h)
  ∧ (∀ h t, timers st !! h = Some t → is_Some (pendingInvokes st !! tm_requestId t))
  ∧ (∀ id p, pendingInvokes st !! id = Some p → promises st !! pi_call p = None)
  ∧ (∀ id t, invokeTransfers st !! id = Some t →
       ∃ p, pendingInvokes st !! id = Some p ∧ pi_nodeId p = tr_nodeId t).
Proof.
  apply (no_stray_timer_or_transfer Scenario.toy_runtime
           [Scenario.register_node "conn-1" "node-1";
            Scenario.invoke_run "node-1" "req-1";
            OpStart (Scenario.start_transfer "req-1" "node-1" 6 2 "FEDCBA")]).
  compute_done.
Defined.

(** X11: [unregister] of a connection indexed to node [N] leaves no pending
    invoke and no transfer of [N]; the invokes and transfers of the other
    nodes, their timers and their promises are as before. *)
Theorem unregister_only_touches_its_node rt st conn nodeId :
  reachable rt st →
  nodesByConn st !! conn = Some nodeId → nodeId ≠ "" →
  let st' := (unregister conn st).1 in
  (∀ id p, pendingInvokes st' !! id = Some p → pi_nodeId p ≠ nodeId)
  ∧ (∀ id t, invokeTransfers st' !! id = Some t → tr_nodeId t ≠ nodeId)
  ∧ (∀ id p, pendingInvokes st !! id = Some p → pi_nodeId p ≠ nodeId →
       pendingInvokes st' !! id = Some p
       ∧ timers st' !! pi_call p = timers st !! pi_call p
       ∧ promises st' !! pi_call p = None
       ∧ invokeTransfers st' !! id = invokeTransfers st !! id).
Proof.
  intros Hc%reachable_consistent Hconn Hne. simpl.
  split; [|split].
  - by intros id p [_ ?]%(unregister_pending conn nodeId st Hconn Hne).
  - by intros id t [_ ?]%(unregister_transfers conn nodeId st Hconn Hne).
  - intros id p Hp Hn.
    destruct (unregister_local st id p Hc Hp conn) as [[[Hp' Hun] Htr]|[Hcn _]].
    2: { congruence. }
    split; [done|]. split; [|done].
    destruct (pending_timer _ Hc _ _ Hp) as (t & Ht & _). rewrite Ht.
    apply (unregister_timers conn nodeId st Hconn Hne). split; [done|].
    intros (id2 & p2 & Hp2 & Hn2 & Hcall).
    assert (id2 = id) as -> by exact (pending_call_inj st _ _ _ _ Hc Hp2 Hp Hcall).
    congruence.
Qed.

Lemma unregister_only_touches_its_node_witness :
  let st :=
    run Scenario.toy_runtime
      [Scenario.register_node "conn-1" "node-1";
       Scenario.register_node "conn-2" "node-2";
       Scenario.invoke_run "node-1" "req-1";
       Scenario.invoke_run "node-2" "req-2"]
      empty_registry in
  let st' := (unregister "conn-1" st).1 in
  (∀ id p, pendingInvokes st' !! id = Some p → pi_nodeId p ≠ "node-1")
  ∧ (∀ id t, invokeTransfers st' !! id = Some t → tr_nodeId t ≠ "node-1")
  ∧ (∀ id p, pendingInvokes st !! id = Some p → pi_nodeId p ≠ "node-1" →
       pendingInvokes st' !! id = Some p
       ∧ timers st' !! pi_call p = timers st !! pi_call p
       ∧ promises st' !! pi_call p = None
       ∧ invokeTransfers st' !! id = invokeTransfers st !! id).
Proof.
  apply (unregister_only_touches_its_node Scenario.toy_runtime).
  - exists [Scenario.register_node "conn-1" "node-1";
            Scenario.register_node "conn-2" "node-2";
            Scenario.invoke_run "node-1" "req-1";
            Scenario.invoke_run "node-2" "req-2"].
    split; [compute_done|done].
  - reflexivity.
  - discriminate.
Defined.

(** ** Failed transfer frames *)

(** X12: a chunk frame that the handler refuses, sent by the node of a
    pending invoke under the id of that invoke, ends the invoke: the caller
    is resolved with INVALID_REQUEST and the message returned to the node,
    and the pending entry, its timer and its transfer are removed. *)
Theorem refused_chunk_ends_invoke rt st params p reason message :
  reachable rt st →
  pendingInvokes st !! cp_id params = Some p →
  pi_nodeId p = cp_nodeId params →
  (handleInvokeResultChunk rt params st).2 = TransferFail reason message →
  let st' := (handleInvokeResultChunk rt params st).1 in
  promises st' !! pi_call p
    = Some (Resolved (error_result "INVALID_REQUEST" message))
  ∧ pendingInvokes st' !! cp_id params = None
  ∧ timers st' !! pi_call p = None
  ∧ invokeTransfers st' !! cp_id params = None.
Proof.
  intros Hc%reachable_consistent Hp Hn Hres. simpl.
  assert (Hown : ∀ msg st0, consistent st0 →
            pendingInvokes st0 !! cp_id params = Some p →
            let st' := resolveInvokeError (cp_id params) (cp_nodeId params)
                         (invalid_request msg) st0 in
            promises st' !! pi_call p
              = Some (Resolved (error_result "INVALID_REQUEST" msg))
            ∧ pendingInvokes st' !! cp_id params = None
            ∧ timers st' !! pi_call p = None
            ∧ invokeTransfers st' !! cp_id params = None).
  { intros msg st0 Hc0 Hp0.
    destruct (resolveInvokeError_owner (cp_id params) (cp_nodeId params) msg st0 p
                Hc0 Hp0 Hn) as (? & ? & ? & E).
    repeat split; [done..|]. by rewrite E lookup_delete_eq. }
  destruct (invokeTransfers st !! cp_id params) as [t|] eqn:Ht.
  - destruct (transfer_owned _ Hc _ _ Ht) as (p' & Hp' & Hn').
    assert (p' = p) as -> by congruence.
    assert (Htn : tr_nodeId t = cp_nodeId params) by congruence.
    pose proof (handleInvokeResultChunk_known rt params st t Ht Htn) as E.
    cbv zeta in E. rewrite E in Hres. rewrite E. clear E.
    set (st1 := set_invokeTransfers _ st) in *.
    assert (Hc1 : consistent st1) by by apply consistent_advance.
    assert (Hp1 : pendingInvokes st1 !! cp_id params = Some p) by done.
    repeat case_bool_decide; simpl in Hres; try discriminate;
      injection Hres as _ <-; by apply Hown.
  - rewrite handleInvokeResultChunk_unknown in Hres |- *;
      [by rewrite Ht..|].
    rewrite Hp bool_decide_true //. simpl in Hres. injection Hres as _ <-.
    by apply Hown.
Qed.

Lemma refused_chunk_ends_invoke_witness :
  let st := Scenario.transferring in
  let params := Scenario.chunk "req-1" "node-1" 1 "DEF" in
  let st' := (handleInvokeResultChunk Scenario.toy_runtime params st).1 in
  promises st' !! 0%nat
    = Some (Resolved (error_result "INVALID_REQUEST" "chunk out of order"))
  ∧ pendingInvokes st' !! "req-1" = None
  ∧ timers st' !! 0%nat = None
  ∧ invokeTransfers st' !! "req-1" = None.
Proof.
  apply (refused_chunk_ends_invoke Scenario.toy_runtime Scenario.transferring
           (Scenario.chunk "req-1" "node-1" 1 "DEF")
           {| pi_nodeId := "node-1"; pi_command := "system.run"; pi_call := 0 |}
           ChunkOutOfOrder "chunk out of order").
  - apply reachable_transferring.
  - reflexivity.
  - reflexivity.
  - reflexivity.
Defined.

(** X13: a start frame is refused in two ways.  When no invoke of the
    sending node is pending under the id, the answer is unknown-invoke-id
    and the registry is left as it was.  Otherwise (a second start for the
    same invoke, or a size over one of the two caps) the invoke itself is
    ended: the caller is resolved with INVALID_REQUEST and the returned
    message, and the entry, its timer and any transfer under way for it
    are removed. *)
Theorem refused_start_outcomes rt st params reason message :
  reachable rt st →
  (startInvokeResultTransfer params st).2 = TransferFail reason message →
  let st' := (startInvokeResultTransfer params st).1 in
  (reason = UnknownInvokeId
   ∧ (∀ p, pendingInvokes st !! sp_id params = Some p →
           pi_nodeId p ≠ sp_nodeId params)
   ∧ st' = st)
  ∨ (reason ≠ UnknownInvokeId
     ∧ ∃ p, pendingInvokes st !! sp_id params = Some p
            ∧ pi_nodeId p = sp_nodeId params
            ∧ (is_Some (invokeTransfers st !! sp_id params)
               ∨ sp_totalBytes params > sp_maxInvokeResultBytes params
               ∨ inflightBytes st + sp_totalBytes params
                 > sp_maxInflightBytes params)
            ∧ promises st' !! pi_call p
              = Some (Resolved (error_result "INVALID_REQUEST" message))
            ∧ pendingInvokes st' !! sp_id params = None
            ∧ timers st' !! pi_call p = None
            ∧ invokeTransfers st' !! sp_id params = None).
Proof.
  intros Hc%reachable_consistent. simpl. unfold startInvokeResultTransfer.
  destruct (pendingInvokes st !! sp_id params) as [p|] eqn:Hp.
  2: { simpl. intros [= <- <-]. left. by repeat split. }
  case_bool_decide as Hn.
  { simpl. intros [= <- <-]. left. split; [done|]. split; [|done].
    by intros ? [= <-]. }
  assert (Hown : ∀ msg,
            let st' := resolveInvokeError (sp_id params) (sp_nodeId params)
                         (invalid_request msg) st in
            promises st' !! pi_call p
              = Some (Resolved (error_result "INVALID_REQUEST" msg))
            ∧ pendingInvokes st' !! sp_id params = None
            ∧ timers st' !! pi_call p = None
            ∧ invokeTransfers st' !! sp_id params = None).
  { intros msg.
    destruct (resolveInvokeError_owner (sp_id params) (sp_nodeId params) msg st p
                Hc Hp Hn) as (? & ? & ? & E).
    repeat split; [done..|]. by rewrite E lookup_delete_eq. }
  repeat case_bool_decide; try destruct (sp_sha256 params); simpl;
    intros Hres; try discriminate;
    injection Hres as <- <-; right; (split; [done|]); exists p;
    (split; [done|]); (split; [done|]);
    (split; [|by apply Hown]); tauto.
Qed.

Lemma refused_start_outcomes_witness :
  let st := Scenario.transferring in
  let params := Scenario.start_transfer "req-1" "node-1" 6 2 "FEDCBA" in
  let st' := (startInvokeResultTransfer params st).1 in
  (ChunkOutOfOrder = UnknownInvokeId
   ∧ (∀ p, pendingInvokes st !! sp_id params = Some p →
           pi_nodeId p ≠ sp_nodeId params)
   ∧ st' = st)
  ∨ (ChunkOutOfOrder ≠ UnknownInvokeId
     ∧ ∃ p, pendingInvokes st !! sp_id params = Some p
            ∧ pi_nodeId p = sp_nodeId params
            ∧ (is_Some (invokeTransfers st !! sp_id params)
               ∨ sp_totalBytes params > sp_maxInvokeResultBytes params
               ∨ inflightBytes st + sp_totalBytes params
                 > sp_maxInflightBytes params)
            ∧ promises st' !! pi_call p
              = Some (Resolved (error_result "INVALID_REQUEST" "chunk out of order"))
            ∧ pendingInvokes st' !! sp_id params = None
            ∧ timers st' !! pi_call p = None
            ∧ invokeTransfers st' !! sp_id params = None).
Proof.
  apply (refused_start_outcomes Scenario.toy_runtime Scenario.transferring
           (Scenario.start_transfer "req-1" "node-1" 6 2 "FEDCBA")
           ChunkOutOfOrder "chunk out of order").
  - apply reachable_transferring.
  - reflexivity.
Defined.

(** ** The cap on bytes in flight *)



(** ** Transfers under way *)

Lemma transfers_in_progress_sub st st' :
  (∀ id t, invokeTransfers st' !! id = Some t → invokeTransfers st !! id = Some t) →
  transfers_in_progress st → transfers_in_progress st'.
Proof. intros Hsub Hst id t Ht. by apply (Hst id), Hsub. Qed.

Lemma transfers_in_progress_clearInvokeTransfer id st :
  transfers_in_progress st → transfers_in_progress (clearInvokeTransfer id st).
Proof.
  apply transfers_in_progress_sub. intros id' t.
  rewrite clearInvokeTransfer_transfers. by intros [_ ?]%lookup_delete_Some.
Qed.

Lemma handleInvokeResult_transfers_sub params st id t :
  invokeTransfers (handleInvokeResult params st).1 !! id = Some t →
  invokeTransfers st !! id = Some t.
Proof.
  unfold handleInvokeResult.
  destruct (pendingInvokes st !! rp_id params) as [p|]; [|done].
  case_bool_decide; [done|]. simpl.
  rewrite clearInvokeTransfer_transfers. by intros [_ ?]%lookup_delete_Some.
Qed.

Lemma transfers_in_progress_handleInvokeResult params st :
  transfers_in_progress st →
  transfers_in_progress (handleInvokeResult params st).1.
Proof.
  apply transfers_in_progress_sub. apply handleInvokeResult_transfers_sub.
Qed.

(** The entry under [id] does not matter when the invoke [id] is ended. *)
Lemma transfers_in_progress_ended params st p t' :
  rp_nodeId params = pi_nodeId p →
  pendingInvokes st !! rp_id params = Some p →
  transfers_in_progress st →
  transfers_in_progress
    (handleInvokeResult params
       (set_invokeTransfers (insert (rp_id params) t') st)).1.
Proof.
  intros Hn Hp Hst id t.
  destruct (handleInvokeResult_hit params
              (set_invokeTransfers (insert (rp_id params) t') st) p)
    as (_ & _ & _ & E & _); [done..|].
  rewrite E /=. intros [Hne Ht]%lookup_delete_Some.
  rewrite lookup_insert_ne in Ht; [congruence|]. by apply (Hst id).
Qed.

Lemma transfers_in_progress_step rt st op :
  consistent st → transfers_in_progress st →
  transfers_in_progress (step rt st op).
Proof.
  intros Hc Hst. destruct op; simpl.
  - by apply (transfers_in_progress_sub st).
  - destruct (nodesByConn st !! conn) as [nodeId|] eqn:Hconn.
    2: { unfold unregister. by rewrite Hconn. }
    destruct (decide (nodeId = "")) as [->|Hne].
    { unfold unregister. by rewrite Hconn. }
    apply (transfers_in_progress_sub st); [|done]. intros id t.
    by intros [? _]%(unregister_transfers conn nodeId st Hconn Hne).
  - unfold invoke. destruct (nodesById st !! iv_nodeId params); [|done].
    destruct (stringifies (iv_params params)); [|done].
    by destruct sendOk.
  - unfold fireTimer. destruct (timers st !! call); [|done].
    apply (transfers_in_progress_sub st); [|done]. intros id' t'. tables.
    by intros [_ ?]%lookup_delete_Some.
  - by apply transfers_in_progress_handleInvokeResult.
  - unfold startInvokeResultTransfer.
    destruct (pendingInvokes st !! sp_id params); [|done].
    repeat case_bool_decide; simpl;
      first [done | by apply transfers_in_progress_handleInvokeResult | idtac].
    destruct (sp_sha256 params) as [sha256|]; [|done].
    intros id t. simpl.
    destruct (decide (id = sp_id params)) as [->|Hne].
    + rewrite lookup_insert_eq. intros [= <-]. by left.
    + rewrite lookup_insert_ne; first [congruence | apply Hst].
  - destruct (invokeTransfers st !! cp_id params) as [t|] eqn:Ht.
    2: { rewrite handleInvokeResultChunk_unknown; [by rewrite Ht|]. simpl.
         destruct (pendingInvokes st !! cp_id params); [|done].
         case_bool_decide; [|done].
         by apply transfers_in_progress_handleInvokeResult. }
    destruct (decide (tr_nodeId t = cp_nodeId params)) as [Hn|Hn].
    2: { rewrite handleInvokeResultChunk_unknown; [rewrite Ht; by intros ? [= <-]|].
         simpl. destruct (pendingInvokes st !! cp_id params); [|done].
         case_bool_decide; [|done].
         by apply transfers_in_progress_handleInvokeResult. }
    destruct (transfer_owned _ Hc _ _ Ht) as (p & Hp & Hpn).
    destruct (transfer_counts _ Hc _ _ Ht) as (Hidx & _ & _).
    pose proof (handleInvokeResultChunk_known rt params st t Ht Hn) as E.
    cbv zeta in E. rewrite E. clear E.
    assert (Hend : ∀ rp, rp_id rp = cp_id params → rp_nodeId rp = cp_nodeId params →
              transfers_in_progress
                (handleInvokeResult rp
                   (set_invokeTransfers
                      (insert (cp_id params)
                         (advance t (base64_decode rt (cp_data params)))) st)).1).
    { intros rp E1 E2. rewrite -E1.
      apply (transfers_in_progress_ended rp st p); [congruence|by rewrite E1|done]. }
    repeat case_bool_decide; simpl;
      first [ by apply transfers_in_progress_handleInvokeResult
            | by apply Hend
            | idtac ].
    intros id t'. simpl.
    destruct (decide (id = cp_id params)) as [->|Hne].
    + rewrite lookup_insert_eq. intros [= <-]. right.
      unfold advance in *. simpl in *. lia.
    + rewrite lookup_insert_ne; first [congruence | apply Hst].
  - unfold abortInvokeResultTransfer.
    repeat (case_bool_decide || case_match); simpl;
      first [ done
            | by apply transfers_in_progress_handleInvokeResult
            | by apply transfers_in_progress_clearInvokeTransfer ].
Qed.

(** X15: in every reachable state, the counters of a transfer in the table
    are the number of chunks it holds and the number of bytes in them, and
    the bytes fed to its hash are those chunks in order.  If it holds a
    chunk, the index of its last chunk was not [>= chunkCount], its bytes
    are not [> totalBytes], and [nextIndex] is not equal to [chunkCount]: a
    transfer whose [nextIndex] has reached [chunkCount] is completed or
    failed at once and never left in the table. *)
Theorem transfers_stay_in_progress rt ops :
  NoDup (drawn ops) →
  ∀ id t, invokeTransfers (run rt ops empty_registry) !! id = Some t →
    tr_nextIndex t = Z.of_nat (length (tr_chunks t))
    ∧ tr_bytesReceived t = Z.of_nat (length (concat (tr_chunks t)))
    ∧ tr_hash t = concat (tr_chunks t)
    ∧ (tr_chunks t = []
       ∨ (¬ (tr_nextIndex t - 1 >= tr_chunkCount t)
          ∧ tr_nextIndex t ≠ tr_chunkCount t
          ∧ ¬ (tr_bytesReceived t > tr_totalBytes t))).
Proof.
  intros Hnd id t Ht.
  assert (Hc : consistent (run rt ops empty_registry)) by by apply run_consistent.
  destruct (transfer_counts _ Hc _ _ Ht) as (E1 & E2 & E3).
  repeat split; [done..|].
  assert (Hall : transfers_in_progress (run rt ops empty_registry)).
  { clear id t Ht E1 E2 E3 Hc.
    induction ops as [|op ops IH] using rev_ind; [by intros ??|].
    rewrite drawn_snoc in Hnd. apply NoDup_app in Hnd as (Hnd & _ & _).
    rewrite run_snoc. apply transfers_in_progress_step; [|by apply IH].
    by apply run_consistent. }
  exact (Hall id t Ht).
Qed.

Lemma transfers_stay_in_progress_witness :
  ∃ t, invokeTransfers Scenario.receiving !! "req-1" = Some t
    ∧ tr_nextIndex t = Z.of_nat (length (tr_chunks t))
    ∧ tr_bytesReceived t = Z.of_nat (length (concat (tr_chunks t)))
    ∧ tr_hash t = concat (tr_chunks t)
    ∧ (tr_chunks t = []
       ∨ (¬ (tr_nextIndex t - 1 >= tr_chunkCount t)
          ∧ tr_nextIndex t ≠ tr_chunkCount t
          ∧ ¬ (tr_bytesReceived t > tr_totalBytes t))).
Proof.
  eexists. split; [reflexivity|].
  apply (transfers_stay_in_progress Scenario.toy_runtime
           [Scenario.register_node "conn-1" "node-1";
            Scenario.invoke_run "node-1" "req-1";
            OpStart (Scenario.start_transfer "req-1" "node-1" 6 2 "FEDCBA");
            OpChunk (Scenario.chunk "req-1" "node-1" 0 "abcd")]
           ltac:(compute_done) "req-1").
  reflexivity.
Defined.

End NodeRegistryProofs.


(** * Properties of the exec-host client *)

Module ExecHostProofs.
Import ExecHost ExecSpec.

Lemma well_formed_start params st :
  requestExecHostViaSocket params = Some st → well_formed st.
Proof.
  unfold requestExecHostViaSocket. case_match; [done|]. intros [= <-]. split; simpl.
  - done.
  - intros h [t Ht]. destruct (decide (0%nat = h)) as [<-|Hne]; [done|].
    by rewrite lookup_insert_ne // lookup_empty in Ht.
  - intros h [= <-]. lia.
Qed.

Lemma well_formed_finish value st : well_formed st → well_formed (finish value st).
Proof.
  intros Hwf. unfold finish. destruct (settled st) eqn:Hs; [done|].
  destruct Hwf as [H1 H2 H3]. split; simpl.
  - done.
  - intros h [t Ht]. destruct (timer st) as [h0|] eqn:Hh.
    + apply lookup_delete_Some in Ht as [Hne Ht].
      specialize (H2 h (mk_is_Some _ _ Ht)). congruence.
    + by specialize (H2 h (mk_is_Some _ _ Ht)).
  - done.
Qed.

Lemma well_formed_onTimer h st : well_formed st → well_formed (onTimer h st).
Proof.
  intros Hwf. unfold onTimer. destruct (armed st !! h) as [t|] eqn:Ht; [|done].
  assert (Hwf1 : well_formed
    {| settled := settled st; buffer := buffer st;
       pendingReceived := pendingReceived st; timer := timer st;
       armed := delete h (armed st); nextTimer := nextTimer st;
       destroyed := destroyed st; resolved := resolved st;
       pendingCalls := pendingCalls st |}).
  { destruct Hwf as [H1 H2 H3]. split; simpl; [done| |done].
    intros h' [t' [_ Ht']%lookup_delete_Some]. apply H2. eauto. }
  destruct (tm_callback t); [destruct (pendingReceived _)|];
    by apply well_formed_finish.
Qed.

Lemma well_formed_onError st : well_formed st → well_formed (onError st).
Proof. apply well_formed_finish. Qed.

(** After [clearTimeout(timer)] no timeout is armed. *)
Lemma clearTimeout_disarms st :
  well_formed st → armed (clearTimeout st) = ∅.
Proof.
  intros [_ H2 _]. apply map_empty. intros h. simpl.
  apply eq_None_not_Some. intros [t Ht].
  destruct (timer st) as [h0|] eqn:Hh.
  - apply lookup_delete_Some in Ht as [Hne Ht].
    specialize (H2 h (mk_is_Some _ _ Ht)). congruence.
  - by specialize (H2 h (mk_is_Some _ _ Ht)).
Qed.

Lemma well_formed_clearTimeout st : well_formed st → well_formed (clearTimeout st).
Proof.
  intros Hwf. pose proof (clearTimeout_disarms st Hwf) as E.
  destruct Hwf as [H1 H2 H3]. split; [done| |done].
  intros h [t Ht]. rewrite E in Ht. by rewrite lookup_empty in Ht.
Qed.

Lemma well_formed_onMessage params msg st :
  well_formed st → well_formed (onMessage params msg st).1.
Proof.
  intros Hwf. unfold onMessage.
  destruct (is_str "exec-pending" (js_get "type" msg)).
  - simpl.
    assert (Hwf1 : well_formed (set_pendingReceived true st)).
    { destruct Hwf as [H1 H2 H3]. by split. }
    pose proof (clearTimeout_disarms _ Hwf1) as E.
    destruct Hwf1 as [H1 H2 H3].
    destruct (onPending params); split; simpl; try done;
      try (intros h [= <-]; lia);
      intros h [t Ht]; simpl in E; rewrite E in Ht;
      (destruct (decide (nextTimer st = h)) as [<-|Hne]; [done|]);
      by rewrite lookup_insert_ne // lookup_empty in Ht.
  - destruct (is_str "exec-res" (js_get "type" msg)); [|done].
    repeat case_match; simpl;
      by apply well_formed_finish, well_formed_clearTimeout.
Qed.

Section Parsing.
Variable utf8_decode : list byte → jsstring.
Variable JSON_parse : jsstring → option JsVal.

Lemma well_formed_set_buffer s st : well_formed st → well_formed (set_buffer s st).
Proof. intros [H1 H2 H3]. by split. Qed.

Lemma well_formed_processLines fuel params st :
  well_formed st → well_formed (processLines JSON_parse fuel params st).
Proof.
  revert st. induction fuel as [|fuel IH]; intros st Hwf; simpl; [done|].
  destruct (indexOf_newline (buffer st)) as [idx|]; [|done].
  set (st1 := set_buffer _ st).
  assert (Hwf1 : well_formed st1) by by apply well_formed_set_buffer.
  destruct (trim _) as [|c line]; [by apply IH|].
  destruct (JSON_parse _) as [msg|]; [|by apply IH].
  pose proof (well_formed_onMessage params msg st1 Hwf1) as Hwf2.
  destruct (onMessage params msg st1) as [st2 returns]. simpl in Hwf2.
  destruct returns; [done|by apply IH].
Qed.

(** The loop never runs out of fuel: every round shortens [buffer], and
    [onData] starts it with more fuel than [buffer] has characters. *)
Lemma drop_shorter (s : jsstring) idx :
  indexOf_newline s = Some idx → (length (drop (S idx) s) < length s)%nat.
Proof.
  revert idx. induction s as [|c s IH]; intros idx Hidx; [done|].
  cbn [indexOf_newline] in Hidx. rewrite length_drop. cbn [length]. lia.
Qed.

Lemma finish_buffer value st : buffer (finish value st) = buffer st.
Proof. unfold finish. by destruct (settled st). Qed.

Lemma onMessage_buffer params msg st :
  buffer (onMessage params msg st).1 = buffer st.
Proof.
  unfold onMessage. repeat case_match; simpl; rewrite ?finish_buffer; done.
Qed.

Lemma processLines_fuel n m params st :
  (length (buffer st) < n)%nat → (length (buffer st) < m)%nat →
  processLines JSON_parse n params st = processLines JSON_parse m params st.
Proof.
  revert m st. induction n as [|n IH]; intros m st Hn Hm; [lia|].
  destruct m as [|m]; [lia|]. simpl.
  destruct (indexOf_newline (buffer st)) as [idx|] eqn:Hidx; [|done].
  pose proof (drop_shorter _ _ Hidx) as Hshort.
  set (st1 := set_buffer _ st).
  assert (Hlen1 : (length (buffer st1) < length (buffer st))%nat) by done.
  destruct (trim _) as [|c line]; [apply IH; lia|].
  destruct (JSON_parse _) as [msg|]; [|apply IH; lia].
  pose proof (onMessage_buffer params msg st1) as Hbuf.
  destruct (onMessage params msg st1) as [st2 returns]. cbn [fst] in Hbuf.
  destruct returns; [done|]. apply IH; rewrite Hbuf; lia.
Qed.

Lemma onData_fuel params data st fuel :
  (length (buffer st ++ utf8_decode data) < fuel)%nat →
  onData utf8_decode JSON_parse params data st
  = processLines JSON_parse fuel params
      (set_buffer (buffer st ++ utf8_decode data) st).
Proof. intros Hfuel. unfold onData. apply processLines_fuel; simpl; lia. Qed.

Lemma well_formed_handle params st ev :
  well_formed st → well_formed (handle utf8_decode JSON_parse params st ev).
Proof.
  intros Hwf. destruct ev; simpl.
  - unfold onData. by apply well_formed_processLines, well_formed_set_buffer.
  - by apply well_formed_onTimer.
  - by apply well_formed_onError.
Qed.

(** Every state of a client is well formed. *)
Lemma well_formed_run params st0 evs :
  requestExecHostViaSocket params = Some st0 →
  well_formed (foldl (handle utf8_decode JSON_parse params) st0 evs).
Proof.
  intros Hstart%well_formed_start. revert st0 Hstart.
  induction evs as [|ev evs IH]; intros st0 Hwf; simpl; [done|].
  by apply IH, well_formed_handle.
Qed.

End Parsing.

Lemma is_str_exclusive a b v : a ≠ b → is_str a v = true → is_str b v = false.
Proof.
  intros Hne. destruct v; simpl; try done.
  intros ->%String.eqb_eq. apply String.eqb_neq. congruence.
Qed.

(** ** One parsed frame *)

Lemma onMessage_malformed_exec_res params msg st :
  well_formed st → settled st = false →
  is_str "exec-res" (js_get "type" msg) = true →
  (is_bool true (js_get "ok" msg) && truthy (js_get "payload" msg))%bool = false →
  (is_bool false (js_get "ok" msg) && truthy (js_get "error" msg))%bool = false →
  let st' := (onMessage params msg st).1 in
  (onMessage params msg st).2 = true
  ∧ resolved st' = [None]
  ∧ settled st' = true
  ∧ armed st' = ∅
  ∧ destroyed st' = true
  ∧ buffer st' = buffer st
  ∧ pendingCalls st' = pendingCalls st.
Proof.
  intros Hwf Hs Hres Hok Herr. simpl. unfold onMessage.
  rewrite (is_str_exclusive "exec-res" "exec-pending" _ _ Hres); [done|].
  rewrite Hres Hok Herr. unfold finish. simpl. rewrite Hs. simpl.
  rewrite (unsettled_unresolved _ Hwf Hs).
  repeat split; try done.
  pose proof (clearTimeout_disarms _ (well_formed_clearTimeout _ Hwf)) as E.
  exact E.
Qed.

Lemma onMessage_exec_pending params msg st h :
  well_formed st → timer st = Some h →
  is_str "exec-pending" (js_get "type" msg) = true →
  let st' := (onMessage params msg st).1 in
  let payload := js_get "payload" msg in
  let delay := js_nullish (js_get "timeoutMs" payload) (JNum pendingTimeoutMs) in
  (onMessage params msg st).2 = false
  ∧ settled st' = settled st ∧ resolved st' = resolved st
  ∧ pendingReceived st' = true
  ∧ timer st' = Some (nextTimer st) ∧ nextTimer st ≠ h
  ∧ armed st'
    = {[ nextTimer st := {| tm_callback := ExtendedTimeout; tm_delay := delay |} ]}
  ∧ pendingCalls st'
    = pendingCalls st ++ (if onPending params then [payload] else [])
  ∧ buffer st' = buffer st.
Proof.
  intros Hwf Hh Hty. simpl. unfold onMessage. rewrite Hty.
  pose proof (timer_handed_out _ Hwf h Hh) as Hlt.
  assert (Hwf1 : well_formed (set_pendingReceived true st)).
  { destruct Hwf as [H1 H2 H3]. by split. }
  pose proof (clearTimeout_disarms _ Hwf1) as E. simpl in E.
  destruct (onPending params); simpl; rewrite E ?app_nil_r;
    repeat split; try done; lia.
Qed.

(** ** The first line of the buffer *)

Lemma indexOf_newline_line l rest :
  indexOf_newline l = None →
  indexOf_newline (l ++ LF :: rest) = Some (length l).
Proof.
  induction l as [|c l IH]; simpl; [done|].
  destruct (N.eqb c LF); [done|].
  destruct (indexOf_newline l); [done|]. intros _. by rewrite IH.
Qed.

Lemma drop_line (l : jsstring) c rest :
  drop (S (length l)) (l ++ c :: rest) = rest.
Proof. induction l as [|x l IH]; [done|]. exact IH. Qed.

Section Lines.
Variable utf8_decode : list byte → jsstring.
Variable JSON_parse : jsstring → option JsVal.
Variable params : Params.

Lemma processLines_no_newline fuel st :
  indexOf_newline (buffer st) = None →
  processLines JSON_parse fuel params st = st.
Proof. intros E. destruct fuel; simpl; [done|]. by rewrite E. Qed.

(** One round of the loop: the text up to the first newline is trimmed
    and, unless it is empty or [JSON.parse] throws, handed to the message
    handler; the loop goes on with what follows the newline unless the
    handler returned. *)
Lemma processLines_first_line fuel st l rest :
  buffer st = l ++ LF :: rest → indexOf_newline l = None →
  (length (buffer st) < fuel)%nat →
  processLines JSON_parse fuel params st
  = let st1 := set_buffer rest st in
    match trim l with
    | [] => processLines JSON_parse fuel params st1
    | _ :: _ =>
        match JSON_parse (trim l) with
        | None => processLines JSON_parse fuel params st1
        | Some msg =>
            if (onMessage params msg st1).2 then (onMessage params msg st1).1
            else processLines JSON_parse fuel params (onMessage params msg st1).1
        end
    end.
Proof.
  intros Hbuf Hl Hfuel. destruct fuel as [|fuel]; [lia|].
  cbn [processLines]. rewrite Hbuf (indexOf_newline_line _ _ Hl).
  rewrite take_app_length drop_line.
  cbv zeta. rewrite Hbuf length_app /= in Hfuel.
  assert (Hgo : ∀ s, buffer s = rest →
            processLines JSON_parse fuel params s
            = processLines JSON_parse (S fuel) params s).
  { intros s Hs. apply processLines_fuel; rewrite Hs; lia. }
  destruct (trim l) as [|c line] eqn:Htrim; [by apply Hgo|].
  destruct (JSON_parse (c :: line)) as [msg|]; [|by apply Hgo].
  pose proof (onMessage_buffer params msg (set_buffer rest st)) as Hb.
  destruct (onMessage params msg (set_buffer rest st)) as [st2 returns].
  cbn [fst snd] in *. destruct returns; [done|]. by apply Hgo.
Qed.

Lemma onData_first_line data st l rest :
  buffer st ++ utf8_decode data = l ++ LF :: rest → indexOf_newline l = None →
  onData utf8_decode JSON_parse params data st
  = let st1 := set_buffer rest st in
    let fuel := S (length (l ++ LF :: rest)) in
    match trim l with
    | [] => processLines JSON_parse fuel params st1
    | _ :: _ =>
        match JSON_parse (trim l) with
        | None => processLines JSON_parse fuel params st1
        | Some msg =>
            if (onMessage params msg st1).2 then (onMessage params msg st1).1
            else processLines JSON_parse fuel params (onMessage params msg st1).1
        end
    end.
Proof.
  intros Hbuf Hl. unfold onData. cbv zeta.
  change (buffer (set_buffer ?s st)) with s. rewrite Hbuf.
  rewrite (processLines_first_line _ _ l rest); [done|done|cbn [buffer set_buffer]; lia|].
  reflexivity.
Qed.

(** C9: an [exec-res] frame received by a client that is not settled (a
    line of the data, trimmed and parsed, whose type is exec-res) with
    neither [ok: true] and a truthy payload nor [ok: false] and a truthy
    error resolves the call with [null]; the timer is cancelled and the
    socket destroyed, as for any resolution, and the handler returns,
    leaving what follows the line in the buffer. *)
Theorem malformed_exec_res_resolves_null data st l rest msg :
  well_formed st → settled st = false →
  buffer st ++ utf8_decode data = l ++ LF :: rest →
  indexOf_newline l = None →
  trim l ≠ [] → JSON_parse (trim l) = Some msg →
  is_str "exec-res" (js_get "type" msg) = true →
  (is_bool true (js_get "ok" msg) && truthy (js_get "payload" msg))%bool = false →
  (is_bool false (js_get "ok" msg) && truthy (js_get "error" msg))%bool = false →
  let st' := onData utf8_decode JSON_parse params data st in
  resolved st' = [None]
  ∧ settled st' = true
  ∧ armed st' = ∅
  ∧ destroyed st' = true
  ∧ buffer st' = rest
  ∧ pendingCalls st' = pendingCalls st.
Proof.
  intros Hwf Hs Hbuf Hl Hline Hparse Hres Hok Herr. cbv zeta.
  rewrite (onData_first_line data st l rest Hbuf Hl). cbv zeta.
  destruct (trim l) as [|c line] eqn:Htrim; [done|]. rewrite Hparse.
  destruct (onMessage_malformed_exec_res params msg (set_buffer rest st))
    as (-> & ? & ? & ? & ? & ? & ?); [by apply well_formed_set_buffer|done..|].
  by repeat split.
Qed.

(** C8 (as amended): an [exec-pending] frame received when one was
    already received does not resolve the call, but it is not ignored: it
    cancels the timer in force, arms a new extended timer
    ([payload.timeoutMs], or 300000 ms), which is then the only one armed,
    and calls [onPending] once more. *)
Theorem repeated_exec_pending_rearms data st h l rest msg :
  well_formed st → settled st = false →
  pendingReceived st = true → timer st = Some h →
  buffer st ++ utf8_decode data = l ++ LF :: rest →
  indexOf_newline l = None → indexOf_newline rest = None →
  trim l ≠ [] → JSON_parse (trim l) = Some msg →
  is_str "exec-pending" (js_get "type" msg) = true →
  let st' := onData utf8_decode JSON_parse params data st in
  let payload := js_get "payload" msg in
  let delay := js_nullish (js_get "timeoutMs" payload) (JNum pendingTimeoutMs) in
  settled st' = false ∧ resolved st' = resolved st
  ∧ pendingReceived st' = true
  ∧ timer st' = Some (nextTimer st) ∧ nextTimer st ≠ h
  ∧ armed st'
    = {[ nextTimer st := {| tm_callback := ExtendedTimeout; tm_delay := delay |} ]}
  ∧ pendingCalls st'
    = pendingCalls st ++ (if onPending params then [payload] else [])
  ∧ buffer st' = rest.
Proof.
  intros Hwf Hs Hpr Hh Hbuf Hl Hrest Hline Hparse Hty. cbv zeta.
  rewrite (onData_first_line data st l rest Hbuf Hl). cbv zeta.
  destruct (trim l) as [|c line] eqn:Htrim; [done|]. rewrite Hparse.
  destruct (onMessage_exec_pending params msg (set_buffer rest st) h)
    as (-> & E1 & E2 & E3 & E4 & E5 & E6 & E7 & E8);
    [by apply well_formed_set_buffer|done..|].
  rewrite processLines_no_newline; [by rewrite E8|].
  rewrite E1 E2 E3 E4 E6 E7 E8. by repeat split.
Qed.

End Lines.

Lemma well_formed_waiting : well_formed waiting.
Proof. by apply (well_formed_start sample_params). Qed.

Lemma well_formed_approving : well_formed approving.
Proof. apply well_formed_handle, well_formed_waiting. Qed.

Lemma malformed_exec_res_resolves_null_witness :
  let st' :=
    onData ascii_decode sample_parse sample_params
      (line_of "partial" ++ line_of "result") waiting in
  resolved st' = [None]
  ∧ settled st' = true
  ∧ armed st' = ∅
  ∧ destroyed st' = true
  ∧ buffer st' = units "result" ++ [LF]
  ∧ pendingCalls st' = pendingCalls waiting.
Proof.
  apply (malformed_exec_res_resolves_null ascii_decode sample_parse sample_params
           (line_of "partial" ++ line_of "result") waiting
           (units "partial") (units "result" ++ [LF])
           (exec_res [("ok", JBool true)])).
  - apply well_formed_waiting.
  - reflexivity.
  - reflexivity.
  - reflexivity.
  - discriminate.
  - reflexivity.
  - reflexivity.
  - reflexivity.
  - reflexivity.
Defined.

Lemma repeated_exec_pending_rearms_witness :
  let st' :=
    onData ascii_decode sample_parse sample_params
      (line_of "  pending" ++ bytes "res") approving in
  settled st' = false ∧ resolved st' = resolved approving
  ∧ pendingReceived st' = true
  ∧ timer st' = Some 2%nat ∧ 2%nat ≠ 1%nat
  ∧ armed st'
    = {[ 2%nat := {| tm_callback := ExtendedTimeout; tm_delay := JNum 400 |} ]}
  ∧ pendingCalls st'
    = pendingCalls approving
      ++ [JObj [("reason", JStr "awaiting-approval"); ("timeoutMs", JNum 400)]]
  ∧ buffer st' = units "res".
Proof.
  apply (repeated_exec_pending_rearms ascii_decode sample_parse sample_params
           (line_of "  pending" ++ bytes "res") approving 1%nat
           (units "  pending") (units "res") sample_pending).
  - apply well_formed_approving.
  - reflexivity.
  - reflexivity.
  - reflexivity.
  - reflexivity.
  - reflexivity.
  - reflexivity.
  - discriminate.
  - reflexivity.
  - reflexivity.
Defined.

(** C8 fails as written: a second [exec-pending] frame is not ignored.
    The client is in the Pending state after a first frame; on the second
    one the timer armed by the first (handle 1) is replaced by a new one
    (handle 2), and [onPending] is called a second time. *)
Lemma second_exec_pending_not_ignored :
  let st' :=
    handle ascii_decode sample_parse sample_params approving
      (EvData (line_of "pending")) in
  pendingReceived approving = true ∧ settled approving = false
  ∧ st' ≠ approving
  ∧ timer approving = Some 1%nat ∧ timer st' = Some 2%nat
  ∧ armed st' !! 1%nat = None ∧ is_Some (armed st' !! 2%nat)
  ∧ length (pendingCalls approving) = 1%nat
  ∧ length (pendingCalls st') = 2%nat.
Proof.
  split; [reflexivity|]. split; [reflexivity|].
  split; [intros H%(f_equal timer); vm_compute in H; discriminate|].
  repeat split; by vm_compute; eauto.
Qed.

(** Scenario S6 of the specification: the base timeout is 100 ms; an
    [exec-pending] frame arrives, then the result; [onPending] was called
    with the payload and the call resolves with the result. *)
Example pending_then_result :
  let st :=
    foldl (handle ascii_decode sample_parse sample_params) waiting
      [EvData (line_of "pending"); EvData (line_of "result")] in
  resolved st = [Some (ExecOk (JObj [("exitCode", JNum 0)]))]
  ∧ length (pendingCalls st) = 1%nat
  ∧ armed st = ∅ ∧ destroyed st = true.
Proof. repeat split; by vm_compute. Qed.

(** Several frames in one data event, the second one cut in two by a blank
    line and an unknown one: the loop skips what it does not know and
    handles each frame in turn. *)
Example frames_in_one_event :
  let st :=
    handle ascii_decode sample_parse sample_params waiting
      (EvData (line_of "pending" ++ line_of "" ++ line_of "hello"
               ++ line_of " partial ")) in
  resolved st = [None]
  ∧ length (pendingCalls st) = 1%nat
  ∧ armed st = ∅ ∧ destroyed st = true ∧ buffer st = [].
Proof. repeat split; by vm_compute. Qed.

(** ** The life of one request *)

Lemma finish_settled value st : settled (finish value st) = true.
Proof. unfold finish. by destruct (settled st) eqn:E. Qed.

(** [onMessage] asks the data handler to return exactly when it has
    called [finish]. *)
Lemma onMessage_returns params msg st :
  let r := onMessage params msg st in
  (r.2 = true ∧ settled r.1 = true)
  ∨ (r.2 = false ∧ settled r.1 = settled st ∧ resolved r.1 = resolved st
     ∧ destroyed r.1 = destroyed st).
Proof.
  unfold onMessage. repeat case_match; simpl; rewrite ?finish_settled; tauto.
Qed.

Lemma resolved_once_finish value st : resolved_once st → resolved_once (finish value st).
Proof.
  unfold resolved_once, finish. destruct (settled st) eqn:Hs; [by rewrite Hs|].
  simpl. intros [-> _]. by exists value.
Qed.

Lemma resolved_once_onMessage params msg st :
  resolved_once st → resolved_once (onMessage params msg st).1.
Proof.
  intros H. unfold onMessage. repeat case_match; simpl;
    first [ done | by apply resolved_once_finish ].
Qed.

Lemma resolved_once_onTimer h st : resolved_once st → resolved_once (onTimer h st).
Proof.
  intros H. unfold onTimer. repeat case_match;
    first [ done | by apply resolved_once_finish ].
Qed.

Lemma watched_finish params value st : watched params (finish value st).
Proof. intros Hs. by rewrite finish_settled in Hs. Qed.

Lemma watched_onMessage params msg st :
  well_formed st → watched params st → watched params (onMessage params msg st).1.
Proof.
  intros Hwf Hw. unfold onMessage.
  destruct (is_str "exec-pending" _).
  - assert (Hclear : armed (clearTimeout (set_pendingReceived true st)) = ∅).
    { apply clearTimeout_disarms. destruct Hwf as [H1 H2 H3]. by split. }
    intros Hs.
    exists (nextTimer st),
      {| tm_callback := ExtendedTimeout;
         tm_delay := js_nullish (js_get "timeoutMs" (js_get "payload" msg))
                       (JNum pendingTimeoutMs) |}.
    destruct (onPending params); simpl in *; rewrite Hclear;
      by repeat split.
  - repeat case_match; simpl; first [ done | apply watched_finish ].
Qed.

Lemma watched_onTimer params h st : watched params st → watched params (onTimer h st).
Proof.
  intros Hw. unfold onTimer. repeat case_match;
    first [ done | apply watched_finish ].
Qed.

Section Events.
Variable utf8_decode : list byte → jsstring.
Variable JSON_parse : jsstring → option JsVal.
Variable params : Params.

(** What the line loop keeps, when [set_buffer] and [onMessage] keep it. *)
Lemma processLines_preserves (P : State → Prop) fuel st :
  (∀ s st, P st → P (set_buffer s st)) →
  (∀ msg st, P st → P (onMessage params msg st).1) →
  P st → P (processLines JSON_parse fuel params st).
Proof.
  intros Hbuf Hmsg. revert st. induction fuel as [|fuel IH]; intros st HP; simpl; [done|].
  destruct (indexOf_newline (buffer st)) as [idx|]; [|done].
  set (st1 := set_buffer _ st).
  assert (HP1 : P st1) by apply Hbuf, HP.
  destruct (trim _) as [|c line]; [by apply IH|].
  destruct (JSON_parse _) as [msg|]; [|by apply IH].
  pose proof (Hmsg msg st1 HP1) as HP2.
  destruct (onMessage params msg st1) as [st2 returns]. simpl in HP2.
  destruct returns; [done|by apply IH].
Qed.

Lemma handle_preserves (P : State → Prop) st ev :
  (∀ s st, P st → P (set_buffer s st)) →
  (∀ msg st, P st → P (onMessage params msg st).1) →
  (∀ h st, P st → P (onTimer h st)) →
  (∀ st, P st → P (onError st)) →
  P st → P (handle utf8_decode JSON_parse params st ev).
Proof.
  intros Hbuf Hmsg Htimer Herr HP. destruct ev; simpl.
  - unfold onData. by apply processLines_preserves, Hbuf.
  - by apply Htimer.
  - by apply Herr.
Qed.

Lemma run_preserves (P : State → Prop) st evs :
  (∀ st ev, P st → P (handle utf8_decode JSON_parse params st ev)) →
  P st → P (foldl (handle utf8_decode JSON_parse params) st evs).
Proof.
  intros Hstep. revert st. induction evs as [|ev evs IH]; intros st HP; simpl; [done|].
  by apply IH, Hstep.
Qed.

Lemma resolved_once_handle st ev :
  resolved_once st → resolved_once (handle utf8_decode JSON_parse params st ev).
Proof.
  apply handle_preserves.
  - by intros s st'.
  - intros msg st'. apply resolved_once_onMessage.
  - intros h st'. apply resolved_once_onTimer.
  - intros st'. apply resolved_once_finish.
Qed.

Lemma resolved_once_run st0 evs :
  requestExecHostViaSocket params = Some st0 →
  resolved_once (foldl (handle utf8_decode JSON_parse params) st0 evs).
Proof.
  intros Hstart. apply run_preserves; [apply resolved_once_handle|].
  unfold requestExecHostViaSocket in Hstart.
  case_match; [done|]. by injection Hstart as <-.
Qed.

Lemma settled_handle r st ev :
  settled st = true ∧ resolved st = r →
  settled (handle utf8_decode JSON_parse params st ev) = true
  ∧ resolved (handle utf8_decode JSON_parse params st ev) = r.
Proof.
  assert (Hfin : ∀ value st, settled st = true ∧ resolved st = r →
            settled (finish value st) = true ∧ resolved (finish value st) = r).
  { intros value st' [Hs Hr]. unfold finish. by rewrite Hs. }
  apply (handle_preserves (λ s, settled s = true ∧ resolved s = r)).
  - by intros s st'.
  - intros msg st' H. unfold onMessage.
    repeat case_match; simpl; first [ done | by apply Hfin ].
  - intros h st' H. unfold onTimer.
    repeat case_match; simpl; first [ done | by apply Hfin ].
  - intros st' H. by apply Hfin.
Qed.

(** X16: whatever events follow one another (data, timeouts firing, socket
    errors), the promise of a request is resolved at most once: it holds a
    value exactly when the client is settled, the socket is destroyed
    exactly then, and no later event changes or adds a value. *)
Theorem resolves_at_most_once st0 evs later :
  requestExecHostViaSocket params = Some st0 →
  let st := foldl (handle utf8_decode JSON_parse params) st0 evs in
  let st' := foldl (handle utf8_decode JSON_parse params) st later in
  (length (resolved st) ≤ 1)%nat
  ∧ (settled st = true ↔ resolved st ≠ [])
  ∧ (settled st = true ↔ destroyed st = true)
  ∧ (settled st = true → resolved st' = resolved st).
Proof.
  intros Hstart st st'.
  pose proof (resolved_once_run st0 evs Hstart) as Hone.
  fold st in Hone. unfold resolved_once in Hone.
  split; [|split; [|split]].
  - destruct (settled st); [destruct Hone as (v & -> & _)|destruct Hone as [-> _]];
      simpl; lia.
  - destruct (settled st); [destruct Hone as (v & -> & _)|destruct Hone as [-> _]];
      split; done.
  - destruct (settled st); [destruct Hone as (v & _ & ->)|destruct Hone as [_ ->]];
      split; done.
  - intros Hs.
    apply (run_preserves (λ s, settled s = true ∧ resolved s = resolved st));
      [|done].
    intros s ev. apply settled_handle.
Qed.

Lemma watched_handle st ev :
  well_formed st ∧ watched params st →
  well_formed (handle utf8_decode JSON_parse params st ev)
  ∧ watched params (handle utf8_decode JSON_parse params st ev).
Proof.
  apply (handle_preserves (λ s, well_formed s ∧ watched params s)).
  - intros s st' [Hwf Hw]. split; [by apply well_formed_set_buffer|done].
  - intros msg st' [Hwf Hw].
    split; [by apply well_formed_onMessage|by apply watched_onMessage].
  - intros h st' [Hwf Hw].
    split; [by apply well_formed_onTimer|by apply watched_onTimer].
  - intros st' [Hwf Hw]. split; [by apply well_formed_onError|apply watched_finish].
Qed.

Lemma watched_run st0 evs :
  requestExecHostViaSocket params = Some st0 →
  well_formed (foldl (handle utf8_decode JSON_parse params) st0 evs)
  ∧ watched params (foldl (handle utf8_decode JSON_parse params) st0 evs).
Proof.
  intros Hstart.
  apply (run_preserves (λ s, well_formed s ∧ watched params s));
    [apply watched_handle|].
  split; [by apply (well_formed_start params)|].
  unfold requestExecHostViaSocket in Hstart.
  case_match; [done|]. injection Hstart as <-. intros _.
  by exists 0%nat, {| tm_callback := BaseTimeout;
                      tm_delay := JNum (default 20000 (timeoutMs params)) |}.
Qed.

(** X17: as long as a request is not settled, exactly one timeout is armed
    for it, the one held in [timer]: before any [exec-pending] frame it is
    the callback installed at the start, with the delay [timeoutMs] or
    20 000 ms by default, and after such a frame it is the callback that
    frame installed.  So a request cannot be left waiting with no timeout,
    and the start callback never runs once [pendingReceived] is set. *)
Theorem unsettled_request_has_one_timer st0 evs :
  requestExecHostViaSocket params = Some st0 →
  let st := foldl (handle utf8_decode JSON_parse params) st0 evs in
  settled st = false →
  ∃ h t, timer st = Some h ∧ armed st = {[ h := t ]}
         ∧ tm_callback t
           = (if pendingReceived st then ExtendedTimeout else BaseTimeout)
         ∧ (pendingReceived st = false →
            tm_delay t = JNum (default 20000 (timeoutMs params))).
Proof. intros Hstart st Hs. by apply (watched_run st0 evs Hstart). Qed.

(** X18: when the timeout of an unsettled request fires, the request is
    resolved with [null] if no [exec-pending] frame was received, and with
    the pending reply of reason approval-timeout otherwise; no timeout is
    left armed and the socket is destroyed. *)
Theorem timeout_outcome st0 evs h :
  requestExecHostViaSocket params = Some st0 →
  let st := foldl (handle utf8_decode JSON_parse params) st0 evs in
  settled st = false → timer st = Some h →
  let st' := onTimer h st in
  resolved st'
    = [if pendingReceived st then Some approval_timeout else None]
  ∧ settled st' = true ∧ armed st' = ∅ ∧ destroyed st' = true
  ∧ pendingCalls st' = pendingCalls st.
Proof.
  intros Hstart st Hs Hh. simpl.
  destruct (watched_run st0 evs Hstart) as [Hwf Hw]. fold st in Hwf, Hw.
  destruct (Hw Hs) as (h' & t & Hh' & Harmed & Hcb & _).
  assert (h' = h) as -> by congruence.
  assert (Hres : resolved st = []) by by apply Hwf.
  unfold onTimer. rewrite Harmed lookup_singleton_eq Hcb.
  destruct (pendingReceived st) eqn:Hp; unfold finish; simpl;
    rewrite Hs /= Hres Hh delete_singleton_eq; by rewrite ?delete_empty.
Qed.

End Events.

Lemma resolves_at_most_once_witness :
  let st :=
    foldl (handle ascii_decode sample_parse sample_params) waiting
      [EvData (line_of "pending"); EvData (line_of "result")] in
  let st' :=
    foldl (handle ascii_decode sample_parse sample_params) st
      [EvTimer 1; EvError; EvData (line_of "partial")] in
  (length (resolved st) ≤ 1)%nat
  ∧ (settled st = true ↔ resolved st ≠ [])
  ∧ (settled st = true ↔ destroyed st = true)
  ∧ (settled st = true → resolved st' = resolved st).
Proof.
  apply (resolves_at_most_once ascii_decode sample_parse sample_params waiting
           [EvData (line_of "pending"); EvData (line_of "result")]
           [EvTimer 1; EvError; EvData (line_of "partial")]).
  reflexivity.
Defined.

Lemma unsettled_request_has_one_timer_witness :
  let st :=
    foldl (handle ascii_decode sample_parse sample_params) waiting
      [EvData (line_of "pending")] in
  ∃ h t, timer st = Some h ∧ armed st = {[ h := t ]}
         ∧ tm_callback t
           = (if pendingReceived st then ExtendedTimeout else BaseTimeout)
         ∧ (pendingReceived st = false →
            tm_delay t = JNum (default 20000 (timeoutMs sample_params))).
Proof.
  apply (unsettled_request_has_one_timer ascii_decode sample_parse sample_params waiting
           [EvData (line_of "pending")]).
  - reflexivity.
  - reflexivity.
Defined.

Lemma timeout_outcome_witness :
  let st :=
    foldl (handle ascii_decode sample_parse sample_params) waiting
      [EvData (line_of "pending")] in
  let st' := onTimer 1 st in
  resolved st'
    = [if pendingReceived st then Some approval_timeout else None]
  ∧ settled st' = true ∧ armed st' = ∅ ∧ destroyed st' = true
  ∧ pendingCalls st' = pendingCalls st.
Proof.
  apply (timeout_outcome ascii_decode sample_parse sample_params waiting
           [EvData (line_of "pending")] 1%nat).
  - reflexivity.
  - reflexivity.
  - reflexivity.
Defined.

(** X19: an [exec-res] frame with [ok === true] and a truthy payload
    resolves an unsettled request with that payload; one with
    [ok === false] and a truthy error resolves it with that error.  In both
    cases the data handler returns, no timeout is left armed, the socket is
    destroyed and [onPending] is not called. *)
Theorem exec_res_resolves params msg st :
  well_formed st → settled st = false →
  is_str "exec-res" (js_get "type" msg) = true →
  let st' := (onMessage params msg st).1 in
  ((is_bool true (js_get "ok" msg) && truthy (js_get "payload" msg))%bool = true →
   resolved st' = [Some (ExecOk (js_get "payload" msg))])
  ∧ ((is_bool false (js_get "ok" msg) && truthy (js_get "error" msg))%bool = true →
     resolved st' = [Some (ExecError (js_get "error" msg))])
  ∧ (onMessage params msg st).2 = true
  ∧ settled st' = true ∧ armed st' = ∅ ∧ destroyed st' = true
  ∧ pendingCalls st' = pendingCalls st.
Proof.
  intros Hwf Hs Htype. simpl.
  pose proof (clearTimeout_disarms st Hwf) as Hclear.
  pose proof (unsettled_unresolved _ Hwf Hs) as Hres.
  assert (Hok : ∀ b1 b2 v, is_bool b1 v = true → is_bool b2 v = true → b1 = b2).
  { intros b1 b2 [] ; simpl; try done.
    intros ->%Bool.eqb_prop ->%Bool.eqb_prop. done. }
  unfold onMessage.
  rewrite (is_str_exclusive "exec-res" "exec-pending") //.
  rewrite Htype.
  assert (Hfin : ∀ value,
            let s := finish value (clearTimeout st) in
            resolved s = [value] ∧ settled s = true ∧ armed s = ∅
            ∧ destroyed s = true ∧ pendingCalls s = pendingCalls st).
  { intros value. unfold finish. simpl. rewrite Hs /= Hres.
    repeat split. simpl in Hclear.
    destruct (timer st); by rewrite ?Hclear ?delete_empty. }
  destruct (is_bool true (js_get "ok" msg) && truthy (js_get "payload" msg))%bool
    eqn:E1; simpl.
  - destruct (Hfin (Some (ExecOk (js_get "payload" msg)))) as (? & ? & ? & ? & ?).
    repeat split; try done.
    intros [E2 _]%andb_prop. apply andb_prop in E1 as [E1 _].
    by specialize (Hok _ _ _ E1 E2).
  - destruct (is_bool false (js_get "ok" msg) && truthy (js_get "error" msg))%bool
      eqn:E2; simpl.
    + destruct (Hfin (Some (ExecError (js_get "error" msg)))) as (? & ? & ? & ? & ?).
      by repeat split.
    + destruct (Hfin None) as (? & ? & ? & ? & ?). by repeat split.
Qed.

Lemma exec_res_resolves_witness :
  let msg := sample_result in
  let st' := (onMessage sample_params msg approving).1 in
  ((is_bool true (js_get "ok" msg) && truthy (js_get "payload" msg))%bool = true →
   resolved st' = [Some (ExecOk (js_get "payload" msg))])
  ∧ ((is_bool false (js_get "ok" msg) && truthy (js_get "error" msg))%bool = true →
     resolved st' = [Some (ExecError (js_get "error" msg))])
  ∧ (onMessage sample_params msg approving).2 = true
  ∧ settled st' = true ∧ armed st' = ∅ ∧ destroyed st' = true
  ∧ pendingCalls st' = pendingCalls approving.
Proof.
  apply (exec_res_resolves sample_params sample_result approving).
  - apply well_formed_approving.
  - reflexivity.
  - reflexivity.
Defined.

(** ** Framing of the replies *)

Lemma finish_disarms value st :
  well_formed st → settled st = false → armed (finish value st) = ∅.
Proof.
  intros Hwf Hs. unfold finish. rewrite Hs. exact (clearTimeout_disarms st Hwf).
Qed.

(** The first newline of a string cuts it in a line without newline and
    a rest. *)
Lemma indexOf_newline_Some s idx :
  indexOf_newline s = Some idx →
  s = take idx s ++ LF :: drop (S idx) s
  ∧ indexOf_newline (take idx s) = None.
Proof.
  revert idx. induction s as [|c s IH]; intros idx; [done|].
  cbn [indexOf_newline]. destruct (N.eqb c LF) eqn:Ec.
  - intros [= <-]. by apply N.eqb_eq in Ec as ->.
  - destruct (indexOf_newline s) as [i|] eqn:Ei; [|done]. intros [= <-].
    destruct (IH i eq_refl) as [E1 E2]. cbn [take drop app indexOf_newline].
    rewrite Ec E2 -E1. done.
Qed.

(** The message handler neither reads nor writes [buffer]. *)
Lemma onMessage_set_buffer params msg s st :
  onMessage params msg (set_buffer s st)
  = (set_buffer s (onMessage params msg st).1, (onMessage params msg st).2).
Proof.
  unfold onMessage. repeat case_match; try done;
    unfold finish; simpl; by destruct (settled st).
Qed.

Section Framing.
Variable utf8_decode : list byte → jsstring.
Variable JSON_parse : jsstring → option JsVal.
Variable params : Params.

Local Abbreviation loop := (processLines JSON_parse).

Lemma processLines_buffer_le fuel st :
  (length (buffer (loop fuel params st)) ≤ length (buffer st))%nat.
Proof.
  revert st. induction fuel as [|fuel IH]; intros st; simpl; [done|].
  destruct (indexOf_newline (buffer st)) as [idx|] eqn:Hidx; [|done].
  pose proof (drop_shorter _ _ Hidx) as Hshort.
  set (st1 := set_buffer _ st).
  assert (Hlen1 : (length (buffer st1) < length (buffer st))%nat) by done.
  destruct (trim _) as [|c line]; [specialize (IH st1); lia|].
  destruct (JSON_parse _) as [msg|]; [|specialize (IH st1); lia].
  pose proof (onMessage_buffer params msg st1) as Hbuf.
  destruct (onMessage params msg st1) as [st2 returns]. cbn [fst] in Hbuf.
  destruct returns; [rewrite Hbuf; lia|]. specialize (IH st2). rewrite Hbuf in IH. lia.
Qed.

(** Text that arrives after the loop has run is handled as if it had been
    there from the start, unless the loop settled the request (and
    returned, leaving the rest of the buffer unread). *)
Lemma processLines_append n :
  ∀ fuel st y,
    (length (buffer st) ≤ n)%nat →
    (length (buffer st) + length y < fuel)%nat →
    settled (loop fuel params st) = false →
    loop fuel params (set_buffer (buffer st ++ y) st)
    = loop fuel params
        (set_buffer (buffer (loop fuel params st) ++ y) (loop fuel params st)).
Proof.
  induction n as [|n IH]; intros fuel st y Hn Hfuel Hs.
  - destruct (buffer st) as [|c s] eqn:Hb; [|simpl in Hn; lia].
    assert (E : loop fuel params st = st)
      by (apply processLines_no_newline; by rewrite Hb).
    by rewrite E Hb.
  - destruct (indexOf_newline (buffer st)) as [idx|] eqn:Hidx.
    2: { by rewrite (processLines_no_newline _ _ fuel st Hidx). }
    destruct (indexOf_newline_Some _ _ Hidx) as [Hcut Hl].
    set (l := take idx (buffer st)) in *.
    set (rest := drop (S idx) (buffer st)) in *.
    assert (Hrest : (length rest ≤ n)%nat).
    { rewrite Hcut length_app /= in Hn. lia. }
    assert (Hrest' : (length rest + length y < fuel)%nat).
    { rewrite Hcut length_app /= in Hfuel. lia. }
    assert (Hcut' : buffer (set_buffer (buffer st ++ y) st)
                    = l ++ LF :: (rest ++ y)).
    { cbn [buffer set_buffer]. rewrite {1}Hcut. by rewrite -app_assoc. }
    assert (Hstep : ∀ m, settled (loop fuel params (set_buffer rest m)) = false →
              loop fuel params (set_buffer (rest ++ y) m)
              = loop fuel params
                  (set_buffer (buffer (loop fuel params (set_buffer rest m)) ++ y)
                     (loop fuel params (set_buffer rest m)))).
    { intros m Hm. by apply (IH fuel (set_buffer rest m) y). }
    rewrite (processLines_first_line JSON_parse params fuel st l rest Hcut Hl) in Hs |- *;
      [lia..|].
    rewrite (processLines_first_line JSON_parse params fuel _ l (rest ++ y) Hcut' Hl);
      [cbn [buffer set_buffer]; rewrite length_app; lia|].
    cbv zeta in Hs |- *.
    change (set_buffer (rest ++ y) (set_buffer (buffer st ++ y) st))
      with (set_buffer (rest ++ y) st).
    destruct (trim l) as [|c line]; [by apply Hstep|].
    destruct (JSON_parse (c :: line)) as [msg|]; [|by apply Hstep].
    rewrite !onMessage_set_buffer in Hs |- *. cbn [fst snd] in Hs |- *.
    destruct (onMessage_returns params msg st) as [[Hr Hset]|[Hr _]];
      rewrite Hr in Hs |- *.
    + exfalso. simpl in Hs. congruence.
    + by apply Hstep.
Qed.

(** X20: how a reply is cut into data events does not matter, as long as
    the cut falls between characters.  Each data event is decoded on its
    own; if decoding [a] and [b] separately gives the decoding of the
    whole, and the request is not settled once [a] is handled, then
    receiving [a] and then [b] leaves the client in the very state that
    receiving them in one piece does. *)
Theorem split_delivery a b st :
  utf8_decode (a ++ b) = utf8_decode a ++ utf8_decode b →
  settled (onData utf8_decode JSON_parse params a st) = false →
  onData utf8_decode JSON_parse params b
    (onData utf8_decode JSON_parse params a st)
  = onData utf8_decode JSON_parse params (a ++ b) st.
Proof.
  intros Hcut Hs.
  pose (st1 := set_buffer (buffer st ++ utf8_decode a) st).
  pose (F := S (length (buffer st1) + length (utf8_decode b))).
  assert (HF : (length (buffer st1) + length (utf8_decode b) < F)%nat)
    by apply Nat.lt_succ_diag_r.
  assert (Ea : onData utf8_decode JSON_parse params a st = loop F params st1).
  { apply onData_fuel. eapply Nat.le_lt_trans; [apply Nat.le_add_r|exact HF]. }
  pose proof (processLines_buffer_le F st1) as Hle.
  rewrite (onData_fuel utf8_decode JSON_parse params (a ++ b) st F).
  { by rewrite Hcut app_assoc length_app. }
  rewrite (onData_fuel utf8_decode JSON_parse params b _ F).
  { rewrite Ea length_app.
    eapply Nat.le_lt_trans; [apply Nat.add_le_mono_r, Hle|exact HF]. }
  rewrite Hcut Ea app_assoc. rewrite Ea in Hs. symmetry.
  by apply (processLines_append (length (buffer st1)) F st1 (utf8_decode b)).
Qed.

(** X21: a data event that completes one line, and may begin the next,
    hands the line, trimmed as [String.prototype.trim] does, to
    [JSON.parse] and the parsed message to the message handler, the buffer
    keeping what follows the newline; a line that is empty once trimmed, or
    on which [JSON.parse] throws, is dropped and changes nothing else. *)
Theorem complete_line_handled data st l rest :
  buffer st ++ utf8_decode data = l ++ LF :: rest →
  indexOf_newline l = None → indexOf_newline rest = None →
  let st1 := set_buffer rest st in
  onData utf8_decode JSON_parse params data st
  = match trim l with
    | [] => st1
    | _ :: _ =>
        match JSON_parse (trim l) with
        | None => st1
        | Some msg => (onMessage params msg st1).1
        end
    end.
Proof.
  intros Hbuf Hl Hrest. cbv zeta.
  rewrite (onData_first_line utf8_decode JSON_parse params data st l rest Hbuf Hl).
  cbv zeta.
  destruct (trim l) as [|c line]; [by apply processLines_no_newline|].
  destruct (JSON_parse (c :: line)) as [msg|]; [|by apply processLines_no_newline].
  pose proof (onMessage_buffer params msg (set_buffer rest st)) as Hb.
  destruct (onMessage params msg (set_buffer rest st)) as [st2 returns].
  cbn [fst snd] in *. destruct returns; [done|].
  apply processLines_no_newline. by rewrite Hb.
Qed.

(** The line loop, started on an unsettled client, stops with the client
    still unsettled or with every timeout cleared. *)
Lemma processLines_settles_clean fuel st :
  well_formed st → settled st = false →
  let st' := processLines JSON_parse fuel params st in
  settled st' = false ∨ armed st' = ∅.
Proof.
  revert st. induction fuel as [|fuel IH]; intros st Hwf Hs; simpl; [by left|].
  destruct (indexOf_newline (buffer st)) as [idx|]; [|by left].
  set (st1 := set_buffer _ st).
  assert (Hwf1 : well_formed st1) by by apply well_formed_set_buffer.
  assert (Hs1 : settled st1 = false) by done.
  destruct (trim _) as [|c line]; [by apply IH|].
  destruct (JSON_parse _) as [msg|]; [|by apply IH].
  pose proof (well_formed_onMessage params msg st1 Hwf1) as Hwf2.
  pose proof (onMessage_returns params msg st1) as Hret.
  assert (Hclean : (onMessage params msg st1).2 = true →
            armed (onMessage params msg st1).1 = ∅).
  { unfold onMessage.
    destruct (is_str "exec-pending" _); [done|].
    destruct (is_str "exec-res" _); [|done].
    destruct (_ && _)%bool; [|destruct (_ && _)%bool]; intros _;
      (apply finish_disarms; [by apply well_formed_clearTimeout|done]). }
  destruct (onMessage params msg st1) as [st2 returns]. cbn [fst snd] in *.
  destruct returns; [right; by apply Hclean|].
  destruct Hret as [[? _]|(_ & Hs2 & _)]; [done|]. apply IH; [done|congruence].
Qed.

(** X22: the event that settles a request (a reply, a timeout or a socket
    error) always cleans up after it: no timeout is left armed, the socket
    is destroyed, and the promise holds exactly one value. *)
Theorem settling_event_cleans_up st0 evs ev :
  requestExecHostViaSocket params = Some st0 →
  let st := foldl (handle utf8_decode JSON_parse params) st0 evs in
  let st' := handle utf8_decode JSON_parse params st ev in
  settled st = false → settled st' = true →
  armed st' = ∅ ∧ destroyed st' = true ∧ ∃ value, resolved st' = [value].
Proof.
  intros Hstart st st' Hs Hs'.
  pose proof (well_formed_run utf8_decode JSON_parse params st0 evs Hstart) as Hwf.
  fold st in Hwf.
  pose proof (resolved_once_handle utf8_decode JSON_parse params st ev
                (resolved_once_run utf8_decode JSON_parse params st0 evs Hstart))
    as Hone.
  fold st' in Hone. unfold resolved_once in Hone. rewrite Hs' in Hone.
  destruct Hone as (value & Hres & Hd).
  split; [|split; [done|by exists value]].
  pose proof (clearTimeout_disarms st Hwf) as Hclear. simpl in Hclear.
  assert (Hfin : ∀ value s, timer s = timer st → settled s = false →
            (∀ h, is_Some (armed s !! h) → timer st = Some h) →
            armed (finish value s) = ∅).
  { intros v s Ht Hss Hsub. unfold finish. rewrite Hss /= Ht.
    apply map_empty. intros h. apply eq_None_not_Some. intros [t Hh].
    destruct (timer st) as [h0|] eqn:E.
    - apply lookup_delete_Some in Hh as [Hne Hh].
      specialize (Hsub h (mk_is_Some _ _ Hh)). congruence.
    - by specialize (Hsub h (mk_is_Some _ _ Hh)). }
  subst st'. destruct ev; cbn [handle] in *.
  - destruct (processLines_settles_clean
                (S (length (buffer st ++ utf8_decode data)))
                (set_buffer (buffer st ++ utf8_decode data) st)) as [E|E];
      [by apply well_formed_set_buffer|done| |exact E].
    change (settled (onData utf8_decode JSON_parse params data st) = false) in E.
    congruence.
  - unfold onTimer in *. destruct (armed st !! h) as [t|] eqn:Hh; [|congruence].
    assert (Hsub : ∀ h', is_Some (delete h (armed st) !! h') → timer st = Some h').
    { intros h' [t' [_ Ht']%lookup_delete_Some]. apply (one_timer _ Hwf). eauto. }
    destruct (tm_callback t); [destruct (pendingReceived st)|]; by apply Hfin.
  - unfold onError. apply Hfin; [done..|]. apply (one_timer _ Hwf).
Qed.

End Framing.

Lemma split_delivery_witness :
  onData ascii_decode sample_parse sample_params (bytes "ding" ++ line_of "result")
    (onData ascii_decode sample_parse sample_params (line_of "" ++ bytes "pen")
       waiting)
  = onData ascii_decode sample_parse sample_params
      ((line_of "" ++ bytes "pen") ++ bytes "ding" ++ line_of "result") waiting.
Proof.
  apply (split_delivery ascii_decode sample_parse sample_params
           (line_of "" ++ bytes "pen") (bytes "ding" ++ line_of "result") waiting).
  - reflexivity.
  - reflexivity.
Defined.

Lemma complete_line_handled_witness :
  let st := set_buffer (units " pend") waiting in
  let st1 := set_buffer (units "res") st in
  let l := units " pending " in
  onData ascii_decode sample_parse sample_params
    (line_of "ing " ++ bytes "res") st
  = match trim l with
    | [] => st1
    | _ :: _ =>
        match sample_parse (trim l) with
        | None => st1
        | Some msg => (onMessage sample_params msg st1).1
        end
    end.
Proof.
  apply (complete_line_handled ascii_decode sample_parse sample_params
           (line_of "ing " ++ bytes "res") (set_buffer (units " pend") waiting)
           (units " pending ") (units "res")).
  - reflexivity.
  - reflexivity.
  - reflexivity.
Defined.

(** [trim] strips the byte order mark, the no-break space and the other
    white space of ECMAScript on both sides, and nothing inside. *)
Example trim_strips_ecmascript_white_space :
  trim ([65279; 160; 9; 8232]%N ++ units "a b" ++ [12288; 32; 13; 8202]%N)
  = units "a b".
Proof. reflexivity. Qed.

Lemma settling_event_cleans_up_witness :
  let st :=
    foldl (handle ascii_decode sample_parse sample_params) waiting
      [EvData (line_of "pending")] in
  let st' := handle ascii_decode sample_parse sample_params st EvError in
  armed st' = ∅ ∧ destroyed st' = true ∧ ∃ value, resolved st' = [value].
Proof.
  apply (settling_event_cleans_up ascii_decode sample_parse sample_params waiting
           [EvData (line_of "pending")] EvError).
  - reflexivity.
  - reflexivity.
  - reflexivity.
Defined.

End ExecHostProofs.
